(** * pic-me: the image conversion engine and the tools around it

    A shallow embedding of the library files of the application
    ([lib/utils.ts], [lib/convert.ts]), of the state handling of its
    components ([OptionsPanel], [JsonFormatter], the code differ) and the
    properties of its specification.

    - JavaScript [number]s are IEEE 754 binary64 values: they are embedded as
      Rocq's primitive [float]s, whose operations are the same binary64
      operations (round to nearest, ties to even).  [Math.floor], [Math.round]
      and [Math.min] are platform built-ins; they are written out below from
      their ECMAScript definitions.
    - Strings are sequences of code units, taken as [string]: for the
      conversion engine only their length and comparisons with ASCII
      characters are used; where the case or the class of a character
      matters ([toLowerCase], [\s], [\w]) the code units are those below
      256.
    - The own properties of an object are an association list in the order
      of their enumeration; [localeCompare], [JSON.parse], [JSON.stringify]
      and [Number] are variables of the sections that use them.
    - [convertFileToBase64] is an [async] function over browser primitives
      (FileReader, createImageBitmap, canvas).  The primitives are fields of a
      [Platform] record; the function is written in an error monad that also
      logs every primitive it calls, in order.  A computation ends with a
      value, with what was thrown, or never: the promise it waits for is
      not settled. *)

From Stdlib Require Import ZArith Lia Bool List Ascii String Floats Uint63.
From Stdlib Require Import Sorted.
From Stdlib Require Import Reals Lra Psatz.

(** A decimal literal stands for the nearest binary64 value, as it does in
    the source. *)
Set Warnings "-inexact-float".
Import ListNotations.

Local Open Scope string_scope.
Local Open Scope Z_scope.

(* ================================================================== *)
(** * Built-ins of the language *)
(* ================================================================== *)

Module JS.

(** ** Strings *)

(** [s.length] *)
Definition len (s : string) : Z := Z.of_nat (String.length s).

(** [s.indexOf(c)] for a one-character needle: the index of its first
    occurrence, [-1] when it does not occur. *)
Fixpoint indexOf (c : ascii) (s : string) : Z :=
  match s with
  | EmptyString => -1
  | String a rest =>
      if Ascii.eqb a c then 0
      else let i := indexOf c rest in
           if i <? 0 then -1 else i + 1
  end.

(** [s.startsWith(p)] *)
Fixpoint startsWith (s p : string) {struct p} : bool :=
  match p, s with
  | EmptyString, _ => true
  | String _ _, EmptyString => false
  | String b p', String a s' => Ascii.eqb a b && startsWith s' p'
  end.

Fixpoint drop (n : nat) (s : string) : string :=
  match n, s with
  | O, _ => s
  | S _, EmptyString => EmptyString
  | S n', String _ s' => drop n' s'
  end.

Fixpoint take (n : nat) (s : string) : string :=
  match n, s with
  | O, _ => EmptyString
  | S _, EmptyString => EmptyString
  | S n', String a s' => String a (take n' s')
  end.

(** [s.endsWith(p)]: the last [p.length] code units of [s] are [p]. *)
Definition endsWith (s p : string) : bool :=
  (String.length p <=? String.length s)%nat
  && String.eqb (drop (String.length s - String.length p) s) p.

(** A relative index of [slice]: negative indices count from the end, and
    the result is clamped to [0 .. length]. *)
Definition clampIndex (n i : Z) : Z :=
  if i <? 0 then Z.max (n + i) 0 else Z.min i n.

(** [s.slice(start, end)] *)
Definition slice (s : string) (start stop : Z) : string :=
  let n := len s in
  let from := clampIndex n start in
  let to := clampIndex n stop in
  take (Z.to_nat (Z.max (to - from) 0)) (drop (Z.to_nat from) s).

(** [s.slice(start)] *)
Definition sliceFrom (s : string) (start : Z) : string :=
  slice s start (len s).

(** [!s] for [s : string | undefined]: [undefined] and the empty string are
    falsy. *)
Definition falsy (s : option string) : bool :=
  match s with
  | None => true
  | Some v => String.eqb v ""
  end.

(** [s || d] for a string [s] *)
Definition orElse (s d : string) : string :=
  if String.eqb s "" then d else s.

(** [x || d] for a number [x]: zero and NaN are falsy. *)
Definition numberOr (x d : float) : float :=
  if PrimFloat.eqb x 0%float || PrimFloat.is_nan x then d else x.

(** [x === 'lit'] for [x : string | undefined] *)
Definition isLit (x : option string) (lit : string) : bool :=
  match x with
  | Some v => String.eqb v lit
  | None => false
  end.

(** [x ?? d] *)
Definition nullish {A : Type} (x : option A) (d : A) : A :=
  match x with
  | Some v => v
  | None => d
  end.

(** ** Numbers *)

(** The signed integer [(-1)^s * m]. *)
Definition signed (s : bool) (m : positive) : Z :=
  if s then Zneg m else Zpos m.

(** The integer as a number, for an integer of less than 63 bits (the
    integers converted here are below [2^53] in absolute value, so no
    rounding takes place). *)
Definition ofZ (z : Z) : float :=
  if z <? 0 then (- of_uint63 (Uint63.of_Z (- z)))%float
  else of_uint63 (Uint63.of_Z z).

(** An integral result [z] computed from an argument of sign [s]: a zero
    result keeps the sign of the argument. *)
Definition integral (s : bool) (z : Z) : float :=
  if z =? 0 then (if s then neg_zero else zero) else ofZ z.

(** [floor (n / 2^k)] *)
Definition floorZ (n : Z) (k : positive) : Z := n / 2 ^ Zpos k.

(** [floor (n / 2^k + 1/2)] *)
Definition roundZ (n : Z) (k : positive) : Z :=
  (2 * n + 2 ^ Zpos k) / 2 ^ (Zpos k + 1).

(** [Math.floor(x)]: the greatest integral number not above [x].  NaN, the
    infinities and the zeros are returned as they are, and so is a number
    [m * 2^e] with [e >= 0], which is integral. *)
Definition Math_floor (x : float) : float :=
  match Prim2SF x with
  | S754_finite s m (Zneg k) => integral s (floorZ (signed s m) k)
  | _ => x
  end.

(** [Math.round(x)]: the integral number closest to [x], the one towards
    +infinity when two are equally close; [-0] for [-0.5 <= x < 0]. *)
Definition Math_round (x : float) : float :=
  match Prim2SF x with
  | S754_finite s m (Zneg k) => integral s (roundZ (signed s m) k)
  | _ => x
  end.

(** [x > y] *)
Definition gt (x y : float) : bool := (y <? x)%float.

(** [Math.min(x, y)]: NaN when an argument is NaN, and [-0] is below [+0]. *)
Definition Math_min2 (x y : float) : float :=
  if is_nan x || is_nan y then nan
  else if (x <? y)%float then x
  else if (y <? x)%float then y
  else if get_sign x then x else y.

(** [Math.min(x, y, z)] *)
Definition Math_min3 (x y z : float) : float :=
  Math_min2 (Math_min2 x y) z.

(** ** Characters *)

(** The code units of the strings embedded here are below 256. *)
Definition code (c : ascii) : Z := Z.of_N (N_of_ascii c).

Definition ofCode (n : Z) : ascii := ascii_of_N (Z.to_N n).

(** The lower case of a code unit below 256: the letters A to Z and the
    capital letters of Latin-1, U+00C0 to U+00DE without the multiplication
    sign U+00D7, are 32 below their lower case. *)
Definition lowerChar (c : ascii) : ascii :=
  let n := code c in
  if ((65 <=? n) && (n <=? 90)) || ((192 <=? n) && (n <=? 222) && negb (n =? 215))
  then ofCode (n + 32)
  else c.

(** [s.toLowerCase()] *)
Fixpoint toLowerCase (s : string) : string :=
  match s with
  | EmptyString => EmptyString
  | String c rest => String (lowerChar c) (toLowerCase rest)
  end.

(** The line terminators of regular expressions, which [.] does not match
    and after which [^] matches with the flag [m]: LF and CR (the other two,
    U+2028 and U+2029, are not below 256). *)
Definition isLineTerminator (c : ascii) : bool :=
  (code c =? 10) || (code c =? 13).

(** [\s]: TAB, LF, VT, FF, CR, SP and NBSP (the other white space is not
    below 256). *)
Definition isSpace (c : ascii) : bool :=
  ((9 <=? code c) && (code c <=? 13)) || (code c =? 32) || (code c =? 160).

(** [\w]: the letters A to Z and a to z, the digits and the underscore. *)
Definition isWordChar (c : ascii) : bool :=
  ((48 <=? code c) && (code c <=? 57)) || ((65 <=? code c) && (code c <=? 90))
  || (code c =? 95) || ((97 <=? code c) && (code c <=? 122)).

(** The letters A to Z in lower case, every other code unit as it is: two
    code units are the same for a regular expression with the flag [i] (and
    without the flag [u]) when they are the same after this. *)
Definition foldCase (c : ascii) : ascii :=
  if (65 <=? code c) && (code c <=? 90) then ofCode (code c + 32) else c.

(** ** Arrays *)

(** [s.split(sep)] for a separator of one character: the pieces between
    the separators, one piece at least. *)
Fixpoint split (sep : ascii) (s : string) : list string :=
  match s with
  | EmptyString => [EmptyString]
  | String c rest =>
      if Ascii.eqb c sep then EmptyString :: split sep rest
      else match split sep rest with
           | piece :: pieces => String c piece :: pieces
           | [] => [String c EmptyString]
           end
  end.

(** [a.pop()]: the last element, [undefined] for an empty array. *)
Fixpoint pop {A : Type} (a : list A) : option A :=
  match a with
  | [] => None
  | [x] => Some x
  | _ :: rest => pop rest
  end.

(** [a.sort(compare)]: the sorted array is the stable arrangement of the
    elements by the comparator, which is the order the language defines for
    a comparator that is consistent. *)
Fixpoint insertSorted {A : Type} (compare : A -> A -> Z) (x : A) (l : list A) : list A :=
  match l with
  | [] => [x]
  | y :: rest => if compare x y <=? 0 then x :: l else y :: insertSorted compare x rest
  end.

Fixpoint sort {A : Type} (compare : A -> A -> Z) (l : list A) : list A :=
  match l with
  | [] => []
  | x :: rest => insertSorted compare x (sort compare rest)
  end.

(** ** Objects *)

(** An ordinary object is the list of its own properties in the order in
    which they are enumerated: the array indices in ascending order, then
    the other keys in the order of their creation. *)

Definition digitValue (c : ascii) : option Z :=
  if (48 <=? code c) && (code c <=? 57) then Some (code c - 48) else None.

Fixpoint decimal (s : string) (acc : Z) : option Z :=
  match s with
  | EmptyString => Some acc
  | String c rest =>
      match digitValue c with
      | Some d => decimal rest (10 * acc + d)
      | None => None
      end
  end.

(** The array index a key is: the key is the decimal form, without leading
    zeros, of an integer below [2^32 - 1]. *)
Definition arrayIndex (key : string) : option Z :=
  match key with
  | EmptyString => None
  | String c rest =>
      if Ascii.eqb c "0"
      then match rest with EmptyString => Some 0 | _ => None end
      else match decimal key 0 with
           | Some n => if n <? 4294967295 then Some n else None
           | None => None
           end
  end.

(** [Object.keys(obj)] *)
Definition keys {A : Type} (props : list (string * A)) : list string := map fst props.

(** [obj[key]] for an own property *)
Fixpoint getProperty {A : Type} (props : list (string * A)) (key : string) : option A :=
  match props with
  | [] => None
  | (k, v) :: rest => if String.eqb k key then Some v else getProperty rest key
  end.

Fixpoint replaceProperty {A : Type} (key : string) (v : A) (props : list (string * A))
    : list (string * A) :=
  match props with
  | [] => []
  | (k, w) :: rest =>
      if String.eqb k key then (k, v) :: rest else (k, w) :: replaceProperty key v rest
  end.

(** A new property whose key is the array index [i] goes before the first
    property that is not an array index below [i]. *)
Fixpoint insertIndex {A : Type} (i : Z) (key : string) (v : A) (props : list (string * A))
    : list (string * A) :=
  match props with
  | [] => [(key, v)]
  | (k, w) :: rest =>
      match arrayIndex k with
      | Some j => if j <? i then (k, w) :: insertIndex i key v rest else (key, v) :: props
      | None => (key, v) :: props
      end
  end.

(** [obj[key] = v] on an object made by [{}].  The key [__proto__] is the
    accessor of [Object.prototype]: the assignment calls its setter, which
    may change the prototype of the object and makes no own property.  The
    value of an own property is replaced where it is; a new property is put
    in its place in the order of enumeration. *)
Definition setProperty {A : Type} (props : list (string * A)) (key : string) (v : A)
    : list (string * A) :=
  if String.eqb key "__proto__" then props
  else match getProperty props key with
       | Some _ => replaceProperty key v props
       | None =>
           match arrayIndex key with
           | Some i => insertIndex i key v props
           | None => (props ++ [(key, v)])%list
           end
       end.

End JS.

(* ================================================================== *)
(** * [lib/utils.ts] *)
(* ================================================================== *)

Module Utils.

Definition normalizeTargetMime (originalMime : string) (target : option string) : string :=
  if JS.falsy target || JS.isLit target "original" || JS.isLit target "base64"
  then JS.orElse originalMime "application/octet-stream"
  else if JS.isLit target "png" then "image/png"
  else if JS.isLit target "jpeg" then "image/jpeg"
  else if JS.isLit target "webp" then "image/webp"
  else if JS.isLit target "svg" then "image/svg+xml"
  else JS.orElse originalMime "application/octet-stream".

(** The length of a string is an integer, and the product by three, the
    division by four, the floor and the difference are exact on numbers for
    every length below [2^51] ([FloatFacts.estimate_on_numbers]); a string
    has at most [2^53 - 1] code units, and far fewer in every engine.  The
    estimate is written on [Z]. *)
Definition estimateBase64SizeBytes (dataUrl : string) : Z :=
  let commaIndex := JS.indexOf "," dataUrl in
  let base64 := if commaIndex >=? 0 then JS.sliceFrom dataUrl (commaIndex + 1) else dataUrl in
  let padding := if JS.endsWith base64 "==" then 2 else if JS.endsWith base64 "=" then 1 else 0 in
  (JS.len base64 * 3) / 4 - padding.

Inductive FitMode := contain | cover.

Record Geometry := {
  width : float;
  height : float;
  sx : float;
  sy : float;
  sWidth : float;
  sHeight : float
}.

Definition computeResize (srcWidth srcHeight : float)
    (maxWidth maxHeight : option float) (fit : FitMode) : Geometry :=
  let sourceAspect := (srcWidth / srcHeight)%float in
  let targetMaxWidth := JS.nullish maxWidth srcWidth in
  let targetMaxHeight := JS.nullish maxHeight srcHeight in
  match fit with
  | contain =>
      let scale := JS.Math_min3 (targetMaxWidth / srcWidth)%float
                                (targetMaxHeight / srcHeight)%float 1%float in
      {| width := JS.Math_round (srcWidth * scale)%float;
         height := JS.Math_round (srcHeight * scale)%float;
         sx := 0%float; sy := 0%float;
         sWidth := srcWidth; sHeight := srcHeight |}
  | cover =>
      let targetAspect := (targetMaxWidth / targetMaxHeight)%float in
      let '(sWidth, sHeight) :=
        if JS.gt sourceAspect targetAspect
        then (JS.Math_round (srcHeight * targetAspect)%float, srcHeight)
        else (srcWidth, JS.Math_round (srcWidth / targetAspect)%float) in
      let sx := JS.Math_floor ((srcWidth - sWidth) / 2)%float in
      let sy := JS.Math_floor ((srcHeight - sHeight) / 2)%float in
      {| width := targetMaxWidth; height := targetMaxHeight;
         sx := sx; sy := sy; sWidth := sWidth; sHeight := sHeight |}
  end.

Definition isSvgMime (mime : option string) : bool :=
  JS.isLit mime "image/svg+xml" || JS.isLit mime "image/svg".

Definition mimeToExtension (mime : string) : string :=
  if String.eqb mime "image/png" then "png"
  else if String.eqb mime "image/jpeg" then "jpg"
  else if String.eqb mime "image/webp" then "webp"
  else if String.eqb mime "image/svg+xml" || String.eqb mime "image/svg" then "svg"
  else if String.eqb mime "image/gif" then "gif"
  else if String.eqb mime "image/bmp" then "bmp"
  else "bin".

End Utils.

(* ================================================================== *)
(** * [lib/convert.ts] *)
(* ================================================================== *)

Module Convert.

Import Utils.

(** ** Data *)

Record Blob := { blob_bytes : list Byte.byte; blob_type : string }.

(** A [File] is a [Blob] with a name; [file.type] is the type of the blob. *)
Record File := { file_blob : Blob; file_name : string }.

Definition file_type (f : File) : string := blob_type (file_blob f).

Record ImageBitmap := { bitmap_width : float; bitmap_height : float }.

(** Modelled from the spec: the declaration of the [resize] options
    ([../types]) is not part of the sources; the fields are those of
    section 3 of the specification, with the types [convert.ts] uses them
    at. *)
Record ResizeOptions := {
  maxWidth : option float;
  maxHeight : option float;
  fit : option FitMode
}.

(** Modelled from the spec: the declaration of [ConvertOptions]
    ([../types]) is not part of the sources; the fields are those of
    section 3 of the specification.  [targetFormat] is kept a string, as
    [normalizeTargetMime] takes it, and a field that is absent is [None]. *)
Record ConvertOptions := {
  targetFormat : option string;
  quality : option float;
  resize : option ResizeOptions;
  background : option string
}.

(** Modelled from the spec: the declaration of [ConvertResult] ([../types])
    is not part of the sources; the fields are those [convert.ts] builds
    the result with.  [resultWidth] and [resultHeight] are its fields
    [width] and [height], which a passthrough result does not have. *)
Record ConvertResult := {
  dataUrl : string;
  mime : string;
  sizeBytes : Z;
  resultWidth : option float;
  resultHeight : option float;
  fileName : string
}.

(** [options = {}] *)
Definition noOptions : ConvertOptions :=
  {| targetFormat := None; quality := None; resize := None; background := None |}.

(** ** The rendering surface *)

Inductive CanvasKind := Offscreen | Dom.

Inductive DrawOp :=
| FillRect (fillStyle : string) (x y w h : float)
| DrawImage (image : ImageBitmap) (sx sy sWidth sHeight dx dy dWidth dHeight : float).

(** A canvas and what has been drawn on it, in order. *)
Record Canvas := {
  canvas_kind : CanvasKind;
  canvas_width : float;
  canvas_height : float;
  canvas_ops : list DrawOp
}.

Definition draw (c : Canvas) (op : DrawOp) : Canvas :=
  {| canvas_kind := canvas_kind c; canvas_width := canvas_width c;
     canvas_height := canvas_height c; canvas_ops := (canvas_ops c ++ [op])%list |}.

(** ** Pure helpers *)

Definition extractMimeFromDataUrl (dataUrl : string) : string :=
  let semi := JS.indexOf ";" dataUrl in
  if JS.startsWith dataUrl "data:" && (semi >? 5)
  then JS.slice dataUrl 5 semi
  else "application/octet-stream".

Definition clampCanvasMime (requested : string) : string :=
  if String.eqb requested "image/jpeg" || String.eqb requested "image/webp"
  then requested
  else "image/png".

(** ** The platform and the effects of a conversion *)

(** The primitives of the browser that the module calls. *)
Inductive Event :=
| EvReadAsDataURL (b : Blob)
| EvArrayBuffer (f : File)
| EvCreateImageBitmap (b : Blob)
| EvCreateObjectURL (b : Blob)
| EvLoadImage (b : Blob)
| EvRevokeObjectURL (b : Blob)
| EvCreateCanvas (k : CanvasKind) (w h : float)
| EvDraw (op : DrawOp)
| EvConvertToBlob (c : Canvas) (type : string) (quality : float)
| EvToDataURL (c : Canvas) (type : string) (quality : float).

Section Pipeline.

(** The values promises are rejected with and exceptions are thrown with. *)
Variable Err : Type.

(** What an image element does whose [src] is an object URL of a blob: it
    fires [onerror] with its event, or [onload]; in [onload],
    [createImageBitmap(img)] throws, or returns a promise that is rejected
    or resolved. *)
Inductive ImageLoad :=
| LoadFails (event : Err)
| BitmapThrows (e : Err)
| BitmapRejected (e : Err)
| BitmapResolved (bitmap : ImageBitmap).

(** What the primitives answer.  A primitive that can fail answers with an
    error or a value.  Getting the 2d context of a canvas and drawing on it
    are taken not to fail. *)
Record Platform := {
  (** [FileReader.readAsDataURL], [onload] or [onerror] *)
  fileReader : Blob -> Err + string;
  (** [file.arrayBuffer()] *)
  arrayBuffer : File -> Err + list Byte.byte;
  (** [createImageBitmap(blob)] *)
  createImageBitmap : Blob -> Err + ImageBitmap;
  (** [typeof document !== 'undefined'] and [document.createElement] is a
      function *)
  domAvailable : bool;
  (** [typeof OffscreenCanvas !== 'undefined'] *)
  offscreenCanvasDefined : bool;
  (** an [Image] element whose [src] is an object URL of the blob, and
      [createImageBitmap(img)] once it is loaded *)
  imageElement : Blob -> ImageLoad;
  (** [typeof canvas.convertToBlob === 'function'], for the canvases of
      each kind *)
  convertToBlobDefined : CanvasKind -> bool;
  (** [OffscreenCanvas.convertToBlob({ type, quality })] *)
  convertToBlob : Canvas -> string -> float -> Err + Blob;
  (** [HTMLCanvasElement.toDataURL(type, quality)] *)
  toDataURL : Canvas -> string -> float -> Err + string;
  (** the ReferenceError of reading [document] where there is none *)
  noDocument : Err
}.

(** How a computation ends without a value: something is thrown (a
    promise is rejected), or the promise it waits for is never settled. *)
Inductive Halt :=
| Thrown (e : Err)
| Pending.

(** A computation: the primitives it called, and how it ends. *)
Definition M (A : Type) : Type := (list Event * (Halt + A))%type.

Definition ret {A : Type} (a : A) : M A := ([], inr a).

Definition throw {A : Type} (e : Err) : M A := ([], inl (Thrown e)).

(** [await] of a promise that nothing settles *)
Definition pending {A : Type} : M A := ([], inl Pending).

Definition bind {A B : Type} (m : M A) (k : A -> M B) : M B :=
  match m with
  | (log, inl e) => (log, inl e)
  | (log, inr a) => let '(log', r) := k a in ((log ++ log')%list, r)
  end.

(** [try { m } catch (err) { handler err }] *)
Definition tryCatch {A : Type} (m : M A) (handler : Err -> M A) : M A :=
  match m with
  | (log, inl (Thrown e)) => let '(log', r) := handler e in ((log ++ log')%list, r)
  | (log, inl Pending) => (log, inl Pending)
  | (log, inr a) => (log, inr a)
  end.

(** One call of a primitive. *)
Definition call {A : Type} (ev : Event) (answer : Err + A) : M A :=
  ([ev], match answer with
         | inl e => inl (Thrown e)
         | inr a => inr a
         end).

Definition events {A : Type} (m : M A) : list Event := fst m.

Definition outcome {A : Type} (m : M A) : Halt + A := snd m.

Notation "x <- m ;; k" := (bind m (fun x => k))
  (at level 61, m at next level, right associativity).

Variable P : Platform.

Definition readFileAsArrayBuffer (file : File) : M (list Byte.byte) :=
  call (EvArrayBuffer file) (arrayBuffer P file).

Definition readFileAsDataURL (b : Blob) : M string :=
  call (EvReadAsDataURL b) (fileReader P b).

Definition blobToImageBitmap (b : Blob) : M ImageBitmap :=
  call (EvCreateImageBitmap b) (createImageBitmap P b).

Definition isDomAvailable : bool := domAvailable P.

Definition createCanvas (width height : float) : M Canvas :=
  if offscreenCanvasDefined P && negb isDomAvailable
  then call (EvCreateCanvas Offscreen width height)
            (inr {| canvas_kind := Offscreen; canvas_width := width;
                    canvas_height := height; canvas_ops := [] |})
  else if isDomAvailable
  then call (EvCreateCanvas Dom width height)
            (inr {| canvas_kind := Dom; canvas_width := width;
                    canvas_height := height; canvas_ops := [] |})
  else throw (noDocument P).

Definition canvasToDataURL (canvas : Canvas) (type : string) (quality : float) : M string :=
  if convertToBlobDefined P (canvas_kind canvas)
  then
    blob <- call (EvConvertToBlob canvas type quality) (convertToBlob P canvas type quality) ;;
    readFileAsDataURL blob
  else call (EvToDataURL canvas type quality) (toDataURL P canvas type quality).

(** The [catch] branch of the decode: the [HTMLImageElement] fallback.
    [onerror] revokes the URL and rejects.  [onload] evaluates
    [createImageBitmap(img)] first: when that throws, [resolve] and the
    revocation are not reached and the promise is never settled; when it
    returns a promise, the URL is revoked and the bitmap is that of the
    promise. *)
Definition decodeFallback (blob : Blob) (err : Err) : M ImageBitmap :=
  if negb isDomAvailable then throw err
  else
    _ <- call (EvCreateObjectURL blob) (inr tt) ;;
    loaded <- call (EvLoadImage blob) (inr (imageElement P blob)) ;;
    match loaded with
    | LoadFails event => (_ <- call (EvRevokeObjectURL blob) (inr tt) ;; throw event)
    | BitmapThrows _ => pending
    | BitmapRejected e => (_ <- call (EvRevokeObjectURL blob) (inr tt) ;; throw e)
    | BitmapResolved bitmap => (_ <- call (EvRevokeObjectURL blob) (inr tt) ;; ret bitmap)
    end.

(** The result of the two passthrough exits. *)
Definition passthrough (file : File) : M ConvertResult :=
  dataUrl <- readFileAsDataURL (file_blob file) ;;
  ret {| dataUrl := dataUrl;
         mime := extractMimeFromDataUrl dataUrl;
         sizeBytes := estimateBase64SizeBytes dataUrl;
         resultWidth := None; resultHeight := None;
         fileName := file_name file |}.

(** "Convert via canvas": the rest of the function after the two exits. *)
Definition render (file : File) (options : ConvertOptions)
    (originalMime targetMimeRequested : string) : M ConvertResult :=
  bytes <- readFileAsArrayBuffer file ;;
  let blob := {| blob_bytes := bytes; blob_type := originalMime |} in
  bitmap <- tryCatch (blobToImageBitmap blob) (decodeFallback blob) ;;
  let srcW := bitmap_width bitmap in
  let srcH := bitmap_height bitmap in
  let fit := JS.nullish (match resize options with Some r => fit r | None => None end) contain in
  let g := computeResize srcW srcH
             (match resize options with Some r => maxWidth r | None => None end)
             (match resize options with Some r => maxHeight r | None => None end)
             fit in
  canvas <- createCanvas (width g) (height g) ;;
  let requestedCanvasMime := clampCanvasMime targetMimeRequested in
  let shouldCompositeBackground := String.eqb requestedCanvasMime "image/jpeg" in
  canvas <- (if shouldCompositeBackground
             then let op := FillRect (JS.nullish (background options) "#ffffff")
                                     0 0 (width g) (height g) in
                  call (EvDraw op) (inr (draw canvas op))
             else ret canvas) ;;
  canvas <- (let op := DrawImage bitmap (sx g) (sy g) (sWidth g) (sHeight g)
                                 0 0 (width g) (height g) in
             call (EvDraw op) (inr (draw canvas op))) ;;
  let quality := JS.nullish (quality options) 0.92%float in
  dataUrl <- canvasToDataURL canvas requestedCanvasMime quality ;;
  let actualMime := extractMimeFromDataUrl dataUrl in
  ret {| dataUrl := dataUrl;
         mime := actualMime;
         sizeBytes := estimateBase64SizeBytes dataUrl;
         resultWidth := Some (width g); resultHeight := Some (height g);
         fileName := file_name file |}.

Definition convertFileToBase64 (file : File) (options : ConvertOptions) : M ConvertResult :=
  let originalMime := JS.orElse (file_type file) "application/octet-stream" in
  let targetMimeRequested := normalizeTargetMime originalMime (targetFormat options) in
  let tf := targetFormat options in
  if isSvgMime (Some originalMime)
     && (JS.isLit tf "svg" || JS.isLit tf "original" || JS.isLit tf "base64" || JS.falsy tf)
  then passthrough file
  else if JS.isLit tf "original" || JS.isLit tf "base64"
          || (JS.falsy tf && JS.startsWith originalMime "image/")
  then
    let needsCanvas := (match resize options with Some _ => true | None => false end)
                       || String.eqb targetMimeRequested "image/jpeg" in
    if negb needsCanvas then passthrough file
    else render file options originalMime targetMimeRequested
  else render file options originalMime targetMimeRequested.

End Pipeline.

(** [originalMime] and [targetMimeRequested], the first two constants of
    [convertFileToBase64]. *)
Definition originalMimeOf (file : File) : string :=
  JS.orElse (file_type file) "application/octet-stream".

Definition targetMimeOf (file : File) (options : ConvertOptions) : string :=
  normalizeTargetMime (originalMimeOf file) (targetFormat options).

End Convert.

Arguments Convert.Platform Err : clear implicits.
Arguments Convert.M Err A : clear implicits.
Arguments Convert.fileReader {Err} p b.
Arguments Convert.arrayBuffer {Err} p f.
Arguments Convert.createImageBitmap {Err} p b.
Arguments Convert.domAvailable {Err} p.
Arguments Convert.offscreenCanvasDefined {Err} p.
Arguments Convert.imageElement {Err} p b.
Arguments Convert.convertToBlobDefined {Err} p kind.
Arguments Convert.LoadFails {Err} event.
Arguments Convert.BitmapThrows {Err} e.
Arguments Convert.BitmapRejected {Err} e.
Arguments Convert.BitmapResolved {Err} bitmap.
Arguments Convert.Thrown {Err} e.
Arguments Convert.Pending {Err}.
Arguments Convert.pending {Err A}.
Arguments Convert.convertToBlob {Err} p c type quality.
Arguments Convert.toDataURL {Err} p c type quality.
Arguments Convert.noDocument {Err} p.
Arguments Convert.ret {Err A} a.
Arguments Convert.throw {Err A} e.
Arguments Convert.bind {Err A B} m k.
Arguments Convert.tryCatch {Err A} m handler.
Arguments Convert.call {Err A} ev answer.
Arguments Convert.readFileAsArrayBuffer {Err} P file.
Arguments Convert.readFileAsDataURL {Err} P b.
Arguments Convert.blobToImageBitmap {Err} P b.
Arguments Convert.isDomAvailable {Err} P.
Arguments Convert.createCanvas {Err} P width height.
Arguments Convert.canvasToDataURL {Err} P canvas type quality.
Arguments Convert.decodeFallback {Err} P blob err.
Arguments Convert.events {Err A} m.
Arguments Convert.outcome {Err A} m.
Arguments Convert.passthrough {Err} P file.
Arguments Convert.render {Err} P file options originalMime targetMimeRequested.
Arguments Convert.convertFileToBase64 {Err} P file options.

(* ================================================================== *)
(** * [components/OptionsPanel.tsx] *)
(* ================================================================== *)

Module OptionsPanel.

Import Utils Convert.

(** [Partial<ConvertOptions>]: for each key, whether the object has it, and
    its value when it has. *)
Record PartialOptions := {
  set_targetFormat : option (option string);
  set_quality : option (option float);
  set_resize : option (option ResizeOptions);
  set_background : option (option string)
}.

(** [{ ...value, ...partial }] *)
Definition spread (value : ConvertOptions) (partial : PartialOptions) : ConvertOptions :=
  {| targetFormat := JS.nullish (set_targetFormat partial) (targetFormat value);
     quality := JS.nullish (set_quality partial) (quality value);
     resize := JS.nullish (set_resize partial) (resize value);
     background := JS.nullish (set_background partial) (background value) |}.

(** [update(partial)]: the value [onChange] is called with. *)
Definition update (value : ConvertOptions) (partial : PartialOptions) : ConvertOptions :=
  spread value partial.

(** An entry of [fmts]: a button of the format group. *)
Record Format := { key : string; label : string; disabled : bool }.

Definition fmts (currentMime : option string) : list Format :=
  let svgLike := JS.isLit currentMime "image/svg+xml" || JS.isLit currentMime "image/svg" in
  let isPng := JS.isLit currentMime "image/png" in
  let isJpeg := JS.isLit currentMime "image/jpeg" in
  let isWebp := JS.isLit currentMime "image/webp" in
  [ {| key := "base64"; label := "BASE64"; disabled := false |};
    {| key := "png"; label := "PNG"; disabled := negb (JS.falsy currentMime) && isPng |};
    {| key := "jpeg"; label := "JPEG"; disabled := negb (JS.falsy currentMime) && isJpeg |};
    {| key := "webp"; label := "WEBP"; disabled := negb (JS.falsy currentMime) && isWebp |};
    {| key := "svg"; label := "SVG"; disabled := negb (JS.falsy currentMime) && negb svgLike |} ].

(** [selected] of a button *)
Definition selected (value : ConvertOptions) (f : Format) : bool :=
  String.eqb (JS.nullish (targetFormat value) "base64") (key f).

(** [isQualityApplicable] *)
Definition isQualityApplicable (value : ConvertOptions) : bool :=
  let selectedFormat := JS.nullish (targetFormat value) "base64" in
  String.eqb selectedFormat "jpeg" || String.eqb selectedFormat "webp".

(** [{ ...value.resize, maxWidth }], [{ ...value.resize, maxHeight }] and
    [{ ...value.resize, fit }] *)
Definition withMaxWidth (r : option ResizeOptions) (w : option float) : ResizeOptions :=
  {| maxWidth := w;
     maxHeight := match r with Some r => maxHeight r | None => None end;
     fit := match r with Some r => fit r | None => None end |}.

Definition withMaxHeight (r : option ResizeOptions) (h : option float) : ResizeOptions :=
  {| maxWidth := match r with Some r => maxWidth r | None => None end;
     maxHeight := h;
     fit := match r with Some r => fit r | None => None end |}.

Definition withFit (r : option ResizeOptions) (f : FitMode) : ResizeOptions :=
  {| maxWidth := match r with Some r => maxWidth r | None => None end;
     maxHeight := match r with Some r => maxHeight r | None => None end;
     fit := Some f |}.

(** What the user does on the panel: a click on the button of index [i] of
    the format group, or a change of one of the inputs, with the text or
    the choice of the input. *)
Inductive Action :=
| ClickFormat (i : nat)
| ChangeQuality (text : string)
| ChangeMaxWidth (text : string)
| ChangeMaxHeight (text : string)
| ChangeFit (choice : FitMode)
| ChangeBackground (color : string).

(** The actions on the inputs of the resize. *)
Definition touchesResize (a : Action) : bool :=
  match a with
  | ChangeMaxWidth _ | ChangeMaxHeight _ | ChangeFit _ => true
  | _ => false
  end.

Section Handlers.

(** [Number(text)], the number a text of an input stands for. *)
Variable Number : string -> float.

(** [e.target.value ? Number(e.target.value) : undefined] *)
Definition numberOrUndefined (text : string) : option float :=
  if String.eqb text "" then None else Some (Number text).

(** The handler of an action: the value [onChange] is called with, [None]
    when it is not called (the button does not exist or is disabled). *)
Definition handler (currentMime : option string) (value : ConvertOptions) (a : Action)
    : option ConvertOptions :=
  match a with
  | ClickFormat i =>
      match nth_error (fmts currentMime) i with
      | Some f =>
          if negb (disabled f)
          then Some (update value {| set_targetFormat := Some (Some (key f));
                                     set_quality := None; set_resize := None;
                                     set_background := None |})
          else None
      | None => None
      end
  | ChangeQuality text =>
      Some (update value {| set_targetFormat := None;
                            set_quality := Some (Some (Number text));
                            set_resize := None; set_background := None |})
  | ChangeMaxWidth text =>
      Some (update value {| set_targetFormat := None; set_quality := None;
                            set_resize := Some (Some (withMaxWidth (resize value)
                                                        (numberOrUndefined text)));
                            set_background := None |})
  | ChangeMaxHeight text =>
      Some (update value {| set_targetFormat := None; set_quality := None;
                            set_resize := Some (Some (withMaxHeight (resize value)
                                                        (numberOrUndefined text)));
                            set_background := None |})
  | ChangeFit choice =>
      Some (update value {| set_targetFormat := None; set_quality := None;
                            set_resize := Some (Some (withFit (resize value) choice));
                            set_background := None |})
  | ChangeBackground color =>
      Some (update value {| set_targetFormat := None; set_quality := None;
                            set_resize := None;
                            set_background := Some (Some color) |})
  end.

(** The panel is a controlled component: the value it is given next is the
    value it called [onChange] with. *)
Definition step (currentMime : option string) (value : ConvertOptions) (a : Action)
    : ConvertOptions :=
  match handler currentMime value a with
  | Some value' => value'
  | None => value
  end.

Definition steps (currentMime : option string) (value : ConvertOptions)
    (actions : list Action) : ConvertOptions :=
  fold_left (step currentMime) actions value.

End Handlers.

End OptionsPanel.

(* ================================================================== *)
(** * [components/JsonFormatter.tsx] *)
(* ================================================================== *)

Module JsonFormatter.

(** The values [JSON.parse] answers. *)
#[local] Unset Elimination Schemes.
Inductive Json :=
| JNull
| JBool (b : bool)
| JNumber (n : float)
| JString (s : string)
| JArray (items : list Json)
| JObject (props : list (string * Json)).
#[local] Set Elimination Schemes.

Section Sorting.

(** [a.localeCompare(b)] *)
Variable localeCompare : string -> string -> Z.

(** The keys are those of [value], so every [value[k]] is an own property;
    the read and the recursive call on what is read are one function
    here. *)
Fixpoint sortObjectRecursively (value : Json) : Json :=
  match value with
  | JArray items => JArray (map sortObjectRecursively items)
  | JObject props =>
      let sorted :=
        (fix sorted (ps : list (string * Json)) (k : string) : option Json :=
           match ps with
           | [] => None
           | (k', v) :: rest =>
               if String.eqb k' k then Some (sortObjectRecursively v) else sorted rest k
           end) props in
      JObject (fold_left (fun result k =>
                            match sorted k with
                            | Some v => JS.setProperty result k v
                            | None => result
                            end)
                         (JS.sort localeCompare (JS.keys props)) [])
  | _ => value
  end.

End Sorting.

(** The state of the component. *)
Record State := {
  inputName : string;
  input : string;
  output : string;
  error : option string;
  indent : float;
  sortKeys : bool;
  wordWrap : bool
}.


(** What happens to the component: a file is picked ([handleLoadFile] sets
    its name at once) and the promise of its text is settled later, with
    the text or rejected; the input is edited; one of the three buttons is
    clicked; an indent is chosen; one of the two boxes is checked or
    unchecked. *)
Inductive Action :=
| PickFile (name : string)
| FileText (text : option string)
| EditInput (text : string)
| Format
| Minify
| Clear
| ChooseIndent (text : string)
| CheckSortKeys (checked : bool)
| CheckWordWrap (checked : bool).

Definition clearAll (st : State) : State :=
  {| inputName := "input.json"; input := ""; output := ""; error := None;
     indent := indent st; sortKeys := sortKeys st; wordWrap := wordWrap st |}.

Section Handlers.

Variable localeCompare : string -> string -> Z.

(** [JSON.parse(text)]: the value, or the [message] of what is thrown when
    it has one. *)
Variable JSON_parse : string -> option string + Json.

(** [JSON.stringify(value, null, indent)], and [JSON.stringify(value)]
    without an indent: the text, or the [message] of what is thrown, a
    RangeError for a value nested too deep or a text too long. *)
Variable JSON_stringify : Json -> option float -> option string + string.

(** The stack of the engine is finite: the recursion of
    [sortObjectRecursively(value)] throws a RangeError on a value nested
    too deep for it.  The [message] of what is thrown, when the call does
    not return. *)
Variable stackOverflow : Json -> option (option string).

(** [Number(text)] *)
Variable Number : string -> float.

(** [e?.message || 'Invalid JSON'] *)
Definition messageOf (e : option string) : string :=
  match e with
  | Some m => JS.orElse m "Invalid JSON"
  | None => "Invalid JSON"
  end.

(** The [catch] block of the two handlers. *)
Definition caught (st : State) (e : option string) : State :=
  {| inputName := inputName st; input := input st;
     output := "";
     error := Some (messageOf e);
     indent := indent st; sortKeys := sortKeys st; wordWrap := wordWrap st |}.

(** The call [sortObjectRecursively(parsed)], in the [try] block. *)
Definition sortCall (parsed : Json) : option string + Json :=
  match stackOverflow parsed with
  | Some e => inl e
  | None => inr (sortObjectRecursively localeCompare parsed)
  end.

Definition prettyPrint (st : State) : State :=
  match JSON_parse (input st) with
  | inl e => caught st e
  | inr parsed =>
      match (if sortKeys st then sortCall parsed else inr parsed) with
      | inl e => caught st e
      | inr normalized =>
          match JSON_stringify normalized (Some (indent st)) with
          | inl e => caught st e
          | inr formatted =>
              {| inputName := inputName st; input := input st;
                 output := formatted ++ String (JS.ofCode 10) "";
                 error := None;
                 indent := indent st; sortKeys := sortKeys st; wordWrap := wordWrap st |}
          end
      end
  end.

Definition minify (st : State) : State :=
  match JSON_parse (input st) with
  | inl e => caught st e
  | inr parsed =>
      match JSON_stringify parsed None with
      | inl e => caught st e
      | inr text =>
          {| inputName := inputName st; input := input st;
             output := text;
             error := None;
             indent := indent st; sortKeys := sortKeys st; wordWrap := wordWrap st |}
      end
  end.

(** The state after an action. *)
Definition step (st : State) (a : Action) : State :=
  match a with
  | PickFile name =>
      {| inputName := name; input := input st; output := output st; error := error st;
         indent := indent st; sortKeys := sortKeys st; wordWrap := wordWrap st |}
  | FileText text =>
      {| inputName := inputName st; input := JS.nullish text "";
         output := output st; error := error st;
         indent := indent st; sortKeys := sortKeys st; wordWrap := wordWrap st |}
  | EditInput text =>
      {| inputName := inputName st; input := text;
         output := output st; error := error st;
         indent := indent st; sortKeys := sortKeys st; wordWrap := wordWrap st |}
  | Format => prettyPrint st
  | Minify => minify st
  | Clear => clearAll st
  | ChooseIndent text =>
      {| inputName := inputName st; input := input st;
         output := output st; error := error st;
         indent := JS.numberOr (Number text) 2;
         sortKeys := sortKeys st; wordWrap := wordWrap st |}
  | CheckSortKeys checked =>
      {| inputName := inputName st; input := input st;
         output := output st; error := error st;
         indent := indent st; sortKeys := checked; wordWrap := wordWrap st |}
  | CheckWordWrap checked =>
      {| inputName := inputName st; input := input st;
         output := output st; error := error st;
         indent := indent st; sortKeys := sortKeys st; wordWrap := checked |}
  end.


End Handlers.

(** What [downloadOutput] hands to the browser: the blob and the name of
    the download. *)
Record Download := {
  download_text : string;
  download_type : string;
  download_name : string
}.

Definition downloadOutput (st : State) : Download :=
  {| download_text := output st;
     download_type := "application/json;charset=utf-8";
     download_name := if JS.endsWith (inputName st) ".json" then inputName st
                      else "formatted.json" |}.

End JsonFormatter.

(* ================================================================== *)
(** * The code differ ([CodeDiffer]) *)
(* ================================================================== *)

Module CodeDiffer.

Inductive LanguageKey :=
| auto | plaintext | javascript | typescript | json | css | html | python
| go | java | csharp | cpp | rust | yaml | markdown | bash.

(** [/^{\s*[\{\[]/m.test(content)]: at the start of the content or of one
    of its lines there is a brace, and the first character after the white
    space that follows it is a brace or a bracket. *)
Fixpoint skipSpaces (s : string) : string :=
  match s with
  | EmptyString => EmptyString
  | String c rest => if JS.isSpace c then skipSpaces rest else s
  end.

Definition braceThenOpening (s : string) : bool :=
  match s with
  | String c rest =>
      Ascii.eqb c "{"
      && match skipSpaces rest with
         | String d _ => Ascii.eqb d "{" || Ascii.eqb d "["
         | EmptyString => false
         end
  | EmptyString => false
  end.

Fixpoint atSomeLineStart (test : string -> bool) (atStart : bool) (s : string) : bool :=
  (atStart && test s)
  || match s with
     | EmptyString => false
     | String c rest => atSomeLineStart test (JS.isLineTerminator c) rest
     end.

Definition jsonPattern (content : string) : bool :=
  atSomeLineStart braceThenOpening true content.

(** A word of the pattern at the start of [s], with a word boundary after
    it: the end of the text or a character that is not of a word. *)
Definition wordThenBoundary (word s : string) : bool :=
  JS.startsWith s word
  && match JS.drop (String.length word) s with
     | EmptyString => true
     | String c _ => negb (JS.isWordChar c)
     end.

(** [/^#\!.*\b(bash|sh)\b/.test(content)]: the content starts with [#!]
    and, on its first line, [bash] or [sh] stands as a word. *)
Fixpoint shellWord (afterWordChar : bool) (s : string) : bool :=
  (negb afterWordChar && (wordThenBoundary "bash" s || wordThenBoundary "sh" s))
  || match s with
     | EmptyString => false
     | String c rest =>
         if JS.isLineTerminator c then false else shellWord (JS.isWordChar c) rest
     end.

Definition shebangPattern (content : string) : bool :=
  JS.startsWith content "#!" && shellWord false (JS.drop 2 content).

(** The letters of a string in lower case, for the flag [i]. *)
Fixpoint foldCases (s : string) : string :=
  match s with
  | EmptyString => EmptyString
  | String c rest => String (JS.foldCase c) (foldCases rest)
  end.

(** [/^\s*<(!doctype|html)\b/i.test(content)]: after the white space at the
    start of the content there is [<!doctype] or [<html], in any case, and
    then a word boundary. *)
Definition tagThenBoundary (tag s : string) : bool :=
  String.eqb (foldCases (JS.take (String.length tag) s)) tag
  && match JS.drop (String.length tag) s with
     | EmptyString => true
     | String c _ => negb (JS.isWordChar c)
     end.

Definition htmlPattern (content : string) : bool :=
  match skipSpaces content with
  | String c rest =>
      Ascii.eqb c "<" && (tagThenBoundary "!doctype" rest || tagThenBoundary "html" rest)
  | EmptyString => false
  end.

(** A text without a line terminator. *)
Fixpoint oneLine (s : string) : bool :=
  match s with
  | EmptyString => true
  | String c rest => negb (JS.isLineTerminator c) && oneLine rest
  end.

(** [ext] is one of the [case] labels of a group. *)
Definition oneOf (ext : string) (labels : list string) : bool :=
  existsb (String.eqb ext) labels.

Definition inferLanguage (name content : string) : LanguageKey :=
  let ext := JS.toLowerCase
               (JS.orElse (JS.nullish (JS.pop (JS.split "." name)) "") "") in
  if oneOf ext ["ts"; "tsx"] then typescript
  else if oneOf ext ["js"; "jsx"] then javascript
  else if oneOf ext ["json"] then json
  else if oneOf ext ["css"] then css
  else if oneOf ext ["html"; "htm"] then html
  else if oneOf ext ["py"] then python
  else if oneOf ext ["go"] then go
  else if oneOf ext ["java"] then java
  else if oneOf ext ["cs"] then csharp
  else if oneOf ext ["cpp"; "cc"; "cxx"; "hpp"; "hh"; "hxx"] then cpp
  else if oneOf ext ["rs"] then rust
  else if oneOf ext ["yml"; "yaml"] then yaml
  else if oneOf ext ["md"] then markdown
  else if oneOf ext ["sh"; "bash"] then bash
  else if jsonPattern content then json
  else if shebangPattern content then bash
  else if htmlPattern content then html
  else plaintext.

(** The state of the component. *)
Record State := {
  leftName : string;
  rightName : string;
  left : string;
  right : string;
  sideBySide : bool;
  ignoreWhitespace : bool;
  originalEditable : bool;
  language : LanguageKey;
  isDark : bool
}.

Definition isAuto (l : LanguageKey) : bool :=
  match l with auto => true | _ => false end.

(** [[originalLanguage, modifiedLanguage]] *)
Definition languages (st : State) : LanguageKey * LanguageKey :=
  if negb (isAuto (language st)) then (language st, language st)
  else (inferLanguage (leftName st) (left st), inferLanguage (rightName st) (right st)).

Definition swapSides (st : State) : State :=
  {| leftName := rightName st; rightName := leftName st;
     left := right st; right := left st;
     sideBySide := sideBySide st; ignoreWhitespace := ignoreWhitespace st;
     originalEditable := originalEditable st; language := language st;
     isDark := isDark st |}.

Definition clearBoth (st : State) : State :=
  {| leftName := "left.txt"; rightName := "right.txt";
     left := ""; right := "";
     sideBySide := sideBySide st; ignoreWhitespace := ignoreWhitespace st;
     originalEditable := originalEditable st; language := language st;
     isDark := isDark st |}.

End CodeDiffer.

(* ================================================================== *)
(** * The statements of the specification, as it words them *)
(* ================================================================== *)

Module Stated.

(** The target formats the resolver names. *)
Definition recognizedTarget (t : string) : bool :=
  String.eqb t "original" || String.eqb t "base64" || String.eqb t "png"
  || String.eqb t "jpeg" || String.eqb t "webp" || String.eqb t "svg".

(** "Strips any header preamble up to the first payload-separator": what
    follows the first comma, if there is one. *)
Fixpoint afterFirstComma (s : string) : option string :=
  match s with
  | EmptyString => None
  | String a rest => if Ascii.eqb a "," then Some rest else afterFirstComma rest
  end.

(** The last character of a string. *)
Fixpoint lastChar (s : string) : option ascii :=
  match s with
  | EmptyString => None
  | String a EmptyString => Some a
  | String _ rest => lastChar rest
  end.

(** The string without its last character. *)
Fixpoint dropLast (s : string) : string :=
  match s with
  | EmptyString => EmptyString
  | String _ EmptyString => EmptyString
  | String a rest => String a (dropLast rest)
  end.

(** "[paddingCount] is 0/1/2 based on trailing pad characters". *)
Definition paddingCount (payload : string) : Z :=
  match lastChar payload with
  | Some "="%char =>
      match lastChar (dropLast payload) with
      | Some "="%char => 2
      | _ => 1
      end
  | _ => 0
  end.

(** "[floor(length * 3/4) - paddingCount]" of what is left of the text. *)
Definition estimateBytes (encodedText : string) : Z :=
  let payload := match afterFirstComma encodedText with
                 | Some rest => rest
                 | None => encodedText
                 end in
  (JS.len payload * 3) / 4 - paddingCount payload.

(** The type an event hands to the encoder, when the event is a call of the
    encoder. *)
Definition encoderType (ev : Convert.Event) : option string :=
  match ev with
  | Convert.EvConvertToBlob _ type _ => Some type
  | Convert.EvToDataURL _ type _ => Some type
  | _ => None
  end.

(** The blob an event hands to the primary decoder, when the event is a
    call of [createImageBitmap] on a blob. *)
Definition decodedBlob (ev : Convert.Event) : option Convert.Blob :=
  match ev with
  | Convert.EvCreateImageBitmap b => Some b
  | _ => None
  end.

(** The calls that decode an image, draw on a canvas or encode it. *)
Definition decodesOrRenders (ev : Convert.Event) : bool :=
  match ev with
  | Convert.EvCreateImageBitmap _ | Convert.EvLoadImage _
  | Convert.EvCreateCanvas _ _ _ | Convert.EvDraw _
  | Convert.EvConvertToBlob _ _ _ | Convert.EvToDataURL _ _ _ => true
  | _ => false
  end.

(** A string in which a character does not occur. *)
Fixpoint lacks (c : ascii) (s : string) : bool :=
  match s with
  | EmptyString => true
  | String a rest => negb (Ascii.eqb a c) && lacks c rest
  end.

End Stated.

(** A platform to run the pipeline on: a browser window whose decoder
    answers a 4000 x 2000 bitmap and whose canvas encodes to the type it is
    asked for. *)
Module Sample.

Import Convert.

Definition payloadOf (type : string) : string := "data:" ++ type ++ ";base64,QUJD".

Definition browser : Platform string := {|
  fileReader := fun b => inr (payloadOf (blob_type b));
  arrayBuffer := fun f => inr (blob_bytes (file_blob f));
  createImageBitmap := fun _ => inr {| bitmap_width := 4000; bitmap_height := 2000 |};
  domAvailable := true;
  offscreenCanvasDefined := true;
  imageElement := fun _ => LoadFails "error event";
  convertToBlobDefined := fun kind => match kind with Offscreen => true | Dom => false end;
  convertToBlob := fun _ type _ => inr {| blob_bytes := []; blob_type := type |};
  toDataURL := fun _ type _ => inr (payloadOf type);
  noDocument := "ReferenceError: document is not defined"
|}.

(** A worker: no document, and a decoder that rejects everything. *)
Definition worker : Platform string := {|
  fileReader := fun b => inr (payloadOf (blob_type b));
  arrayBuffer := fun f => inr (blob_bytes (file_blob f));
  createImageBitmap := fun _ => inl "InvalidStateError";
  domAvailable := false;
  offscreenCanvasDefined := true;
  imageElement := fun _ => LoadFails "error event";
  convertToBlobDefined := fun kind => match kind with Offscreen => true | Dom => false end;
  convertToBlob := fun _ type _ => inr {| blob_bytes := []; blob_type := type |};
  toDataURL := fun _ type _ => inr (payloadOf type);
  noDocument := "ReferenceError: document is not defined"
|}.

(** [n] copies of a character. *)
Fixpoint repeat (c : ascii) (n : nat) : string :=
  match n with
  | O => EmptyString
  | S n' => String c (repeat c n')
  end.

Definition fileOf (type : string) : File :=
  {| file_blob := {| blob_bytes := [Byte.x41; Byte.x42; Byte.x43]; blob_type := type |};
     file_name := "picture" |}.

(** A context with neither a document nor an [OffscreenCanvas]. *)
Definition headless : Platform string := {|
  fileReader := fun b => inr (payloadOf (blob_type b));
  arrayBuffer := fun f => inr (blob_bytes (file_blob f));
  createImageBitmap := fun _ => inr {| bitmap_width := 4000; bitmap_height := 2000 |};
  domAvailable := false;
  offscreenCanvasDefined := false;
  imageElement := fun _ => LoadFails "error event";
  convertToBlobDefined := fun kind => match kind with Offscreen => true | Dom => false end;
  convertToBlob := fun _ type _ => inr {| blob_bytes := []; blob_type := type |};
  toDataURL := fun _ type _ => inr (payloadOf type);
  noDocument := "ReferenceError: document is not defined"
|}.

(** A browser window whose [createImageBitmap] rejects blobs, and whose
    image element loads them as a 640 x 480 picture. *)
Definition legacy : Platform string := {|
  fileReader := fun b => inr (payloadOf (blob_type b));
  arrayBuffer := fun f => inr (blob_bytes (file_blob f));
  createImageBitmap := fun _ => inl "InvalidStateError";
  domAvailable := true;
  offscreenCanvasDefined := false;
  imageElement := fun _ => BitmapResolved {| bitmap_width := 640; bitmap_height := 480 |};
  convertToBlobDefined := fun kind => match kind with Offscreen => true | Dom => false end;
  convertToBlob := fun _ type _ => inr {| blob_bytes := []; blob_type := type |};
  toDataURL := fun _ type _ => inr (payloadOf type);
  noDocument := "ReferenceError: document is not defined"
|}.

(** A browser window without [createImageBitmap]: every call of it throws
    a ReferenceError. *)
Definition withoutBitmaps : Platform string := {|
  fileReader := fun b => inr (payloadOf (blob_type b));
  arrayBuffer := fun f => inr (blob_bytes (file_blob f));
  createImageBitmap := fun _ => inl "ReferenceError: createImageBitmap is not defined";
  domAvailable := true;
  offscreenCanvasDefined := false;
  imageElement := fun _ => BitmapThrows "ReferenceError: createImageBitmap is not defined";
  convertToBlobDefined := fun kind => match kind with Offscreen => true | Dom => false end;
  convertToBlob := fun _ type _ => inr {| blob_bytes := []; blob_type := type |};
  toDataURL := fun _ type _ => inr (payloadOf type);
  noDocument := "ReferenceError: document is not defined"
|}.

(** A browser window whose canvas elements have a [convertToBlob] of their
    own. *)
Definition extended : Platform string := {|
  fileReader := fun b => inr (payloadOf (blob_type b));
  arrayBuffer := fun f => inr (blob_bytes (file_blob f));
  createImageBitmap := fun _ => inr {| bitmap_width := 4000; bitmap_height := 2000 |};
  domAvailable := true;
  offscreenCanvasDefined := true;
  imageElement := fun _ => LoadFails "error event";
  convertToBlobDefined := fun _ => true;
  convertToBlob := fun _ type _ => inr {| blob_bytes := []; blob_type := type |};
  toDataURL := fun _ type _ => inr (payloadOf type);
  noDocument := "ReferenceError: document is not defined"
|}.

(** The canvas of the sample browser after a 4000 x 2000 picture was drawn
    for [image/jpeg]. *)
Definition jpegCanvas : Canvas := {|
  canvas_kind := Dom;
  canvas_width := 4000;
  canvas_height := 2000;
  canvas_ops :=
    [FillRect "#ffffff" 0 0 4000 2000;
     DrawImage {| bitmap_width := 4000; bitmap_height := 2000 |}
               0 0 4000 2000 0 0 4000 2000]
|}.

End Sample.

(** What is looked at in the log of a conversion. *)
Module Trace.

Import Convert.

(** The calls on object URLs. *)
Definition objectUrlCall (ev : Event) : bool :=
  match ev with
  | EvCreateObjectURL _ | EvRevokeObjectURL _ => true
  | _ => false
  end.

(** The calls of the fallback decode: the image element and the object URL
    it loads. *)
Definition imageCall (ev : Event) : bool :=
  match ev with
  | EvCreateObjectURL _ | EvLoadImage _ | EvRevokeObjectURL _ => true
  | _ => false
  end.

(** The kind of the canvas an event makes or hands to an encoder. *)
Definition canvasOf (ev : Event) : option CanvasKind :=
  match ev with
  | EvCreateCanvas kind _ _ => Some kind
  | EvConvertToBlob c _ _ | EvToDataURL c _ _ => Some (canvas_kind c)
  | _ => None
  end.

(** The calls that need an [OffscreenCanvas]. *)
Definition offscreenCall (ev : Event) : bool :=
  match ev with
  | EvCreateCanvas Offscreen _ _ | EvConvertToBlob _ _ _ => true
  | _ => false
  end.

(** The calls that need a document: the canvas element and its encoder, the
    image element and the object URL it loads. *)
Definition documentCall (ev : Event) : bool :=
  match ev with
  | EvCreateCanvas Dom _ _ | EvToDataURL _ _ _
  | EvCreateObjectURL _ | EvLoadImage _ | EvRevokeObjectURL _ => true
  | _ => false
  end.

(** The canvas, the type and the quality an event hands to the encoder,
    when the event is a call of the encoder. *)
Definition encoded (ev : Event) : option (Canvas * string * float) :=
  match ev with
  | EvConvertToBlob c type quality => Some (c, type, quality)
  | EvToDataURL c type quality => Some (c, type, quality)
  | _ => None
  end.

(** The geometry a conversion computes for a decoded bitmap: [computeResize]
    on the size of the bitmap, the two bounds of [options.resize] and its
    fit, [contain] when there is none. *)
Definition geometryOf (options : ConvertOptions) (bitmap : ImageBitmap) : Utils.Geometry :=
  Utils.computeResize (bitmap_width bitmap) (bitmap_height bitmap)
    (match resize options with Some r => maxWidth r | None => None end)
    (match resize options with Some r => maxHeight r | None => None end)
    (JS.nullish (match resize options with Some r => fit r | None => None end)
                Utils.contain).

End Trace.

(* ================================================================== *)
(** * The values of numbers *)
(* ================================================================== *)

(** The real numbers that binary64 values stand for, and what the
    specification of the format ([SpecFloat]) computes on them. *)
Module Binary64.

(** [2^e] *)
Definition pow2 (e : Z) : R := powerRZ 2 e.

(** The position of [q] between [m * 2^e] and [(m + 1) * 2^e]. *)
Definition located (q : R) (m e : Z) (l : location) : Prop :=
  match l with
  | loc_Exact => q = (IZR m * pow2 e)%R
  | loc_Inexact Lt => (IZR m * pow2 e < q < (IZR m + / 2) * pow2 e)%R
  | loc_Inexact Eq => q = ((IZR m + / 2) * pow2 e)%R
  | loc_Inexact Gt => ((IZR m + / 2) * pow2 e < q < (IZR m + 1) * pow2 e)%R
  end.

(** [r] is a multiple of [2^e] nearest to [q]. *)
Definition roundedAt (e : Z) (q r : R) : Prop :=
  exists n : Z, r = (IZR n * pow2 e)%R /\ (r - pow2 e / 2 <= q <= r + pow2 e / 2)%R.

(** A number that is [+0] or a positive finite binary64 value. *)
Definition SFrep (x : spec_float) (r : R) : Prop :=
  (x = S754_zero false /\ r = 0%R)
  \/ (exists m e, x = S754_finite false m e /\ r = (IZR (Zpos m) * pow2 e)%R).

(** [r] is the rounding to the format of the positive number [q]: the
    nearest multiple of the unit of the binade of [q]. *)
Definition Rounded (q r : R) : Prop :=
  exists D : Z, (pow2 (D - 1) <= q < pow2 D)%R /\ roundedAt (fexp prec emax D) q r.

(** The invariant of the shifts of a mantissa to the right: the record
    locates [q]. *)
Definition shr_inv (q : R) (e : Z) (mrs : shr_record) : Prop :=
  (0 <= shr_m mrs)%Z /\ located q (shr_m mrs) e (loc_of_shr_record mrs).

(** A number that is [+0] or positive and finite, and its value. *)
Definition Rep (x : float) (v : R) : Prop := SFrep (Prim2SF x) v.

(** [r] is the value of the result of an operation whose exact result is
    [q >= 0]: the exact result itself, or its rounding. *)
Definition Rnd (q r : R) : Prop := r = q \/ Rounded q r.

End Binary64.

(* ================================================================== *)
(** * Strings *)
(* ================================================================== *)

Module StringFacts.

Import JS.

Lemma len_nonneg (s : string) : 0 <= len s.
Proof. unfold len; lia. Qed.

Lemma len_String (a : ascii) (s : string) : len (String a s) = len s + 1.
Proof. unfold len; simpl String.length; lia. Qed.

Lemma length_drop (n : nat) (s : string) :
  String.length (drop n s) = (String.length s - n)%nat.
Proof.
  revert s; induction n as [|n IH]; intros [|a s]; simpl; auto with arith.
Qed.

Lemma take_all (n : nat) (s : string) :
  (String.length s <= n)%nat -> take n s = s.
Proof.
  revert s; induction n as [|n IH]; intros [|a s]; simpl; intros Hn;
    try reflexivity; try lia.
  f_equal; apply IH; lia.
Qed.

Lemma drop_all (n : nat) (s : string) :
  (String.length s <= n)%nat -> drop n s = "".
Proof.
  revert s; induction n as [|n IH]; intros [|a s]; simpl; intros Hn;
    try reflexivity; try lia.
  apply IH; lia.
Qed.

Lemma take_drop (n : nat) (s : string) : take n s ++ drop n s = s.
Proof.
  revert s; induction n as [|n IH]; intros [|a s]; simpl; try reflexivity.
  now rewrite IH.
Qed.

Lemma drop_app (p s : string) : drop (String.length p) (p ++ s) = s.
Proof. induction p as [|a p IH]; simpl; auto. Qed.

Lemma take_app (p s : string) : take (String.length p) (p ++ s) = p.
Proof. induction p as [|a p IH]; simpl; [destruct s|]; congruence. Qed.

Lemma app_assoc (p q r : string) : (p ++ q) ++ r = p ++ (q ++ r).
Proof. induction p as [|a p IH]; simpl; congruence. Qed.

Lemma length_app (p s : string) :
  String.length (p ++ s) = (String.length p + String.length s)%nat.
Proof. induction p as [|a p IH]; simpl; auto. Qed.

(** [slice] from an index inside the string to its end is [drop]. *)
Lemma sliceFrom_drop (s : string) (k : Z) :
  0 <= k -> sliceFrom s k = drop (Z.to_nat k) s.
Proof.
  intros Hk. unfold sliceFrom, slice, clampIndex.
  pose proof (len_nonneg s) as Hn.
  replace (len s <? 0) with false by (symmetry; apply Z.ltb_ge; lia).
  replace (k <? 0) with false by (symmetry; apply Z.ltb_ge; lia).
  rewrite Z.min_id.
  destruct (Z.le_gt_cases k (len s)) as [Hle|Hgt].
  - rewrite (Z.min_l k) by lia.
    apply take_all. rewrite length_drop. unfold len in *. lia.
  - rewrite (Z.min_r k) by lia.
    rewrite take_all by (rewrite length_drop; unfold len; lia).
    unfold len in *.
    rewrite !drop_all by lia. reflexivity.
Qed.

(** [slice] between two indices inside the string. *)
Lemma slice_take_drop (s : string) (i j : Z) :
  0 <= i <= j -> j <= len s ->
  slice s i j = take (Z.to_nat (j - i)) (drop (Z.to_nat i) s).
Proof.
  intros Hij Hj. unfold slice, clampIndex.
  replace (i <? 0) with false by (symmetry; apply Z.ltb_ge; lia).
  replace (j <? 0) with false by (symmetry; apply Z.ltb_ge; lia).
  rewrite (Z.min_l i), (Z.min_l j), Z.max_l by lia. reflexivity.
Qed.

Lemma indexOf_range (c : ascii) (s : string) :
  indexOf c s = -1 \/ 0 <= indexOf c s < len s.
Proof.
  induction s as [|a s IH]; simpl; [now left|].
  rewrite len_String. pose proof (len_nonneg s).
  destruct (Ascii.eqb a c); [right; lia|].
  destruct (Z.ltb_spec (indexOf c s) 0); [now left|right; lia].
Qed.

(** The index of the first occurrence, when the character does not occur
    before. *)
Lemma indexOf_app (c : ascii) (p s : string) :
  Stated.lacks c p = true ->
  indexOf c (p ++ String c s) = len p.
Proof.
  induction p as [|a p IH]; simpl; intros Hp.
  - now rewrite Ascii.eqb_refl.
  - apply andb_prop in Hp as [Ha Hp]. apply negb_true_iff in Ha.
    rewrite Ha, (IH Hp), len_String.
    pose proof (len_nonneg p).
    destruct (Z.ltb_spec (len p) 0); lia.
Qed.

Lemma indexOf_lacks (c : ascii) (s : string) :
  Stated.lacks c s = true -> indexOf c s = -1.
Proof.
  induction s as [|a s IH]; simpl; intros Hs; [reflexivity|].
  apply andb_prop in Hs as [Ha Hs]. apply negb_true_iff in Ha.
  now rewrite Ha, (IH Hs).
Qed.

Lemma afterFirstComma_lacks (s : string) :
  Stated.lacks "," s = true -> Stated.afterFirstComma s = None.
Proof.
  induction s as [|a s IH]; simpl; intros Hs; [reflexivity|].
  apply andb_prop in Hs as [Ha Hs]. apply negb_true_iff in Ha.
  now rewrite Ha, (IH Hs).
Qed.

Lemma afterFirstComma_app (p s : string) :
  Stated.lacks "," p = true ->
  Stated.afterFirstComma (p ++ String "," s) = Some s.
Proof.
  induction p as [|a p IH]; simpl; intros Hp; [reflexivity|].
  apply andb_prop in Hp as [Ha Hp]. apply negb_true_iff in Ha.
  now rewrite Ha, (IH Hp).
Qed.

Lemma afterFirstComma_none (s : string) :
  indexOf "," s = -1 -> Stated.afterFirstComma s = None.
Proof.
  induction s as [|a s IH]; simpl; [reflexivity|].
  destruct (Ascii.eqb a ","); [discriminate|].
  destruct (indexOf_range "," s) as [Hi|Hi].
  - intros _. now apply IH.
  - destruct (Z.ltb_spec (indexOf "," s) 0); lia.
Qed.

Lemma afterFirstComma_some (s : string) :
  0 <= indexOf "," s ->
  Stated.afterFirstComma s = Some (drop (Z.to_nat (indexOf "," s + 1)) s).
Proof.
  induction s as [|a s IH]; simpl indexOf; simpl Stated.afterFirstComma; [lia|].
  destruct (Ascii.eqb a ","); [reflexivity|].
  destruct (Z.ltb_spec (indexOf "," s) 0) as [Hlt|Hge]; [lia|].
  intros _. rewrite (IH Hge).
  replace (Z.to_nat (indexOf "," s + 1 + 1)) with (S (Z.to_nat (indexOf "," s + 1))) by lia.
  reflexivity.
Qed.

(** What [indexOf] and [slice] compute in [estimateBase64SizeBytes] is the
    text after the first comma. *)
Lemma payload_after_comma (s : string) :
  (if indexOf "," s >=? 0 then sliceFrom s (indexOf "," s + 1) else s)
  = match Stated.afterFirstComma s with Some rest => rest | None => s end.
Proof.
  destruct (indexOf_range "," s) as [Hi|Hi].
  - rewrite (afterFirstComma_none s Hi), Hi. reflexivity.
  - rewrite (afterFirstComma_some s) by lia.
    replace (indexOf "," s >=? 0) with true by (symmetry; apply Z.geb_le; lia).
    apply sliceFrom_drop. lia.
Qed.

Lemma drop_lastChar (s : string) (a : ascii) :
  s <> "" ->
  drop (String.length s - 1) s = String a "" <-> Stated.lastChar s = Some a.
Proof.
  induction s as [|b s IH]; [congruence|]. intros _.
  destruct s as [|b' s].
  - simpl. split; congruence.
  - change (Stated.lastChar (String b (String b' s))) with (Stated.lastChar (String b' s)).
    rewrite <- IH by congruence.
    simpl String.length. simpl drop at 1.
    replace (String.length s - 0)%nat with (String.length s) by lia.
    simpl. replace (String.length s - 0)%nat with (String.length s) by lia.
    reflexivity.
Qed.

Lemma endsWith_one (s : string) (a : ascii) :
  endsWith s (String a "") = true <-> Stated.lastChar s = Some a.
Proof.
  unfold endsWith. destruct s as [|b s].
  - simpl. split; congruence.
  - rewrite <- drop_lastChar by congruence.
    replace (String.length (String a "") <=? String.length (String b s))%nat with true
      by (symmetry; apply Nat.leb_le; simpl; lia).
    simpl andb. change (String.length (String a "")) with 1%nat.
    apply String.eqb_eq.
Qed.

Lemma length_dropLast (s : string) :
  String.length (Stated.dropLast s) = (String.length s - 1)%nat.
Proof.
  induction s as [|b s IH]; [reflexivity|].
  destruct s as [|b' s]; [reflexivity|].
  change (Stated.dropLast (String b (String b' s)))
    with (String b (Stated.dropLast (String b' s))).
  simpl String.length in *. lia.
Qed.

Lemma dropLast_lastChar (s : string) (a : ascii) :
  Stated.lastChar s = Some a -> s = Stated.dropLast s ++ String a "".
Proof.
  induction s as [|b s IH]; [discriminate|].
  destruct s as [|b' s].
  - simpl. congruence.
  - change (Stated.lastChar (String b (String b' s))) with (Stated.lastChar (String b' s)).
    change (Stated.dropLast (String b (String b' s)))
      with (String b (Stated.dropLast (String b' s))).
    intros H. simpl append. f_equal. now apply IH.
Qed.

Lemma lastChar_app (p q : string) :
  q <> "" -> Stated.lastChar (p ++ q) = Stated.lastChar q.
Proof.
  intros Hq. induction p as [|c p IH]; [reflexivity|].
  simpl append. destruct (p ++ q) as [|c' r] eqn:E.
  - destruct p; simpl in E; congruence.
  - exact IH.
Qed.

Lemma dropLast_app (p q : string) :
  q <> "" -> Stated.dropLast (p ++ q) = p ++ Stated.dropLast q.
Proof.
  intros Hq. induction p as [|c p IH]; [reflexivity|].
  simpl append. destruct (p ++ q) as [|c' r] eqn:E.
  - destruct p; simpl in E; congruence.
  - rewrite <- IH. reflexivity.
Qed.

Lemma endsWith_two (s : string) (a b : ascii) :
  endsWith s (String a (String b "")) = true
  <-> Stated.lastChar s = Some b /\ Stated.lastChar (Stated.dropLast s) = Some a.
Proof.
  split.
  - unfold endsWith. intros H. apply andb_prop in H as [Hl He].
    apply Nat.leb_le in Hl. apply String.eqb_eq in He.
    change (String.length (String a (String b ""))) with 2%nat in *.
    rewrite <- (take_drop (String.length s - 2) s), He.
    rewrite lastChar_app, dropLast_app by discriminate. simpl Stated.dropLast.
    rewrite lastChar_app by discriminate. auto.
  - intros [Hb Ha].
    apply dropLast_lastChar in Hb. apply dropLast_lastChar in Ha.
    rewrite Ha in Hb. rewrite Hb. unfold endsWith.
    generalize (Stated.dropLast (Stated.dropLast s)) as p. intros p.
    rewrite app_assoc. simpl append.
    rewrite length_app. change (String.length (String a (String b ""))) with 2%nat.
    replace (2 <=? String.length p + 2)%nat with true
      by (symmetry; apply Nat.leb_le; lia).
    replace (String.length p + 2 - 2)%nat with (String.length p) by lia.
    rewrite drop_app. apply String.eqb_refl.
Qed.

(** The padding [estimateBase64SizeBytes] subtracts is the number of
    trailing pad characters, two at most. *)
Lemma padding_count (s : string) :
  (if endsWith s "==" then 2 else if endsWith s "=" then 1 else 0)
  = Stated.paddingCount s.
Proof.
  unfold Stated.paddingCount.
  destruct (endsWith s "==") eqn:E2.
  - apply endsWith_two in E2 as [-> ->]. reflexivity.
  - destruct (endsWith s "=") eqn:E1.
    + apply endsWith_one in E1. rewrite E1.
      destruct (Stated.lastChar (Stated.dropLast s)) as [c|] eqn:E; [|reflexivity].
      destruct (Ascii.eqb_spec c "="%char) as [->|Hc].
      * assert (endsWith s "==" = true) by (apply endsWith_two; auto). congruence.
      * destruct c as [[] [] [] [] [] [] [] []]; try reflexivity; congruence.
    + destruct (Stated.lastChar s) as [c|] eqn:E; [|reflexivity].
      destruct (Ascii.eqb_spec c "="%char) as [->|Hc].
      * apply endsWith_one in E. congruence.
      * destruct c as [[] [] [] [] [] [] [] []]; try reflexivity; congruence.
Qed.

End StringFacts.

(* ================================================================== *)
(** * FormatResolver and SizeEstimator *)
(* ================================================================== *)

Module UtilsFacts.

Import Utils.

Lemma falsy_cases (t : option string) :
  JS.falsy t = true <-> t = None \/ t = Some "".
Proof.
  destruct t as [v|]; simpl.
  - rewrite String.eqb_eq. split; [intros ->; now right|intros [H|H]; congruence].
  - split; auto.
Qed.

Lemma isLit_eq (t : option string) (lit : string) :
  JS.isLit t lit = true <-> t = Some lit.
Proof.
  destruct t as [v|]; simpl; [|split; discriminate].
  rewrite String.eqb_eq. split; congruence.
Qed.

Lemma isLit_Some (v lit : string) : JS.isLit (Some v) lit = String.eqb v lit.
Proof. reflexivity. Qed.

(** C8, as the specification words its last case: an unrecognised target
    does not always give the source type back.  With an empty source type
    the generic type is returned. *)
Lemma normalizeTargetMime_unrecognized_not_source :
  ~ (forall (sourceMime target : string),
       Stated.recognizedTarget target = false ->
       normalizeTargetMime sourceMime (Some target) = sourceMime).
Proof.
  intros H. specialize (H "" "gif" eq_refl). discriminate H.
Qed.

(** C8 (amended): [normalizeTargetMime] is a total function of its two
    arguments; it returns the source type, or the generic octet-stream type
    when the source type is empty, for an absent target, for ['original'],
    for ['base64'] and for every unrecognised target, and the four fixed
    types for ['png'], ['jpeg'], ['webp'] and ['svg']. *)
Theorem normalizeTargetMime_cases (sourceMime : string) (target : option string) :
  let fallback := if String.eqb sourceMime "" then "application/octet-stream"
                  else sourceMime in
  (target = None \/ target = Some "original" \/ target = Some "base64" ->
     normalizeTargetMime sourceMime target = fallback)
  /\ (target = Some "png" -> normalizeTargetMime sourceMime target = "image/png")
  /\ (target = Some "jpeg" -> normalizeTargetMime sourceMime target = "image/jpeg")
  /\ (target = Some "webp" -> normalizeTargetMime sourceMime target = "image/webp")
  /\ (target = Some "svg" -> normalizeTargetMime sourceMime target = "image/svg+xml")
  /\ (forall t, target = Some t -> Stated.recognizedTarget t = false ->
        normalizeTargetMime sourceMime target = fallback).
Proof.
  intros fallback. repeat split.
  - intros [->|[->| ->]]; reflexivity.
  - intros ->; reflexivity.
  - intros ->; reflexivity.
  - intros ->; reflexivity.
  - intros ->; reflexivity.
  - intros t -> Ht. unfold Stated.recognizedTarget in Ht.
    repeat (apply orb_false_elim in Ht; destruct Ht as [Ht ?]).
    unfold normalizeTargetMime. rewrite !isLit_Some.
    repeat match goal with H : String.eqb t _ = false |- _ => rewrite H; clear H end.
    now destruct (JS.falsy (Some t)).
Qed.

Lemma normalizeTargetMime_cases_witness :
  normalizeTargetMime "image/gif" (Some "tiff") = "image/gif"
  /\ normalizeTargetMime "" (Some "tiff") = "application/octet-stream"
  /\ normalizeTargetMime "image/gif" None = "image/gif"
  /\ normalizeTargetMime "image/gif" (Some "webp") = "image/webp".
Proof.
  split; [|split; [|split]].
  - apply (normalizeTargetMime_cases "image/gif" (Some "tiff")) with (t := "tiff");
      reflexivity.
  - apply (normalizeTargetMime_cases "" (Some "tiff")) with (t := "tiff");
      reflexivity.
  - apply (normalizeTargetMime_cases "image/gif" None). now left.
  - apply (normalizeTargetMime_cases "image/gif" (Some "webp")). reflexivity.
Defined.

(** The estimate, in the words of the specification. *)
Lemma estimate_as_stated (s : string) :
  estimateBase64SizeBytes s = Stated.estimateBytes s.
Proof.
  unfold estimateBase64SizeBytes, Stated.estimateBytes.
  cbv zeta. rewrite StringFacts.payload_after_comma, StringFacts.padding_count.
  reflexivity.
Qed.

Lemma estimate_payload (header payload : string) :
  Stated.lacks "," header = true ->
  estimateBase64SizeBytes (header ++ String "," payload)
  = (JS.len payload * 3) / 4 - Stated.paddingCount payload.
Proof.
  intros Hh. rewrite estimate_as_stated. unfold Stated.estimateBytes.
  now rewrite StringFacts.afterFirstComma_app.
Qed.

Lemma estimate_bare (payload : string) :
  Stated.lacks "," payload = true ->
  estimateBase64SizeBytes payload
  = (JS.len payload * 3) / 4 - Stated.paddingCount payload.
Proof.
  intros Hh. rewrite estimate_as_stated. unfold Stated.estimateBytes.
  now rewrite StringFacts.afterFirstComma_lacks.
Qed.

(** C5: [estimateBase64SizeBytes] drops the text up to and including the
    first comma (nothing when there is no comma) and returns
    [floor (length * 3 / 4)] of the rest minus its padding count: 2 when the
    rest ends with two pad characters, 1 when it ends with one, 0 otherwise.
    A payload of 100 characters gives 75 without padding, 74 with one
    trailing pad and 73 with two. *)
Theorem estimateBase64SizeBytes_spec :
  (forall s, estimateBase64SizeBytes s = Stated.estimateBytes s)
  /\ (forall header payload, Stated.lacks "," header = true ->
        estimateBase64SizeBytes (header ++ String "," payload)
        = (JS.len payload * 3) / 4 - Stated.paddingCount payload)
  /\ (forall payload, Stated.lacks "," payload = true ->
        estimateBase64SizeBytes payload
        = (JS.len payload * 3) / 4 - Stated.paddingCount payload)
  /\ (forall payload,
        (JS.endsWith payload "==" = true -> Stated.paddingCount payload = 2)
        /\ (JS.endsWith payload "==" = false -> JS.endsWith payload "=" = true ->
              Stated.paddingCount payload = 1)
        /\ (JS.endsWith payload "=" = false -> Stated.paddingCount payload = 0))
  /\ (forall header payload, Stated.lacks "," header = true ->
        JS.len payload = 100 ->
        (JS.endsWith payload "=" = false ->
           estimateBase64SizeBytes (header ++ String "," payload) = 75)
        /\ (JS.endsWith payload "=" = true -> JS.endsWith payload "==" = false ->
              estimateBase64SizeBytes (header ++ String "," payload) = 74)
        /\ (JS.endsWith payload "==" = true ->
              estimateBase64SizeBytes (header ++ String "," payload) = 73)).
Proof.
  assert (Hpad : forall payload,
        (JS.endsWith payload "==" = true -> Stated.paddingCount payload = 2)
        /\ (JS.endsWith payload "==" = false -> JS.endsWith payload "=" = true ->
              Stated.paddingCount payload = 1)
        /\ (JS.endsWith payload "=" = false -> Stated.paddingCount payload = 0)).
  { intros payload. rewrite <- StringFacts.padding_count.
    repeat split.
    - now intros ->.
    - now intros -> ->.
    - intros H1. rewrite H1.
      destruct (JS.endsWith payload "==") eqn:H2; [|reflexivity].
      apply StringFacts.endsWith_two in H2 as [H2 _].
      apply StringFacts.endsWith_one in H2. congruence. }
  split; [exact estimate_as_stated|].
  split; [exact estimate_payload|].
  split; [exact estimate_bare|].
  split; [exact Hpad|].
  intros header payload Hh Hlen. rewrite (estimate_payload _ _ Hh), Hlen.
  destruct (Hpad payload) as (H2 & H1 & H0).
  change (100 * 3 / 4) with 75.
  repeat split.
  - intros E. rewrite (H0 E). reflexivity.
  - intros E1 E2. rewrite (H1 E2 E1). reflexivity.
  - intros E. rewrite (H2 E). reflexivity.
Qed.

Lemma estimateBase64SizeBytes_spec_witness :
  estimateBase64SizeBytes ("data:image/png;base64," ++ Sample.repeat "A" 100) = 75
  /\ estimateBase64SizeBytes ("data:image/png;base64," ++ Sample.repeat "A" 99 ++ "=") = 74
  /\ estimateBase64SizeBytes ("data:image/png;base64," ++ Sample.repeat "A" 98 ++ "==") = 73.
Proof.
  destruct estimateBase64SizeBytes_spec as (_ & _ & _ & _ & H).
  split; [|split].
  - apply (H "data:image/png;base64" (Sample.repeat "A" 100)); reflexivity.
  - apply (H "data:image/png;base64" (Sample.repeat "A" 99 ++ "=")); reflexivity.
  - apply (H "data:image/png;base64" (Sample.repeat "A" 98 ++ "==")); reflexivity.
Defined.

End UtilsFacts.

(* ================================================================== *)
(** * ConversionPipeline *)
(* ================================================================== *)

Module ConvertFacts.

Import Utils Convert.

Lemma extractMime_header (m rest : string) :
  m <> "" -> Stated.lacks ";" m = true ->
  extractMimeFromDataUrl ("data:" ++ m ++ String ";" rest) = m.
Proof.
  intros Hm Hl. unfold extractMimeFromDataUrl.
  assert (Hi : JS.indexOf ";" ("data:" ++ m ++ String ";" rest) = 5 + JS.len m).
  { rewrite <- StringFacts.app_assoc.
    rewrite StringFacts.indexOf_app by (simpl; exact Hl).
    unfold JS.len. rewrite StringFacts.length_app. simpl String.length. lia. }
  rewrite Hi. cbv zeta.
  assert (Hpos : 0 < JS.len m).
  { destruct m; [congruence|]. rewrite StringFacts.len_String.
    pose proof (StringFacts.len_nonneg m). lia. }
  replace (5 + JS.len m >? 5) with true by (symmetry; apply Z.gtb_lt; lia).
  change (JS.startsWith ("data:" ++ m ++ String ";" rest) "data:") with true.
  cbn [andb].
  rewrite StringFacts.slice_take_drop.
  - replace (Z.to_nat (5 + JS.len m - 5)) with (String.length m) by (unfold JS.len; lia).
    change (JS.drop (Z.to_nat 5) ("data:" ++ m ++ String ";" rest))
      with (m ++ String ";" rest).
    apply StringFacts.take_app.
  - lia.
  - unfold JS.len in *. rewrite !StringFacts.length_app. simpl String.length. lia.
Qed.

Lemma extractMime_no_semicolon (s : string) :
  Stated.lacks ";" s = true -> extractMimeFromDataUrl s = "application/octet-stream".
Proof.
  intros H. unfold extractMimeFromDataUrl.
  rewrite (StringFacts.indexOf_lacks _ _ H). cbv zeta.
  now rewrite andb_false_r.
Qed.

Lemma extractMime_no_scheme (s : string) :
  JS.startsWith s "data:" = false -> extractMimeFromDataUrl s = "application/octet-stream".
Proof. intros H. unfold extractMimeFromDataUrl. now rewrite H. Qed.

Lemma extractMime_empty_type (rest : string) :
  extractMimeFromDataUrl ("data:;" ++ rest) = "application/octet-stream".
Proof. reflexivity. Qed.

Lemma clampCanvasMime_cases (requested : string) :
  (requested = "image/jpeg" -> clampCanvasMime requested = "image/jpeg")
  /\ (requested = "image/webp" -> clampCanvasMime requested = "image/webp")
  /\ (requested <> "image/jpeg" -> requested <> "image/webp" ->
        clampCanvasMime requested = "image/png").
Proof.
  unfold clampCanvasMime. repeat split.
  - now intros ->.
  - now intros ->.
  - intros H1 H2. apply String.eqb_neq in H1, H2. now rewrite H1, H2.
Qed.

Lemma clampCanvasMime_range (requested : string) :
  clampCanvasMime requested = "image/jpeg"
  \/ clampCanvasMime requested = "image/webp"
  \/ clampCanvasMime requested = "image/png".
Proof.
  unfold clampCanvasMime.
  destruct (String.eqb_spec requested "image/jpeg") as [->|H1]; [now left|].
  destruct (String.eqb_spec requested "image/webp") as [->|H2]; [right; now left|].
  right; now right.
Qed.

Section Runs.

Context {Err : Type} (P : Platform Err).

(** ** The monad *)

Lemma events_bind {A B : Type} (m : M Err A) (k : A -> M Err B) :
  events (bind m k)
  = (events m ++ match outcome m with
                 | inr a => events (k a)
                 | inl _ => []
                 end)%list.
Proof.
  destruct m as [log [e|a]]; unfold events, outcome, bind; cbn [fst snd].
  - now rewrite app_nil_r.
  - now destruct (k a).
Qed.

Lemma outcome_bind {A B : Type} (m : M Err A) (k : A -> M Err B) :
  outcome (bind m k)
  = match outcome m with
    | inl e => inl e
    | inr a => outcome (k a)
    end.
Proof.
  destruct m as [log [e|a]]; unfold events, outcome, bind; cbn [fst snd].
  - reflexivity.
  - now destruct (k a).
Qed.

Lemma events_tryCatch {A : Type} (m : M Err A) (h : Err -> M Err A) :
  events (tryCatch m h)
  = (events m ++ match outcome m with
                 | inl (Thrown e) => events (h e)
                 | _ => []
                 end)%list.
Proof.
  destruct m as [log [[e|]|a]]; unfold events, outcome, tryCatch; cbn [fst snd].
  - now destruct (h e).
  - now rewrite app_nil_r.
  - now rewrite app_nil_r.
Qed.

Lemma outcome_tryCatch {A : Type} (m : M Err A) (h : Err -> M Err A) :
  outcome (tryCatch m h)
  = match outcome m with
    | inl (Thrown e) => outcome (h e)
    | inl Pending => inl Pending
    | inr a => inr a
    end.
Proof.
  destruct m as [log [[e|]|a]]; unfold events, outcome, tryCatch; cbn [fst snd].
  - now destruct (h e).
  - reflexivity.
  - reflexivity.
Qed.

Lemma run_eq {A : Type} (m : M Err A) : m = (events m, outcome m).
Proof. now destruct m. Qed.

(** A property of all the calls of a computation. *)
Lemma Forall_bind {A B : Type} (Q : Event -> Prop) (m : M Err A) (k : A -> M Err B) :
  Forall Q (events m) ->
  (forall a, outcome m = inr a -> Forall Q (events (k a))) ->
  Forall Q (events (bind m k)).
Proof.
  intros Hm Hk. rewrite events_bind. apply Forall_app. split; [exact Hm|].
  destruct (outcome m) as [e|a]; [constructor|now apply Hk].
Qed.

Lemma Forall_tryCatch {A : Type} (Q : Event -> Prop) (m : M Err A) (h : Err -> M Err A) :
  Forall Q (events m) ->
  (forall e, outcome m = inl (Thrown e) -> Forall Q (events (h e))) ->
  Forall Q (events (tryCatch m h)).
Proof.
  intros Hm Hh. rewrite events_tryCatch. apply Forall_app. split; [exact Hm|].
  destruct (outcome m) as [[e|]|a]; [now apply Hh|constructor|constructor].
Qed.

Lemma Forall_call {A : Type} (Q : Event -> Prop) (ev : Event) (answer : Err + A) :
  Q ev -> Forall Q (events (call ev answer)).
Proof. intros H. repeat constructor. exact H. Qed.

Lemma Forall_ret {A : Type} (Q : Event -> Prop) (a : A) :
  Forall Q (events (@ret Err A a)).
Proof. constructor. Qed.

Lemma Forall_throw {A : Type} (Q : Event -> Prop) (e : Err) :
  Forall Q (events (@throw Err A e)).
Proof. constructor. Qed.

Lemma Forall_pending {A : Type} (Q : Event -> Prop) :
  Forall Q (events (@pending Err A)).
Proof. constructor. Qed.

Lemma in_events_bind {A B : Type} (m : M Err A) (k : A -> M Err B) (ev : Event) :
  In ev (events (bind m k)) ->
  In ev (events m) \/ exists a, outcome m = inr a /\ In ev (events (k a)).
Proof.
  rewrite events_bind. intros H. apply in_app_or in H as [H|H]; [now left|].
  destruct (outcome m) as [e|a]; [destruct H|]. right. now exists a.
Qed.

Lemma in_events_tryCatch {A : Type} (m : M Err A) (h : Err -> M Err A) (ev : Event) :
  In ev (events (tryCatch m h)) ->
  In ev (events m) \/ exists e, outcome m = inl (Thrown e) /\ In ev (events (h e)).
Proof.
  rewrite events_tryCatch. intros H. apply in_app_or in H as [H|H]; [now left|].
  destruct (outcome m) as [[e|]|a]; [|destruct H|destruct H]. right. now exists e.
Qed.

(** What a call that answers a value, or an error, was answered. *)
Lemma outcome_call_inr {A : Type} (ev : Event) (answer : Err + A) (a : A) :
  outcome (call ev answer) = inr a -> answer = inr a.
Proof. destruct answer; cbn; congruence. Qed.

Lemma outcome_call_inl {A : Type} (ev : Event) (answer : Err + A) (e : Err) :
  outcome (call ev answer) = inl (Thrown e) -> answer = inl e.
Proof. destruct answer; cbn; congruence. Qed.

Lemma outcome_call_settled {A : Type} (ev : Event) (answer : Err + A) :
  outcome (call ev answer) <> inl Pending.
Proof. destruct answer; cbn; congruence. Qed.

(** A property of the value of a computation that succeeds. *)
Lemma outcome_bind_inr {A B : Type} (m : M Err A) (k : A -> M Err B) (b : B) :
  outcome (bind m k) = inr b ->
  exists a, outcome m = inr a /\ outcome (k a) = inr b.
Proof.
  rewrite outcome_bind. destruct (outcome m) as [e|a]; [discriminate|].
  intros H. now exists a.
Qed.

(** A computation that settles: it ends with a value or with an error. *)
Lemma settled_ret {A : Type} (a : A) : outcome (@ret Err A a) <> inl Pending.
Proof. discriminate. Qed.

Lemma settled_throw {A : Type} (e : Err) : outcome (@throw Err A e) <> inl Pending.
Proof. discriminate. Qed.

Lemma settled_bind {A B : Type} (m : M Err A) (k : A -> M Err B) :
  outcome m <> inl Pending ->
  (forall a, outcome m = inr a -> outcome (k a) <> inl Pending) ->
  outcome (bind m k) <> inl Pending.
Proof.
  intros Hm Hk. rewrite outcome_bind.
  destruct (outcome m) as [[e|]|a]; [discriminate|congruence|now apply Hk].
Qed.

(** ** The parts of the pipeline *)

(** All the calls of a part have a property when each kind of call has it. *)
Ltac calls :=
  repeat first
    [ apply Forall_ret
    | apply Forall_throw
    | apply Forall_pending
    | apply Forall_call
    | apply Forall_bind; [|intros ? _]
    | apply Forall_tryCatch; [|intros ? _]
    | match goal with
      | |- Forall _ (events (if ?b then _ else _)) => destruct b
      | |- Forall _ (events (match ?x with _ => _ end)) => destruct x
      end ].

Lemma passthrough_events (file : File) :
  events (passthrough P file) = [EvReadAsDataURL (file_blob file)].
Proof.
  unfold passthrough, readFileAsDataURL. rewrite events_bind.
  cbn. now destruct (fileReader P (file_blob file)).
Qed.

Lemma passthrough_outcome (file : File) :
  outcome (passthrough P file)
  = match fileReader P (file_blob file) with
    | inl e => inl (Thrown e)
    | inr url => inr {| dataUrl := url;
                        mime := extractMimeFromDataUrl url;
                        sizeBytes := estimateBase64SizeBytes url;
                        resultWidth := None; resultHeight := None;
                        fileName := file_name file |}
    end.
Proof.
  unfold passthrough, readFileAsDataURL. rewrite outcome_bind.
  cbn. now destruct (fileReader P (file_blob file)).
Qed.

(** A conversion leaves by a passthrough exit or runs the render path. *)
Lemma convert_paths (file : File) (options : ConvertOptions) :
  convertFileToBase64 P file options = passthrough P file
  \/ convertFileToBase64 P file options
     = render P file options (originalMimeOf file) (targetMimeOf file options).
Proof.
  unfold convertFileToBase64. cbv zeta.
  fold (originalMimeOf file). fold (targetMimeOf file options).
  repeat match goal with
         | |- context [if ?b then _ else _] => destruct b
         end; auto.
Qed.

(** The decode of the render path, with the fallback of its [catch]: what
    is called and how it ends, for each answer of the platform. *)
Lemma decode_run (blob : Blob) :
  tryCatch (blobToImageBitmap P blob) (decodeFallback P blob)
  = match createImageBitmap P blob with
    | inr bitmap => ([EvCreateImageBitmap blob], inr bitmap)
    | inl err =>
        if domAvailable P
        then match imageElement P blob with
             | LoadFails e | BitmapRejected e =>
                 ([EvCreateImageBitmap blob; EvCreateObjectURL blob; EvLoadImage blob;
                   EvRevokeObjectURL blob], inl (Thrown e))
             | BitmapThrows _ =>
                 ([EvCreateImageBitmap blob; EvCreateObjectURL blob; EvLoadImage blob],
                  inl Pending)
             | BitmapResolved bitmap =>
                 ([EvCreateImageBitmap blob; EvCreateObjectURL blob; EvLoadImage blob;
                   EvRevokeObjectURL blob], inr bitmap)
             end
        else ([EvCreateImageBitmap blob], inl (Thrown err))
    end.
Proof.
  unfold blobToImageBitmap, decodeFallback, isDomAvailable, tryCatch, call.
  destruct (createImageBitmap P blob) as [err|bitmap]; [|reflexivity].
  destruct (domAvailable P); [|reflexivity].
  cbn. now destruct (imageElement P blob).
Qed.

(** After the decode, every part of the render path settles. *)
Lemma createCanvas_settled (w h : float) : outcome (createCanvas P w h) <> inl Pending.
Proof.
  unfold createCanvas.
  destruct (offscreenCanvasDefined P && negb (isDomAvailable P)); [discriminate|].
  destruct (isDomAvailable P); discriminate.
Qed.

Lemma canvasToDataURL_settled (c : Canvas) (type : string) (q : float) :
  outcome (canvasToDataURL P c type q) <> inl Pending.
Proof.
  unfold canvasToDataURL, readFileAsDataURL.
  destruct (convertToBlobDefined P (canvas_kind c)).
  - apply settled_bind; [|intros b _]; apply outcome_call_settled.
  - apply outcome_call_settled.
Qed.

(** The render path hands the clamped type to the encoder. *)
Lemma render_encoder (file : File) (options : ConvertOptions)
    (originalMime targetMimeRequested : string) :
  Forall (fun ev => forall type, Stated.encoderType ev = Some type ->
                    type = clampCanvasMime targetMimeRequested)
         (events (render P file options originalMime targetMimeRequested)).
Proof.
  unfold render, canvasToDataURL, createCanvas, decodeFallback,
    readFileAsArrayBuffer, readFileAsDataURL, blobToImageBitmap.
  cbv zeta. calls; cbn; congruence.
Qed.

(** The only primary decode of the render path is that of the bytes of the
    file, after they were read. *)
Lemma render_decode (file : File) (options : ConvertOptions)
    (originalMime targetMimeRequested : string) (blob : Blob) :
  In (EvCreateImageBitmap blob)
     (events (render P file options originalMime targetMimeRequested)) ->
  exists bytes, arrayBuffer P file = inr bytes
                /\ blob = {| blob_bytes := bytes; blob_type := originalMime |}.
Proof.
  assert (Hno : forall l, Forall (fun ev => Stated.decodedBlob ev = None) l ->
                In (EvCreateImageBitmap blob) l -> False).
  { intros l Hl Hin. rewrite Forall_forall in Hl. specialize (Hl _ Hin). discriminate Hl. }
  unfold render. intros H.
  apply in_events_bind in H as [H|(bytes & Hb & H)].
  { destruct H as [H|[]]. discriminate H. }
  exists bytes. split; [exact (outcome_call_inr _ _ _ Hb)|].
  cbv zeta in H. apply in_events_bind in H as [H|(bitmap & _ & H)].
  - apply in_events_tryCatch in H as [H|(e & _ & H)].
    + destruct H as [H|[]]. congruence.
    + exfalso. revert H. apply Hno. unfold decodeFallback. calls; reflexivity.
  - exfalso. revert H. apply Hno.
    unfold canvasToDataURL, createCanvas, readFileAsDataURL. calls; reflexivity.
Qed.

(** The render path when the primary decode fails and there is no DOM. *)
Lemma render_decode_failure (file : File) (options : ConvertOptions)
    (originalMime targetMimeRequested : string) (bytes : list Byte.byte) (err : Err) :
  arrayBuffer P file = inr bytes ->
  createImageBitmap P {| blob_bytes := bytes; blob_type := originalMime |} = inl err ->
  domAvailable P = false ->
  render P file options originalMime targetMimeRequested
  = ([EvArrayBuffer file;
      EvCreateImageBitmap {| blob_bytes := bytes; blob_type := originalMime |}],
     inl (Thrown err)).
Proof.
  intros Hb Hd Hdom.
  unfold render, readFileAsArrayBuffer, blobToImageBitmap, decodeFallback, isDomAvailable.
  unfold bind at 1. unfold call at 1. rewrite Hb. cbv beta iota zeta.
  unfold bind at 1. unfold tryCatch, call at 1. rewrite Hd, Hdom. reflexivity.
Qed.

(** The mime of a rendered result is read from the payload, and the result
    carries the output dimensions. *)
Lemma render_result (file : File) (options : ConvertOptions)
    (originalMime targetMimeRequested : string) (r : ConvertResult) :
  outcome (render P file options originalMime targetMimeRequested) = inr r ->
  mime r = extractMimeFromDataUrl (dataUrl r)
  /\ resultWidth r <> None /\ resultHeight r <> None.
Proof.
  unfold render. cbv zeta. intros H.
  repeat (apply outcome_bind_inr in H as (? & _ & H)).
  injection H as <-. cbn. repeat split; congruence.
Qed.

(** The first call of the render path reads the bytes of the file. *)
Lemma render_first_event (file : File) (options : ConvertOptions)
    (originalMime targetMimeRequested : string) :
  hd_error (events (render P file options originalMime targetMimeRequested))
  = Some (EvArrayBuffer file).
Proof.
  unfold render, readFileAsArrayBuffer. now rewrite events_bind.
Qed.

(** A canvas is made by the call of [createCanvas], which then returns
    it. *)
Lemma createCanvas_called (w h : float) (ev : Event) :
  In ev (events (createCanvas P w h)) ->
  exists c, outcome (createCanvas P w h) = inr c.
Proof.
  unfold createCanvas.
  destruct (offscreenCanvasDefined P && negb (isDomAvailable P));
    [eexists; reflexivity|].
  destruct (isDomAvailable P); [eexists; reflexivity|]. intros [].
Qed.

Lemma createCanvas_event (w h : float) (c : Canvas) :
  outcome (createCanvas P w h) = inr c ->
  events (createCanvas P w h) = [EvCreateCanvas (canvas_kind c) w h].
Proof.
  unfold createCanvas.
  destruct (offscreenCanvasDefined P && negb (isDomAvailable P)).
  - cbn. intros [= <-]. reflexivity.
  - destruct (isDomAvailable P); cbn; [|discriminate].
    intros [= <-]. reflexivity.
Qed.

(** The first call of [canvasToDataURL] is a call of an encoder of the
    canvas, with the type and the quality it was given. *)
Lemma canvasToDataURL_first (c : Canvas) (type : string) (q : float) :
  exists rest,
    events (canvasToDataURL P c type q)
    = (if convertToBlobDefined P (canvas_kind c)
       then EvConvertToBlob c type q
       else EvToDataURL c type q) :: rest.
Proof.
  unfold canvasToDataURL. destruct (convertToBlobDefined P (canvas_kind c)).
  - rewrite events_bind. cbn [call events fst app]. eexists. reflexivity.
  - eexists. reflexivity.
Qed.

(** Once the render path has made its canvas it calls an encoder, with the
    clamped type. *)
Lemma render_encodes (file : File) (options : ConvertOptions)
    (originalMime targetMimeRequested : string) (k : CanvasKind) (w h : float) :
  In (EvCreateCanvas k w h)
     (events (render P file options originalMime targetMimeRequested)) ->
  exists c q,
    In (EvConvertToBlob c (clampCanvasMime targetMimeRequested) q)
       (events (render P file options originalMime targetMimeRequested))
    \/ In (EvToDataURL c (clampCanvasMime targetMimeRequested) q)
          (events (render P file options originalMime targetMimeRequested)).
Proof.
  assert (Hno : forall l,
             Forall (fun ev => match ev with
                               | EvCreateCanvas _ _ _ => False
                               | _ => True
                               end) l ->
             In (EvCreateCanvas k w h) l -> False).
  { intros l Hl Hin. rewrite Forall_forall in Hl. exact (Hl _ Hin). }
  unfold render. cbv zeta. intros H.
  apply in_events_bind in H as [H|(bytes & Hb & H)].
  { destruct H as [H|[]]. discriminate H. }
  rewrite events_bind, Hb.
  apply in_events_bind in H as [H|(bitmap & Hbm & H)].
  { exfalso. revert H. apply Hno. unfold blobToImageBitmap, decodeFallback.
    calls; exact I. }
  rewrite events_bind, Hbm.
  assert (Hc : exists c0, outcome (createCanvas P
                 (width (computeResize (bitmap_width bitmap) (bitmap_height bitmap)
                    (match resize options with Some r => maxWidth r | None => None end)
                    (match resize options with Some r => maxHeight r | None => None end)
                    (JS.nullish (match resize options with Some r => fit r | None => None end)
                                contain)))
                 (height (computeResize (bitmap_width bitmap) (bitmap_height bitmap)
                    (match resize options with Some r => maxWidth r | None => None end)
                    (match resize options with Some r => maxHeight r | None => None end)
                    (JS.nullish (match resize options with Some r => fit r | None => None end)
                                contain)))) = inr c0).
  { apply in_events_bind in H as [H|(c0 & Hc0 & _)];
      [eapply createCanvas_called; exact H|now exists c0]. }
  destruct Hc as (c0 & Hc0). clear H.
  rewrite events_bind, Hc0, events_bind.
  destruct (String.eqb (clampCanvasMime targetMimeRequested) "image/jpeg");
    cbn [call ret events outcome fst snd];
    rewrite events_bind; cbn [call events outcome fst snd];
    rewrite events_bind;
    match goal with
    | |- context [canvasToDataURL P ?c ?t ?q] =>
        destruct (canvasToDataURL_first c t q) as (rest & ->); exists c, q;
        destruct (convertToBlobDefined P (canvas_kind c)); [left|right]
    end;
    rewrite !in_app_iff; cbn [In]; auto 12.
Qed.

(** A rendered result comes from a conversion that made its canvas. *)
Lemma render_result_canvas (file : File) (options : ConvertOptions)
    (originalMime targetMimeRequested : string) (r : ConvertResult) :
  outcome (render P file options originalMime targetMimeRequested) = inr r ->
  exists k w h,
    In (EvCreateCanvas k w h)
       (events (render P file options originalMime targetMimeRequested)).
Proof.
  unfold render. cbv zeta. intros H.
  apply outcome_bind_inr in H as (bytes & Hb & H). rewrite events_bind, Hb.
  apply outcome_bind_inr in H as (bitmap & Hbm & H). rewrite events_bind, Hbm.
  apply outcome_bind_inr in H as (c0 & Hc & _).
  rewrite events_bind, (createCanvas_event _ _ _ Hc).
  do 3 eexists. rewrite !in_app_iff. right; right; left. left. reflexivity.
Qed.

(** ** The exits of the pipeline *)

(** C6: a file whose declared type is SVG, with the target unset or one of
    ['svg'], ['base64'], ['original'], leaves by the first exit.  The only
    call is the read of the file as a self-describing payload, and the
    payload that was read is returned as it is: nothing is decoded, drawn
    or encoded. *)
Theorem svg_passthrough (file : File) (options : ConvertOptions) :
  file_type file = "image/svg+xml" \/ file_type file = "image/svg" ->
  targetFormat options = None \/ targetFormat options = Some "svg"
  \/ targetFormat options = Some "base64" \/ targetFormat options = Some "original" ->
  events (convertFileToBase64 P file options) = [EvReadAsDataURL (file_blob file)]
  /\ outcome (convertFileToBase64 P file options)
     = match fileReader P (file_blob file) with
       | inl e => inl (Thrown e)
       | inr payload => inr {| dataUrl := payload;
                               mime := extractMimeFromDataUrl payload;
                               sizeBytes := estimateBase64SizeBytes payload;
                               resultWidth := None; resultHeight := None;
                               fileName := file_name file |}
       end.
Proof.
  intros Hsvg Htf.
  assert (H : convertFileToBase64 P file options = passthrough P file).
  { unfold convertFileToBase64. cbv zeta.
    destruct Hsvg as [-> | ->];
      destruct Htf as [-> | [-> | [-> | ->]]]; reflexivity. }
  rewrite H. split; [apply passthrough_events|apply passthrough_outcome].
Qed.

(** C1 (amended): with the target and the resize unset, a file whose
    declared type is [image/jpeg] runs the render path, because the resolved
    target [image/jpeg] asks for the canvas: its bytes are read first, the
    type handed to the encoder is [image/jpeg], and a result carries the
    output width and height.  The second exit is taken by the files whose
    declared type starts with [image/] and is not [image/jpeg]. *)
Theorem unset_target_paths (file : File) (options : ConvertOptions) :
  targetFormat options = None ->
  resize options = None ->
  (file_type file = "image/jpeg" ->
     convertFileToBase64 P file options
     = render P file options "image/jpeg" "image/jpeg"
     /\ hd_error (events (convertFileToBase64 P file options)) = Some (EvArrayBuffer file)
     /\ Forall (fun ev => forall type, Stated.encoderType ev = Some type ->
                          type = "image/jpeg")
               (events (convertFileToBase64 P file options))
     /\ (forall r, outcome (convertFileToBase64 P file options) = inr r ->
          resultWidth r <> None /\ resultHeight r <> None))
  /\ (JS.startsWith (file_type file) "image/" = true ->
      file_type file <> "image/jpeg" ->
      convertFileToBase64 P file options = passthrough P file).
Proof.
  intros Htf Hrs. split.
  - intros Hty.
    assert (H : convertFileToBase64 P file options
                = render P file options "image/jpeg" "image/jpeg").
    { unfold convertFileToBase64. rewrite Htf, Hrs, Hty. reflexivity. }
    rewrite H. split; [reflexivity|]. split; [apply render_first_event|].
    split; [apply (render_encoder file options "image/jpeg" "image/jpeg")|].
    intros r Hr. now apply render_result in Hr.
  - intros Himg Hne. unfold convertFileToBase64. cbv zeta. rewrite Htf, Hrs.
    assert (Hom : JS.orElse (file_type file) "application/octet-stream" = file_type file).
    { unfold JS.orElse. destruct (file_type file); [discriminate Himg|reflexivity]. }
    rewrite Hom, Himg.
    destruct (isSvgMime (Some (file_type file))); [reflexivity|].
    cbn. unfold normalizeTargetMime. cbn. rewrite Hom.
    apply String.eqb_neq in Hne. now rewrite Hne.
Qed.

(** C7: the type handed to the encoder is the clamped resolved target:
    the resolved target when it is [image/jpeg] or [image/webp], and
    [image/png] for every other resolved target.  Every call of an encoder
    in a conversion has this type; and an encoder is called with this type
    in every conversion that makes its canvas, as every conversion whose
    result carries the output dimensions has done. *)
Theorem encoder_type_clamped (file : File) (options : ConvertOptions) :
  Forall (fun ev => forall type, Stated.encoderType ev = Some type ->
            type = clampCanvasMime (targetMimeOf file options)
            /\ (targetMimeOf file options = "image/jpeg" -> type = "image/jpeg")
            /\ (targetMimeOf file options = "image/webp" -> type = "image/webp")
            /\ (targetMimeOf file options <> "image/jpeg" ->
                targetMimeOf file options <> "image/webp" -> type = "image/png"))
         (events (convertFileToBase64 P file options))
  /\ (forall k w h,
        In (EvCreateCanvas k w h) (events (convertFileToBase64 P file options)) ->
        exists c q,
          In (EvConvertToBlob c (clampCanvasMime (targetMimeOf file options)) q)
             (events (convertFileToBase64 P file options))
          \/ In (EvToDataURL c (clampCanvasMime (targetMimeOf file options)) q)
                (events (convertFileToBase64 P file options)))
  /\ (forall r,
        outcome (convertFileToBase64 P file options) = inr r ->
        resultWidth r <> None ->
        exists c q,
          In (EvConvertToBlob c (clampCanvasMime (targetMimeOf file options)) q)
             (events (convertFileToBase64 P file options))
          \/ In (EvToDataURL c (clampCanvasMime (targetMimeOf file options)) q)
                (events (convertFileToBase64 P file options))).
Proof.
  assert (Hc : forall type, type = clampCanvasMime (targetMimeOf file options) ->
            type = clampCanvasMime (targetMimeOf file options)
            /\ (targetMimeOf file options = "image/jpeg" -> type = "image/jpeg")
            /\ (targetMimeOf file options = "image/webp" -> type = "image/webp")
            /\ (targetMimeOf file options <> "image/jpeg" ->
                targetMimeOf file options <> "image/webp" -> type = "image/png")).
  { intros type ->. split; [reflexivity|].
    apply clampCanvasMime_cases. }
  destruct (convert_paths file options) as [-> | ->].
  - rewrite passthrough_events. split; [|split].
    + constructor; [|constructor].
      intros type Hty. discriminate Hty.
    + intros k w h [H|[]]. discriminate H.
    + intros r Hr Hw. exfalso. apply Hw.
      rewrite passthrough_outcome in Hr.
      destruct (fileReader P (file_blob file)); [discriminate Hr|].
      now injection Hr as <-.
  - split; [|split].
    + eapply Forall_impl; [|apply render_encoder].
      cbv beta. intros ev H type Hty. apply Hc. now apply H.
    + intros k w h. apply render_encodes.
    + intros r Hr _. apply render_result_canvas in Hr as (k & w & h & Hr).
      revert Hr. apply render_encodes.
Qed.

(** C9: when the primary decode of a conversion is called, fails, and
    there is no DOM, the conversion fails with the error of that decode,
    and the decode is its last call: nothing is tried after it and no
    result is produced. *)
Theorem decode_error_propagates (file : File) (options : ConvertOptions)
    (blob : Blob) (err : Err) :
  In (EvCreateImageBitmap blob) (events (convertFileToBase64 P file options)) ->
  createImageBitmap P blob = inl err ->
  domAvailable P = false ->
  outcome (convertFileToBase64 P file options) = inl (Thrown err)
  /\ events (convertFileToBase64 P file options)
     = [EvArrayBuffer file; EvCreateImageBitmap blob].
Proof.
  intros Hin Hd Hdom.
  destruct (convert_paths file options) as [H|H]; rewrite H in *.
  - rewrite passthrough_events in Hin. destruct Hin as [Hin|[]]. discriminate Hin.
  - apply render_decode in Hin as (bytes & Hb & ->).
    rewrite (render_decode_failure file options _ _ bytes err Hb Hd Hdom).
    split; reflexivity.
Qed.

(** C10: the mime of every result is the media type read from the header
    of the payload of that result: the text between [data:] and the first
    semicolon, and the generic octet-stream type when the payload has no
    such header (no [data:] scheme, no semicolon, or nothing between the
    two). *)
Theorem result_mime_from_payload (file : File) (options : ConvertOptions) :
  (forall r, outcome (convertFileToBase64 P file options) = inr r ->
             mime r = extractMimeFromDataUrl (dataUrl r))
  /\ (forall type rest, type <> "" -> Stated.lacks ";" type = true ->
        extractMimeFromDataUrl ("data:" ++ type ++ String ";" rest) = type)
  /\ (forall payload, JS.startsWith payload "data:" = false ->
        extractMimeFromDataUrl payload = "application/octet-stream")
  /\ (forall payload, Stated.lacks ";" payload = true ->
        extractMimeFromDataUrl payload = "application/octet-stream")
  /\ (forall rest, extractMimeFromDataUrl ("data:;" ++ rest) = "application/octet-stream").
Proof.
  split; [|split; [|split; [|split]]].
  - intros r Hr. destruct (convert_paths file options) as [H|H]; rewrite H in Hr.
    + rewrite passthrough_outcome in Hr.
      destruct (fileReader P (file_blob file)); [discriminate Hr|].
      now injection Hr as <-.
    + now apply render_result in Hr.
  - exact extractMime_header.
  - exact extractMime_no_scheme.
  - exact extractMime_no_semicolon.
  - exact extractMime_empty_type.
Qed.

End Runs.

(** C1, as the specification words it: a JPEG file with no target and no
    resize is not passed through.  In the sample browser its bytes are
    decoded, drawn and encoded again, and the result carries the width and
    the height of the canvas. *)
Lemma jpeg_is_rendered :
  file_type (Sample.fileOf "image/jpeg") = "image/jpeg"
  /\ targetFormat noOptions = None
  /\ resize noOptions = None
  /\ convertFileToBase64 Sample.browser (Sample.fileOf "image/jpeg") noOptions
     <> passthrough Sample.browser (Sample.fileOf "image/jpeg")
  /\ existsb Stated.decodesOrRenders
       (events (convertFileToBase64 Sample.browser (Sample.fileOf "image/jpeg") noOptions))
     = true
  /\ exists r,
       outcome (convertFileToBase64 Sample.browser (Sample.fileOf "image/jpeg") noOptions)
       = inr r
       /\ resultWidth r = Some 4000%float /\ resultHeight r = Some 2000%float.
Proof.
  repeat split; try reflexivity.
  - intros H. apply (f_equal events) in H. vm_compute in H. discriminate H.
  - eexists. split; [vm_compute; reflexivity|]. split; reflexivity.
Qed.

Lemma unset_target_paths_witness :
  convertFileToBase64 Sample.browser (Sample.fileOf "image/jpeg") noOptions
  = render Sample.browser (Sample.fileOf "image/jpeg") noOptions "image/jpeg" "image/jpeg"
  /\ convertFileToBase64 Sample.browser (Sample.fileOf "image/png") noOptions
     = passthrough Sample.browser (Sample.fileOf "image/png").
Proof.
  split.
  - apply (unset_target_paths Sample.browser (Sample.fileOf "image/jpeg") noOptions);
      reflexivity.
  - apply (unset_target_paths Sample.browser (Sample.fileOf "image/png") noOptions);
      try reflexivity. discriminate.
Defined.

Lemma svg_passthrough_witness :
  events (convertFileToBase64 Sample.browser (Sample.fileOf "image/svg+xml") noOptions)
  = [EvReadAsDataURL (file_blob (Sample.fileOf "image/svg+xml"))].
Proof.
  apply (svg_passthrough Sample.browser (Sample.fileOf "image/svg+xml") noOptions).
  - now left.
  - now left.
Defined.

Lemma encoder_type_clamped_witness :
  Forall (fun ev => forall type, Stated.encoderType ev = Some type -> type = "image/png")
    (events (convertFileToBase64 Sample.browser (Sample.fileOf "image/gif")
               {| targetFormat := Some "svg"; quality := None; resize := None;
                  background := None |}))
  /\ exists c q,
       In (EvConvertToBlob c "image/png" q)
          (events (convertFileToBase64 Sample.browser (Sample.fileOf "image/gif")
                     {| targetFormat := Some "svg"; quality := None; resize := None;
                        background := None |}))
       \/ In (EvToDataURL c "image/png" q)
             (events (convertFileToBase64 Sample.browser (Sample.fileOf "image/gif")
                        {| targetFormat := Some "svg"; quality := None; resize := None;
                           background := None |})).
Proof.
  destruct (encoder_type_clamped Sample.browser (Sample.fileOf "image/gif")
              {| targetFormat := Some "svg"; quality := None; resize := None;
                 background := None |}) as (Hall & Hsome & _).
  split.
  - eapply Forall_impl; [|exact Hall].
    cbv beta. intros ev H type Hty. apply (H type Hty); discriminate.
  - apply (Hsome Dom 4000%float 2000%float).
    vm_compute. right; right; left. reflexivity.
Defined.

Lemma decode_error_propagates_witness :
  outcome (convertFileToBase64 Sample.worker (Sample.fileOf "image/jpeg") noOptions)
  = inl (Thrown "InvalidStateError").
Proof.
  apply (decode_error_propagates Sample.worker (Sample.fileOf "image/jpeg") noOptions
           (file_blob (Sample.fileOf "image/jpeg")) "InvalidStateError").
  - right. left. reflexivity.
  - reflexivity.
  - reflexivity.
Defined.

Lemma result_mime_from_payload_witness :
  extractMimeFromDataUrl "data:image/webp;base64,QUJD" = "image/webp".
Proof.
  apply (result_mime_from_payload Sample.browser (Sample.fileOf "image/png") noOptions
         : _ /\ _) with (type := "image/webp") (rest := "base64,QUJD").
  - discriminate.
  - reflexivity.
Defined.

End ConvertFacts.

(* ================================================================== *)
(** * Arithmetic of binary64 numbers *)
(* ================================================================== *)

Module FloatFacts.

Import Binary64.

Local Open Scope R_scope.

(** The operations on integers of the specification of the format are
    those of the library of integers. *)
Ltac stdZ :=
  change IntDef.Z.eqb with Z.eqb in *;
  change IntDef.Z.leb with Z.leb in *;
  change IntDef.Z.even with Z.even in *;
  change IntDef.Z.compare with Z.compare in *;
  change IntDef.Z.mul with Z.mul in *;
  change IntDef.Z.add with Z.add in *;
  change IntDef.Z.sub with Z.sub in *;
  change IntDef.Z.opp with Z.opp in *;
  change IntDef.Z.min with Z.min in *;
  change IntDef.Z.max with Z.max in *;
  change IntDef.Z.shiftl with Z.shiftl in *;
  change IntDef.Z.div_eucl with Z.div_eucl in *;
  change PosDef.Pos.mul with Pos.mul in *;
  change @PosDef.Pos.iter with @Pos.iter in *;
  change PosDef.Pos.succ with Pos.succ in *.

Lemma pow2_pos (e : Z) : 0 < pow2 e.
Proof. apply powerRZ_lt. lra. Qed.

Lemma pow2_add (a b : Z) : pow2 (a + b) = pow2 a * pow2 b.
Proof. apply powerRZ_add. lra. Qed.

Lemma pow2_succ (e : Z) : pow2 (e + 1) = 2 * pow2 e.
Proof. rewrite pow2_add. unfold pow2 at 2. simpl. lra. Qed.

Lemma pow2_0 : pow2 0 = 1.
Proof. reflexivity. Qed.

Lemma pow2_le (a b : Z) : (a <= b)%Z -> pow2 a <= pow2 b.
Proof.
  intros H. replace b with (a + (b - a))%Z by lia. rewrite pow2_add.
  assert (1 <= pow2 (b - a)).
  { destruct (b - a)%Z eqn:E; try lia.
    - rewrite pow2_0. lra.
    - unfold pow2. simpl. apply pow_R1_Rle. lra. }
  pose proof (pow2_pos a). nra.
Qed.

Lemma pow2_lt (a b : Z) : (a < b)%Z -> pow2 a < pow2 b.
Proof.
  intros H. assert (pow2 (a + 1) <= pow2 b) by (apply pow2_le; lia).
  rewrite pow2_succ in H0. pose proof (pow2_pos a). lra.
Qed.

Lemma pow2_lt_inv (a b : Z) : pow2 a < pow2 b -> (a < b)%Z.
Proof.
  intros H. destruct (Z.lt_ge_cases a b) as [|Hge]; [assumption|].
  apply pow2_le in Hge. lra.
Qed.

Lemma pow2_IZR (k : Z) : (0 <= k)%Z -> IZR (2 ^ k) = pow2 k.
Proof.
  intros Hk. pattern k. apply natlike_ind; [reflexivity| |exact Hk].
  intros x Hx IH. rewrite Z.pow_succ_r by exact Hx.
  rewrite mult_IZR, IH. unfold Z.succ. rewrite pow2_succ. reflexivity.
Qed.

Lemma digits_bounds (p : positive) :
  (2 ^ (Zpos (digits2_pos p) - 1) <= Zpos p < 2 ^ Zpos (digits2_pos p))%Z.
Proof.
  induction p as [p IH|p IH|]; simpl digits2_pos.
  - rewrite Pos2Z.inj_succ. replace (Z.succ (Zpos (digits2_pos p)) - 1)%Z
      with (Z.succ (Zpos (digits2_pos p) - 1)) by lia.
    rewrite !Z.pow_succ_r by lia. lia.
  - rewrite Pos2Z.inj_succ. replace (Z.succ (Zpos (digits2_pos p)) - 1)%Z
      with (Z.succ (Zpos (digits2_pos p) - 1)) by lia.
    rewrite !Z.pow_succ_r by lia. lia.
  - simpl. lia.
Qed.

Lemma digits_bounds_R (p : positive) (e : Z) :
  pow2 (Zpos (digits2_pos p) + e - 1) <= IZR (Zpos p) * pow2 e
  /\ IZR (Zpos p) * pow2 e + pow2 e <= pow2 (Zpos (digits2_pos p) + e).
Proof.
  destruct (digits_bounds p) as [Hl Hu].
  assert (Hu' : (Zpos p + 1 <= 2 ^ Zpos (digits2_pos p))%Z) by lia.
  apply IZR_le in Hl, Hu'. rewrite plus_IZR in Hu'.
  rewrite pow2_IZR in Hl, Hu' by lia.
  replace (Zpos (digits2_pos p) + e - 1)%Z with ((Zpos (digits2_pos p) - 1) + e)%Z by lia.
  rewrite !pow2_add. pose proof (pow2_pos e). split; nra.
Qed.

(** ** Shifting a mantissa to the right *)

Lemma shr_1_inv (q : R) (e : Z) (mrs : shr_record) :
  shr_inv q e mrs -> shr_inv q (e + 1) (shr_1 mrs).
Proof.
  destruct mrs as [m r s]. unfold shr_inv. cbn [shr_m]. intros [Hm Hl].
  pose proof (pow2_pos e) as He.
  destruct m as [|[p|p|]|p]; [| | | |lia].
  - destruct r, s; cbn [shr_1 shr_m loc_of_shr_record located orb] in *;
      rewrite pow2_succ; (split; [lia|lra]).
  - assert (H3 : IZR (Zpos p~1) = 2 * IZR (Zpos p) + 1)
      by now rewrite Pos2Z.inj_xI, plus_IZR, mult_IZR.
    destruct r, s; cbn [shr_1 shr_m loc_of_shr_record located orb] in *;
      rewrite H3 in Hl; rewrite pow2_succ; (split; [lia|lra]).
  - assert (H2 : IZR (Zpos p~0) = 2 * IZR (Zpos p))
      by now rewrite Pos2Z.inj_xO, mult_IZR.
    destruct r, s; cbn [shr_1 shr_m loc_of_shr_record located orb] in *;
      rewrite H2 in Hl; rewrite pow2_succ; (split; [lia|lra]).
  - destruct r, s; cbn [shr_1 shr_m loc_of_shr_record located orb] in *;
      rewrite pow2_succ; (split; [lia|lra]).
Qed.

Lemma iter_shr_1_inv (q : R) (p : positive) :
  forall (e : Z) (mrs : shr_record),
    shr_inv q e mrs -> shr_inv q (e + Zpos p) (SpecFloat.iter_pos shr_1 p mrs).
Proof.
  induction p as [p IH|p IH|]; intros e mrs H; simpl SpecFloat.iter_pos.
  - replace (e + Zpos p~1)%Z with (e + 1 + Zpos p + Zpos p)%Z by lia.
    apply IH, IH, shr_1_inv, H.
  - replace (e + Zpos p~0)%Z with (e + Zpos p + Zpos p)%Z by lia.
    apply IH, IH, H.
  - apply shr_1_inv, H.
Qed.

Lemma loc_of_record_of_loc (m : Z) (l : location) :
  loc_of_shr_record (shr_record_of_loc m l) = l.
Proof. destruct l as [|[]]; reflexivity. Qed.

Lemma shr_m_record_of_loc (m : Z) (l : location) :
  shr_m (shr_record_of_loc m l) = m.
Proof. destruct l as [|[]]; reflexivity. Qed.

(** [shr] by [k >= 0] positions. *)
Lemma shr_inv_shift (q : R) (m e k : Z) (l : location) :
  (0 <= m)%Z -> (0 <= k)%Z -> located q m e l ->
  let '(mrs, e') := shr (shr_record_of_loc m l) e k in
  e' = (e + k)%Z /\ shr_inv q e' mrs.
Proof.
  intros Hm Hk Hl.
  assert (H0 : shr_inv q e (shr_record_of_loc m l)).
  { unfold shr_inv. now rewrite shr_m_record_of_loc, loc_of_record_of_loc. }
  destruct k as [|p|p]; [| |lia]; unfold shr.
  - split; [lia|]. exact H0.
  - split; [reflexivity|]. now apply iter_shr_1_inv.
Qed.


Lemma fexp_eq (e : Z) : fexp prec emax e = Z.max (e - 53) (-1074).
Proof. reflexivity. Qed.

Lemma located_bounds (q : R) (m e : Z) (l : location) :
  located q m e l -> IZR m * pow2 e <= q < (IZR m + 1) * pow2 e.
Proof.
  pose proof (pow2_pos e). destruct l as [|[]]; simpl; intros Hl; lra.
Qed.

Lemma digits_le (p : positive) (k : Z) :
  (0 <= k)%Z -> (Zpos p < 2 ^ k)%Z -> (Zpos (digits2_pos p) <= k)%Z.
Proof.
  intros Hk Hp. destruct (digits_bounds p) as [Hl _].
  assert (H : (2 ^ (Zpos (digits2_pos p) - 1) < 2 ^ k)%Z) by lia.
  apply Z.pow_lt_mono_r_iff in H; lia.
Qed.

(** The nearest multiple of [2^e], ties to even, of a located number. *)
Lemma round_nearest_even_spec (q : R) (m e : Z) (l : location) :
  located q m e l ->
  let n := round_nearest_even m l in
  (n = m \/ n = (m + 1)%Z)
  /\ IZR n * pow2 e - pow2 e / 2 <= q <= IZR n * pow2 e + pow2 e / 2.
Proof.
  pose proof (pow2_pos e) as He. intros Hl n. subst n.
  destruct l as [|[]]; cbn [round_nearest_even located] in *.
  - split; [now left|]. lra.
  - destruct (Z.even m).
    + split; [now left|]. lra.
    + split; [now right|]. rewrite plus_IZR. lra.
  - split; [now left|]. lra.
  - split; [now right|]. rewrite plus_IZR. lra.
Qed.

(** No shift is made when the exponent is already the one of the format. *)
Lemma shr_fexp_fits (m e : Z) :
  (fexp prec emax (Zdigits2 m + e) <= e)%Z ->
  shr_fexp prec emax m e loc_Exact = (Build_shr_record m false false, e).
Proof.
  intros H. unfold shr_fexp, shr. cbn [shr_record_of_loc].
  destruct (fexp prec emax (Zdigits2 m + e) - e)%Z eqn:E; try reflexivity. lia.
Qed.

(** Rounding of a positive located number to the format. *)
Lemma round_aux_pos (q : R) (p : positive) (ex : Z) (lx : location) :
  located q (Zpos p) ex lx ->
  (ex <= fexp prec emax (Zpos (digits2_pos p) + ex))%Z ->
  (fexp prec emax (Zpos (digits2_pos p) + ex) <= 970)%Z ->
  exists r, SFrep (binary_round_aux prec emax false (Zpos p) ex lx) r
            /\ roundedAt (fexp prec emax (Zpos (digits2_pos p) + ex)) q r.
Proof.
  intros Hl Hex Hmax.
  set (D := (Zpos (digits2_pos p) + ex)%Z) in *.
  set (e' := fexp prec emax D) in *.
  assert (He' : e' = Z.max (D - 53) (-1074)) by apply fexp_eq.
  unfold binary_round_aux. unfold shr_fexp at 1. cbn [Zdigits2]. fold D. fold e'.
  pose proof (shr_inv_shift q (Zpos p) ex (e' - ex) lx) as Hs.
  destruct (shr (shr_record_of_loc (Zpos p) lx) ex (e' - ex)) as [mrs e1].
  destruct Hs as [He1 [Hm' Hl']]; [lia|lia|exact Hl|].
  replace e1 with e' in * by lia. clear He1.
  (* the size of the shifted mantissa *)
  assert (Hq : pow2 (D - 1) <= q < pow2 D).
  { apply located_bounds in Hl. destruct (digits_bounds_R p ex) as [H1 H2].
    fold D in H1, H2. lra. }
  assert (Hm53 : (shr_m mrs < 2 ^ 53)%Z).
  { apply located_bounds in Hl'. apply lt_IZR. rewrite pow2_IZR by lia.
    assert (pow2 D <= pow2 (53 + e')) by (apply pow2_le; lia).
    rewrite pow2_add in H. pose proof (pow2_pos e'). nra. }
  destruct (round_nearest_even_spec q _ _ _ Hl') as [Hn Hr].
  set (n := round_nearest_even (shr_m mrs) (loc_of_shr_record mrs)) in *.
  assert (Hn0 : (0 <= n <= 2 ^ 53)%Z) by lia.
  destruct (Z.eq_dec n (2 ^ 53)) as [Hn53|Hn53].
  - (* the mantissa has one digit more: it is shifted once more *)
    unfold shr_fexp. rewrite Hn53. change (Zdigits2 (2 ^ 53)) with 54%Z.
    assert (Hk : (fexp prec emax (54 + e') - e' = 1)%Z) by (rewrite fexp_eq; lia).
    rewrite Hk. cbn.
    replace (e' + 1 <=? 971)%Z with true by (symmetry; apply Z.leb_le; lia).
    exists (IZR n * pow2 e'). split.
    + right. exists 4503599627370496%positive, (e' + 1)%Z. split; [reflexivity|].
      rewrite Hn53, pow2_succ. change (2 ^ 53)%Z with (2 * 4503599627370496)%Z.
      rewrite mult_IZR. lra.
    + exists n. split; [reflexivity|exact Hr].
  - destruct n as [|pn|pn] eqn:En; [| |lia].
    + rewrite shr_fexp_fits by (cbn [Zdigits2]; rewrite fexp_eq; lia).
      cbn [shr_m]. exists 0. split.
      * now left.
      * exists 0%Z. split; [lra|]. replace (IZR 0 * pow2 e') with 0 in Hr by lra.
        exact Hr.
    + assert (Hd : (Zpos (digits2_pos pn) <= 53)%Z) by (apply digits_le; lia).
      rewrite shr_fexp_fits by (cbn [Zdigits2]; rewrite fexp_eq; lia).
      cbn [shr_m].
      replace (e' <=? emax - prec)%Z with true
        by (symmetry; apply Z.leb_le; change (emax - prec)%Z with 971%Z; lia).
      exists (IZR (Zpos pn) * pow2 e'). split.
      * right. now exists pn, e'.
      * exists (Zpos pn). split; [reflexivity|exact Hr].
Qed.


Lemma round_aux_Rounded (q : R) (p : positive) (ex : Z) (lx : location) :
  located q (Zpos p) ex lx ->
  (ex <= fexp prec emax (Zpos (digits2_pos p) + ex))%Z ->
  q < pow2 1000 ->
  exists r, SFrep (binary_round_aux prec emax false (Zpos p) ex lx) r /\ Rounded q r.
Proof.
  intros Hl Hex Hq.
  assert (Hb : pow2 (Zpos (digits2_pos p) + ex - 1) <= q
               < pow2 (Zpos (digits2_pos p) + ex)).
  { apply located_bounds in Hl. destruct (digits_bounds_R p ex) as [H1 H2]. lra. }
  assert (HD : (Zpos (digits2_pos p) + ex - 1 < 1000)%Z) by (apply pow2_lt_inv; lra).
  destruct (round_aux_pos q p ex lx Hl Hex) as (r & Hr & Hn).
  { rewrite fexp_eq. lia. }
  exists r. split; [exact Hr|]. now exists (Zpos (digits2_pos p) + ex)%Z.
Qed.

(** ** Numbers of the format *)

Lemma valid_finite (s : bool) (m : positive) (e : Z) :
  valid_binary (S754_finite s m e) = true ->
  e = fexp prec emax (Zpos (digits2_pos m) + e) /\ (e <= 971)%Z.
Proof.
  unfold SpecFloat.valid_binary, bounded, canonical_mantissa. intros H.
  apply andb_prop in H as [H1 H2]. apply Z.eqb_eq in H1. apply Z.leb_le in H2.
  split; [now symmetry|exact H2].
Qed.

Lemma valid_digits (s : bool) (m : positive) (e : Z) :
  valid_binary (S754_finite s m e) = true ->
  (Zpos (digits2_pos m) <= 53)%Z
  /\ (-1074 <= e <= 971)%Z
  /\ (Zpos (digits2_pos m) = 53 \/ e = -1074)%Z.
Proof.
  intros H. apply valid_finite in H as [H1 H2]. rewrite fexp_eq in H1. lia.
Qed.

Lemma digits_ge (p : positive) (k : Z) :
  (2 ^ k <= Zpos p)%Z -> (k < Zpos (digits2_pos p))%Z.
Proof.
  intros Hp. destruct (digits_bounds p) as [_ Hu].
  destruct (Z.lt_ge_cases k 0) as [|Hk]; [lia|].
  assert (H : (2 ^ k < 2 ^ Zpos (digits2_pos p))%Z) by lia.
  apply Z.pow_lt_mono_r_iff in H; lia.
Qed.

Lemma digits_mul (p1 p2 : positive) :
  (Zpos (digits2_pos p1) + Zpos (digits2_pos p2) - 1
   <= Zpos (digits2_pos (p1 * p2)))%Z.
Proof.
  destruct (digits_bounds p1) as [H1 _], (digits_bounds p2) as [H2 _].
  assert (H : (2 ^ (Zpos (digits2_pos p1) - 1 + (Zpos (digits2_pos p2) - 1))
               <= Zpos (p1 * p2))%Z).
  { rewrite Z.pow_add_r by lia. rewrite Pos2Z.inj_mul. nia. }
  apply digits_ge in H. lia.
Qed.

Lemma fexp_mono (a b : Z) : (a <= b)%Z -> (fexp prec emax a <= fexp prec emax b)%Z.
Proof. rewrite !fexp_eq. lia. Qed.

(** The product of two positive numbers of the format. *)
Lemma SFmul_pos (m1 m2 : positive) (e1 e2 : Z) :
  valid_binary (S754_finite false m1 e1) = true ->
  valid_binary (S754_finite false m2 e2) = true ->
  IZR (Zpos m1) * pow2 e1 * (IZR (Zpos m2) * pow2 e2) < pow2 1000 ->
  exists r,
    SFrep (SFmul prec emax (S754_finite false m1 e1) (S754_finite false m2 e2)) r
    /\ Rounded (IZR (Zpos m1) * pow2 e1 * (IZR (Zpos m2) * pow2 e2)) r.
Proof.
  intros V1 V2 Hq. cbn [SFmul xorb].
  apply round_aux_Rounded; [| |exact Hq].
  - cbn [located]. rewrite Pos2Z.inj_mul, mult_IZR, pow2_add. ring.
  - apply valid_digits in V1, V2. pose proof (digits_mul m1 m2).
    rewrite fexp_eq. lia.
Qed.


(** The position of a quotient between two consecutive integers. *)
Lemma new_location_spec (n q r e : Z) :
  (0 <= r < n)%Z ->
  located ((IZR q + IZR r / IZR n) * pow2 e) q e (new_location n r).
Proof.
  intros Hr. pose proof (pow2_pos e) as He.
  assert (Hn : 0 < IZR n) by (apply IZR_lt; lia).
  set (x := IZR r / IZR n).
  assert (Hx : x * IZR n = IZR r) by (unfold x; field; lra).
  clearbody x.
  assert (Hcmp : forall a b : Z, (a < b)%Z -> IZR a < IZR b) by (intros; now apply IZR_lt).
  assert (Hhalf : forall c : comparison, (2 * r ?= n)%Z = c ->
            match c with
            | Lt => x < / 2
            | Eq => x = / 2
            | Gt => / 2 < x
            end).
  { intros c Hc. destruct c.
    - apply Z.compare_eq in Hc. apply (f_equal IZR) in Hc. rewrite mult_IZR in Hc. nra.
    - change (2 * r < n)%Z in Hc. apply IZR_lt in Hc. rewrite mult_IZR in Hc. nra.
    - apply Z.compare_gt_iff in Hc. apply IZR_lt in Hc. rewrite mult_IZR in Hc. nra. }
  assert (Hx1 : x < 1).
  { assert (IZR r < IZR n) by (apply IZR_lt; lia). nra. }
  unfold new_location, new_location_even, new_location_odd. stdZ.
  destruct (Z.even n) eqn:Ev; cbv beta;
    (destruct (Z.eqb_spec r 0) as [->|Hr0];
     [assert (x = 0) by nra; subst x; cbn [located]; lra|]).
  - assert (Hx0 : 0 < x).
    { assert (0 < IZR r) by (apply IZR_lt; lia). nra. }
    specialize (Hhalf _ eq_refl).
    destruct (2 * r ?= n)%Z; cbn [located]; nra.
  - assert (Hx0 : 0 < x).
    { assert (0 < IZR r) by (apply IZR_lt; lia). nra. }
    assert (Hodd : Z.odd n = true) by (rewrite <- Z.negb_even, Ev; reflexivity).
    apply Z.odd_spec in Hodd as [k Hk].
    specialize (Hhalf _ eq_refl).
    destruct (2 * r + 1 ?= n)%Z eqn:Hc.
    + apply Z.compare_eq in Hc.
      replace (2 * r ?= n)%Z with Lt in Hhalf by (symmetry; apply Z.compare_lt_iff; lia).
      cbv iota in Hhalf. cbn [located]. nra.
    + change (2 * r + 1 < n)%Z in Hc.
      replace (2 * r ?= n)%Z with Lt in Hhalf by (symmetry; apply Z.compare_lt_iff; lia).
      cbv iota in Hhalf. cbn [located]. nra.
    + change (2 * r + 1 > n)%Z in Hc.
      replace (2 * r ?= n)%Z with Gt in Hhalf by (symmetry; apply Z.compare_gt_iff; lia).
      cbv iota in Hhalf. cbn [located]. nra.
Qed.

(** The quotient of two positive numbers of the format. *)
Lemma SFdiv_pos (m1 m2 : positive) (e1 e2 : Z) :
  valid_binary (S754_finite false m1 e1) = true ->
  valid_binary (S754_finite false m2 e2) = true ->
  pow2 (-1000) <= IZR (Zpos m1) * pow2 e1 / (IZR (Zpos m2) * pow2 e2) < pow2 1000 ->
  exists r,
    SFrep (SFdiv prec emax (S754_finite false m1 e1) (S754_finite false m2 e2)) r
    /\ Rounded (IZR (Zpos m1) * pow2 e1 / (IZR (Zpos m2) * pow2 e2)) r.
Proof.
  intros V1 V2 HQ.
  set (Q := IZR (Zpos m1) * pow2 e1 / (IZR (Zpos m2) * pow2 e2)) in *.
  cbn [SFdiv xorb]. unfold SFdiv_core_binary. cbn [Zdigits2].
  set (d1 := Zpos (digits2_pos m1)). set (d2 := Zpos (digits2_pos m2)).
  apply valid_digits in V1 as (V1 & _ & _). fold d1 in V1.
  assert (Hd2 : (1 <= d2)%Z) by (unfold d2; lia).
  pose proof (pow2_pos e1) as He1. pose proof (pow2_pos e2) as He2.
  assert (Hm1 : 0 < IZR (Zpos m1)) by (apply IZR_lt; lia).
  assert (Hm2 : 0 < IZR (Zpos m2)) by (apply IZR_lt; lia).
  (* the binade of the quotient *)
  destruct (digits_bounds_R m1 e1) as [L1 U1], (digits_bounds_R m2 e2) as [L2 U2].
  fold d1 in L1, U1. fold d2 in L2, U2.
  assert (Hv2 : 0 < IZR (Zpos m2) * pow2 e2) by nra.
  assert (HQv : Q * (IZR (Zpos m2) * pow2 e2) = IZR (Zpos m1) * pow2 e1)
    by (unfold Q; field; lra).
  set (Delta := (d1 + e1 - (d2 + e2))%Z).
  assert (HQl : pow2 (Delta - 1) < Q).
  { assert (H : pow2 (Delta - 1) * pow2 (d2 + e2) = pow2 (d1 + e1 - 1)).
    { rewrite <- pow2_add. f_equal. unfold Delta. lia. }
    pose proof (pow2_pos (Delta - 1)). pose proof (pow2_pos (d2 + e2)).
    apply Rmult_lt_reg_r with (IZR (Zpos m2) * pow2 e2); [exact Hv2|]. nra. }
  assert (HQu : Q < pow2 (Delta + 1)).
  { assert (H : pow2 (Delta + 1) * pow2 (d2 + e2 - 1) = pow2 (d1 + e1)).
    { rewrite <- pow2_add. f_equal. unfold Delta. lia. }
    pose proof (pow2_pos (Delta + 1)). pose proof (pow2_pos (d2 + e2 - 1)).
    apply Rmult_lt_reg_r with (IZR (Zpos m2) * pow2 e2); [exact Hv2|]. nra. }
  assert (HDl : (-1000 <= Delta)%Z).
  { assert (H : (-1000 < Delta + 1)%Z) by (apply pow2_lt_inv; lra). lia. }
  set (e' := Z.min (fexp prec emax Delta) (e1 - e2)).
  assert (He' : (e' <= Delta - 53 /\ e' <= e1 - e2)%Z)
    by (unfold e'; rewrite fexp_eq; lia).
  assert (Hs : (0 < e1 - e2 - e')%Z) by (unfold Delta in *; lia).
  destruct (e1 - e2 - e')%Z as [|s|s] eqn:Es; [lia| |lia].
  rewrite Z.shiftl_mul_pow2 by lia.
  pose proof (Z.div_eucl_eq (Zpos m1 * 2 ^ Zpos s) (Zpos m2)) as Hdiv.
  pose proof (Z.mod_pos_bound (Zpos m1 * 2 ^ Zpos s) (Zpos m2)) as Hmod.
  unfold Z.modulo in Hmod.
  destruct (Z.div_eucl (Zpos m1 * 2 ^ Zpos s) (Zpos m2)) as [q r].
  specialize (Hdiv ltac:(lia)). specialize (Hmod ltac:(lia)).
  (* the quotient of the mantissas is located *)
  assert (HQq : Q = (IZR q + IZR r / IZR (Zpos m2)) * pow2 e').
  { apply (f_equal IZR) in Hdiv. rewrite plus_IZR, !mult_IZR, pow2_IZR in Hdiv by lia.
    assert (H : pow2 e1 = pow2 (Zpos s) * pow2 e' * pow2 e2).
    { rewrite <- !pow2_add. f_equal. lia. }
    unfold Q. rewrite H. field_simplify_eq; [|lra]. 
    replace (IZR (Zpos m1) * pow2 (Zpos s)) with (IZR (Zpos m2) * IZR q + IZR r) by lra.
    field_simplify_eq; lra. }
  pose proof (new_location_spec (Zpos m2) q r e' Hmod) as Hloc.
  rewrite <- HQq in Hloc.
  assert (Hq : (0 < q)%Z).
  { apply located_bounds in Hloc. pose proof (pow2_pos e').
    assert (Hp : pow2 (e' + 53 - 1) <= pow2 (Delta - 1)) by (apply pow2_le; lia).
    replace (e' + 53 - 1)%Z with (52 + e')%Z in Hp by lia. rewrite pow2_add in Hp.
    assert (pow2 52 < IZR q + 1) by nra.
    rewrite <- pow2_IZR in H0 by lia. rewrite <- plus_IZR in H0. apply lt_IZR in H0.
    lia. }
  destruct q as [|pq|pq]; [lia| |lia].
  apply round_aux_Rounded; [exact Hloc| |lra].
  apply located_bounds in Hloc. destruct (digits_bounds_R pq e') as [_ Hu].
  assert (H : (Delta - 1 < Zpos (digits2_pos pq) + e')%Z) by (apply pow2_lt_inv; lra).
  transitivity (fexp prec emax Delta); [unfold e'; lia|]. apply fexp_mono. lia.
Qed.


(** ** Exact results *)

Lemma iter_xO (p d : positive) :
  Zpos (Pos.iter xO p d) = (Zpos p * 2 ^ Zpos d)%Z
  /\ digits2_pos (Pos.iter xO p d) = (digits2_pos p + d)%positive.
Proof.
  induction d as [|d IH] using Pos.peano_ind.
  - cbn [Pos.iter]. split; [lia|]. cbn [digits2_pos]. lia.
  - rewrite Pos.iter_succ. destruct IH as [IH1 IH2]. split.
    + rewrite Pos2Z.inj_xO, IH1, Pos2Z.inj_succ, Z.pow_succ_r by lia. lia.
    + cbn [digits2_pos]. rewrite IH2. lia.
Qed.

Lemma shl_align_spec (p : positive) (e e' : Z) :
  let '(mz, ez) := shl_align p e e' in
  IZR (Zpos mz) * pow2 ez = IZR (Zpos p) * pow2 e
  /\ (Zpos (digits2_pos mz) + ez = Zpos (digits2_pos p) + e)%Z
  /\ (ez <= e')%Z /\ (e' <= e -> ez = e')%Z.
Proof.
  unfold shl_align. stdZ. destruct (e' - e)%Z as [|d|d] eqn:E.
  - repeat split; lia.
  - repeat split; lia.
  - destruct (iter_xO p d) as [H1 H2]. rewrite H2, H1. repeat split; try lia.
    rewrite mult_IZR, pow2_IZR by lia.
    replace e with (Zpos d + e')%Z by lia. rewrite pow2_add. ring.
Qed.

(** Rounding of a positive integer multiple of a power of two. *)
Lemma binary_round_pos (p : positive) (e : Z) :
  IZR (Zpos p) * pow2 e < pow2 1000 ->
  exists r, SFrep (binary_round prec emax false p e) r
            /\ Rounded (IZR (Zpos p) * pow2 e) r.
Proof.
  intros Hq. unfold binary_round.
  pose proof (shl_align_spec p e (fexp prec emax (Zpos (digits2_pos p) + e))) as H.
  destruct (shl_align p e (fexp prec emax (Zpos (digits2_pos p) + e))) as [mz ez].
  destruct H as (Hv & Hd & He & _). rewrite <- Hv in *.
  apply round_aux_Rounded; [reflexivity| |exact Hq].
  now rewrite Hd.
Qed.

Lemma roundedAt_exact (e : Z) (q r : R) :
  roundedAt e q r -> (exists k : Z, q = IZR k * pow2 e) -> r = q.
Proof.
  intros (n & -> & Hn) (k & ->). pose proof (pow2_pos e) as He.
  assert (H1 : IZR (-1) < IZR (k - n)) by (rewrite minus_IZR; simpl; nra).
  assert (H2 : IZR (k - n) < IZR 1) by (rewrite minus_IZR; simpl; nra).
  apply lt_IZR in H1, H2. replace k with n by lia. reflexivity.
Qed.

Lemma grid_coarser (k j e : Z) :
  (e <= j)%Z -> exists k', IZR k * pow2 j = IZR k' * pow2 e.
Proof.
  intros H. exists (k * 2 ^ (j - e))%Z.
  rewrite mult_IZR, pow2_IZR by lia.
  replace j with ((j - e) + e)%Z at 1 by lia. rewrite pow2_add. ring.
Qed.

(** A number that is a multiple of the unit of its binade is its own
    rounding. *)
Lemma Rounded_exact (q r : R) (k j B : Z) :
  Rounded q r -> q = IZR k * pow2 j -> q < pow2 B ->
  (fexp prec emax B <= j)%Z -> r = q.
Proof.
  intros (D & [HD1 HD2] & Hr) Hq HB Hj.
  assert (HDB : (D - 1 < B)%Z) by (apply pow2_lt_inv; lra).
  apply (roundedAt_exact _ _ _ Hr). rewrite Hq. apply grid_coarser.
  pose proof (fexp_mono D B). lia.
Qed.

(** A number of the format that is not below a binade is a multiple of the
    unit of the binade. *)
Lemma float_on_grid (m : positive) (e D : Z) :
  valid_binary (S754_finite false m e) = true ->
  pow2 (D - 1) <= IZR (Zpos m) * pow2 e ->
  exists k, IZR (Zpos m) * pow2 e = IZR k * pow2 (fexp prec emax D).
Proof.
  intros V H. apply valid_finite in V as [V _].
  destruct (digits_bounds_R m e) as [_ Hu]. pose proof (pow2_pos e).
  assert (HD : (D - 1 < Zpos (digits2_pos m) + e)%Z) by (apply pow2_lt_inv; lra).
  apply grid_coarser. rewrite V. apply fexp_mono. lia.
Qed.

(** Rounding does not pass over a number of the format. *)
Lemma Rounded_le_float (q r : R) (m : positive) (e : Z) :
  Rounded q r ->
  valid_binary (S754_finite false m e) = true ->
  q <= IZR (Zpos m) * pow2 e -> r <= IZR (Zpos m) * pow2 e.
Proof.
  intros (D & [HD1 HD2] & (n & -> & Hn)) V Hq.
  destruct (float_on_grid m e D V) as [k Hk]; [lra|]. rewrite Hk in *.
  pose proof (pow2_pos (fexp prec emax D)) as He.
  destruct (Z.le_gt_cases n k) as [Hnk|Hnk].
  - apply IZR_le in Hnk. nra.
  - exfalso. assert (Hk1 : (k + 1 <= n)%Z) by lia. apply IZR_le in Hk1.
    rewrite plus_IZR in Hk1. nra.
Qed.

(** The error of a rounding, relative to the number, away from the
    subnormal range. *)
Lemma Rounded_error (q r : R) :
  Rounded q r -> pow2 (-1021) <= q ->
  q - q * pow2 (-53) <= r <= q + q * pow2 (-53).
Proof.
  intros (D & [HD1 HD2] & (n & -> & Hn)) Hq.
  assert (HD : (-1021 < D)%Z) by (apply pow2_lt_inv; lra).
  rewrite fexp_eq in *. rewrite Z.max_l in * by lia.
  assert (H : pow2 (D - 53) / 2 = pow2 (D - 1) * pow2 (-53)).
  { rewrite <- pow2_add. replace (D - 1 + -53)%Z with (D - 53 - 1)%Z by lia.
    replace (D - 53)%Z with ((D - 53 - 1) + 1)%Z at 1 by lia.
    rewrite pow2_succ. lra. }
  pose proof (pow2_pos (-53)). nra.
Qed.

(** ** Numbers and their values *)

Lemma Rep_nonneg (x : float) (v : R) : Rep x v -> 0 <= v.
Proof.
  intros [[_ ->]|(m & e & _ & ->)]; [lra|].
  pose proof (pow2_pos e). assert (0 < IZR (Zpos m)) by (apply IZR_lt; lia). nra.
Qed.

Lemma Rep_pos (x : float) (v : R) :
  Rep x v -> 0 < v ->
  exists m e, Prim2SF x = S754_finite false m e
              /\ v = IZR (Zpos m) * pow2 e
              /\ valid_binary (S754_finite false m e) = true.
Proof.
  intros [[_ ->]|(m & e & Hx & ->)] Hv; [lra|].
  exists m, e. repeat split; [exact Hx|]. rewrite <- Hx. apply Prim2SF_valid.
Qed.

Lemma Rep_zero (x : float) : Rep x 0 -> Prim2SF x = S754_zero false.
Proof.
  intros [[Hx _]|(m & e & _ & H)]; [exact Hx|].
  pose proof (pow2_pos e). assert (0 < IZR (Zpos m)) by (apply IZR_lt; lia). nra.
Qed.

(** Two numbers of the format with the same value have the same mantissa
    and exponent. *)
Lemma canonical_unique (m1 m2 : positive) (e1 e2 : Z) :
  valid_binary (S754_finite false m1 e1) = true ->
  valid_binary (S754_finite false m2 e2) = true ->
  IZR (Zpos m1) * pow2 e1 = IZR (Zpos m2) * pow2 e2 ->
  m1 = m2 /\ e1 = e2.
Proof.
  assert (Hlt : forall m1 m2 e1 e2,
            valid_binary (S754_finite false m1 e1) = true ->
            valid_binary (S754_finite false m2 e2) = true ->
            IZR (Zpos m1) * pow2 e1 = IZR (Zpos m2) * pow2 e2 ->
            (e1 < e2)%Z -> False).
  { clear. intros m1 m2 e1 e2 V1 V2 H Hlt.
    apply valid_digits in V1 as (D1 & E1 & _), V2 as (_ & _ & D2).
    assert (Hm : Zpos m1 = (Zpos m2 * 2 ^ (e2 - e1))%Z).
    { apply eq_IZR. rewrite mult_IZR, pow2_IZR by lia.
      replace e2 with ((e2 - e1) + e1)%Z in H by lia. rewrite pow2_add in H.
      pose proof (pow2_pos e1). nra. }
    destruct D2 as [D2|D2]; [|lia].
    destruct (digits_bounds m1) as [_ U1], (digits_bounds m2) as [L2 _].
    rewrite D2 in L2.
    assert (2 ^ 1 <= 2 ^ (e2 - e1))%Z by (apply Z.pow_le_mono_r; lia).
    assert (2 ^ Zpos (digits2_pos m1) <= 2 ^ 53)%Z by (apply Z.pow_le_mono_r; lia).
    change (2 ^ (53 - 1))%Z with 4503599627370496%Z in L2.
    change (2 ^ 53)%Z with 9007199254740992%Z in *. change (2 ^ 1)%Z with 2%Z in *.
    nia. }
  intros V1 V2 H.
  destruct (Z.lt_trichotomy e1 e2) as [He|[He|He]].
  - exfalso. exact (Hlt _ _ _ _ V1 V2 H He).
  - subst e2. split; [|reflexivity].
    pose proof (pow2_pos e1). assert (IZR (Zpos m1) = IZR (Zpos m2)) by nra.
    apply eq_IZR in H1. congruence.
  - exfalso. symmetry in H. exact (Hlt _ _ _ _ V2 V1 H He).
Qed.

(** A number is determined by its value. *)
Lemma Rep_inj (x y : float) (v : R) : Rep x v -> Rep y v -> x = y.
Proof.
  intros Hx Hy. apply Prim2SF_inj.
  destruct (Rep_nonneg _ _ Hx) as [Hv|<-].
  - apply Rep_pos in Hx as (m1 & e1 & Hx & E1 & V1); [|exact Hv].
    apply Rep_pos in Hy as (m2 & e2 & Hy & E2 & V2); [|exact Hv].
    rewrite Hx, Hy. destruct (canonical_unique m1 m2 e1 e2 V1 V2) as [-> ->];
      [congruence|reflexivity].
  - apply Rep_zero in Hx, Hy. congruence.
Qed.

(** The number of an integer of at most 53 bits. *)
Lemma ofZ_Rep (z : Z) : (0 <= z < 2 ^ 53)%Z -> Rep (JS.ofZ z) (IZR z).
Proof.
  intros Hz. unfold JS.ofZ, Rep.
  replace (z <? 0)%Z with false by (symmetry; apply Z.ltb_ge; lia).
  rewrite of_uint63_spec, Uint63.of_Z_spec.
  rewrite Z.mod_small by (change wB with (2 ^ 63)%Z; lia).
  destruct z as [|p|p]; [now left| |lia].
  cbn [binary_normalize].
  assert (Hp : IZR (Zpos p) * pow2 0 < pow2 53).
  { rewrite pow2_0, <- pow2_IZR by lia.
    destruct Hz as [_ Hz]. apply IZR_lt in Hz. lra. }
  destruct (binary_round_pos p 0) as (r & Hr & HR).
  { assert (pow2 53 <= pow2 1000) by (apply pow2_le; lia). lra. }
  rewrite (Rounded_exact _ r (Zpos p) 0 53 HR eq_refl Hp) in Hr
    by (rewrite fexp_eq; lia).
  rewrite pow2_0, Rmult_1_r in Hr. exact Hr.
Qed.

(** ** The operations *)

Lemma Rnd_exact (q r : R) (k j B : Z) :
  Rnd q r -> q = IZR k * pow2 j -> q < pow2 B ->
  (fexp prec emax B <= j)%Z -> r = q.
Proof.
  intros [H|H] Hq HB Hj; [exact H|]. exact (Rounded_exact q r k j B H Hq HB Hj).
Qed.

Lemma Rnd_le (q r : R) (f : float) (w : R) :
  Rnd q r -> Rep f w -> q <= w -> r <= w.
Proof.
  intros [->|H] Hf Hq; [exact Hq|].
  destruct (Rep_nonneg _ _ Hf) as [Hw|<-].
  - apply Rep_pos in Hf as (m & e & _ & -> & V); [|exact Hw].
    exact (Rounded_le_float q r m e H V Hq).
  - destruct H as (D & [HD _] & _). pose proof (pow2_pos (D - 1)). lra.
Qed.

Lemma Rnd_error (q r : R) :
  Rnd q r -> pow2 (-1021) <= q ->
  q - q * pow2 (-53) <= r <= q + q * pow2 (-53).
Proof.
  intros [->|H] Hq; [|now apply Rounded_error].
  pose proof (pow2_pos (-53)). pose proof (pow2_pos (-1021)). nra.
Qed.

Lemma mul_Rep (x y : float) (u v : R) :
  Rep x u -> Rep y v -> u * v < pow2 1000 ->
  exists r, Rep (x * y)%float r /\ Rnd (u * v) r.
Proof.
  intros Hx Hy Hq.
  pose proof (Prim2SF_valid x) as Vx. pose proof (Prim2SF_valid y) as Vy.
  unfold Rep in *. rewrite FloatAxioms.mul_spec. unfold SF64mul.
  destruct Hx as [[Hx ->]|(m1 & e1 & Hx & ->)], Hy as [[Hy ->]|(m2 & e2 & Hy & ->)];
    rewrite Hx, Hy in *.
  - exists 0. split; [now left|left; lra].
  - exists 0. split; [now left|left; lra].
  - exists 0. split; [now left|left; lra].
  - destruct (SFmul_pos m1 m2 e1 e2 Vx Vy Hq) as (r & Hr & HR).
    exists r. split; [exact Hr|now right].
Qed.

Lemma div_Rep (x y : float) (u v : R) :
  Rep x u -> Rep y v -> 0 < v ->
  u = 0 \/ pow2 (-1000) <= u / v < pow2 1000 ->
  exists r, Rep (x / y)%float r /\ Rnd (u / v) r.
Proof.
  intros Hx Hy Hv Hq.
  pose proof (Prim2SF_valid x) as Vx.
  apply Rep_pos in Hy as (m2 & e2 & Hy & -> & Vy); [|exact Hv].
  unfold Rep in *. rewrite FloatAxioms.div_spec. unfold SF64div. rewrite Hy.
  destruct Hx as [[Hx ->]|(m1 & e1 & Hx & ->)]; rewrite Hx in *.
  - exists 0. split; [now left|left; unfold Rdiv; lra].
  - destruct Hq as [Hq|Hq].
    + pose proof (pow2_pos e1). assert (0 < IZR (Zpos m1)) by (apply IZR_lt; lia). nra.
    + destruct (SFdiv_pos m1 m2 e1 e2 Vx Vy Hq) as (r & Hr & HR).
      exists r. split; [exact Hr|now right].
Qed.

Lemma sub_Rep (x y : float) (u v : R) :
  Rep x u -> Rep y v -> v <= u -> u < pow2 1000 ->
  exists r, Rep (x - y)%float r /\ Rnd (u - v) r.
Proof.
  intros Hx Hy Hvu Hu.
  pose proof (Rep_nonneg _ _ Hy) as Hv0.
  unfold Rep in *. rewrite FloatAxioms.sub_spec. unfold SF64sub.
  destruct Hx as [[Hx ->]|(m1 & e1 & Hx & ->)], Hy as [[Hy ->]|(m2 & e2 & Hy & ->)];
    rewrite Hx, Hy in *.
  - exists 0. split; [now left|left; lra].
  - pose proof (pow2_pos e2). assert (0 < IZR (Zpos m2)) by (apply IZR_lt; lia). nra.
  - exists (IZR (Zpos m1) * pow2 e1). split; [right; now exists m1, e1|left; lra].
  - cbn [SFsub cond_Zopp]. stdZ.
    pose proof (shl_align_spec m1 e1 (Z.min e1 e2)) as H1.
    pose proof (shl_align_spec m2 e2 (Z.min e1 e2)) as H2.
    destruct (shl_align m1 e1 (Z.min e1 e2)) as [n1 z1].
    destruct (shl_align m2 e2 (Z.min e1 e2)) as [n2 z2].
    destruct H1 as (V1 & _ & _ & E1), H2 as (V2 & _ & _ & E2).
    rewrite E1 in V1 by lia. rewrite E2 in V2 by lia. cbn [fst].
    set (ez := Z.min e1 e2) in *. pose proof (pow2_pos ez) as Hez.
    assert (Hn : IZR (Zpos n1 - Zpos n2) * pow2 ez
                 = IZR (Zpos m1) * pow2 e1 - IZR (Zpos m2) * pow2 e2).
    { rewrite minus_IZR. lra. }
    destruct (Zpos n1 - Zpos n2)%Z as [|p|p] eqn:En.
    + exists 0. split; [now left|left]. simpl in Hn. lra.
    + cbn [binary_normalize]. destruct (binary_round_pos p ez) as (r & Hr & HR).
      { rewrite Hn. pose proof (pow2_pos e2).
        assert (0 < IZR (Zpos m2)) by (apply IZR_lt; lia). nra. }
      rewrite Hn in HR. exists r. split; [exact Hr|now right].
    + exfalso. assert (IZR (Zneg p) < 0) by (apply IZR_lt; lia). nra.
Qed.

(** ** Comparisons *)

Lemma exponent_lt_value (m1 m2 : positive) (e1 e2 : Z) :
  valid_binary (S754_finite false m1 e1) = true ->
  valid_binary (S754_finite false m2 e2) = true ->
  (e1 < e2)%Z -> IZR (Zpos m1) * pow2 e1 < IZR (Zpos m2) * pow2 e2.
Proof.
  intros V1 V2 He.
  apply valid_digits in V1 as (D1 & E1 & _), V2 as (_ & _ & D2).
  destruct D2 as [D2|D2]; [|lia].
  destruct (digits_bounds_R m1 e1) as [_ U1], (digits_bounds_R m2 e2) as [L2 _].
  rewrite D2 in L2.
  assert (pow2 (Zpos (digits2_pos m1) + e1) <= pow2 (53 + e2 - 1)) by (apply pow2_le; lia).
  pose proof (pow2_pos e1). lra.
Qed.

Lemma SFltb_value (m1 m2 : positive) (e1 e2 : Z) :
  valid_binary (S754_finite false m1 e1) = true ->
  valid_binary (S754_finite false m2 e2) = true ->
  SFltb (S754_finite false m1 e1) (S754_finite false m2 e2) = true
  <-> IZR (Zpos m1) * pow2 e1 < IZR (Zpos m2) * pow2 e2.
Proof.
  intros V1 V2. unfold SFltb. cbn [SFcompare]. stdZ.
  destruct (Z.compare_spec e1 e2) as [->|He|He].
  - change (PosDef.Pos.compare_cont Eq m1 m2) with (Pos.compare m1 m2).
    pose proof (pow2_pos e2) as H2.
    destruct (Pos.compare_spec m1 m2) as [->|Hm|Hm].
    + split; [discriminate|lra].
    + split; [intros _|reflexivity].
      assert (IZR (Zpos m1) < IZR (Zpos m2)) by (apply IZR_lt; lia). nra.
    + split; [discriminate|].
      assert (IZR (Zpos m2) < IZR (Zpos m1)) by (apply IZR_lt; lia). nra.
  - split; [intros _|reflexivity]. now apply exponent_lt_value.
  - split; [discriminate|]. pose proof (exponent_lt_value _ _ _ _ V2 V1 He). lra.
Qed.

Lemma ltb_Rep (x y : float) (u v : R) :
  Rep x u -> Rep y v -> (x <? y)%float = true <-> u < v.
Proof.
  intros Hx Hy. rewrite FloatAxioms.ltb_spec.
  pose proof (Prim2SF_valid x) as Vx. pose proof (Prim2SF_valid y) as Vy.
  assert (Hpos : forall m e, 0 < IZR (Zpos m) * pow2 e).
  { intros m e. pose proof (pow2_pos e).
    assert (0 < IZR (Zpos m)) by (apply IZR_lt; lia). nra. }
  destruct Hx as [[Hx ->]|(m1 & e1 & Hx & ->)], Hy as [[Hy ->]|(m2 & e2 & Hy & ->)];
    rewrite Hx, Hy in *.
  - split; [discriminate|lra].
  - split; [intros _; apply Hpos|reflexivity].
  - split; [discriminate|]. specialize (Hpos m1 e1). lra.
  - now apply SFltb_value.
Qed.

Lemma is_nan_Rep (x : float) (v : R) : Rep x v -> is_nan x = false.
Proof.
  intros Hx. unfold is_nan. rewrite FloatAxioms.eqb_spec. unfold SFeqb.
  destruct Hx as [[Hx _]|(m & e & Hx & _)]; rewrite Hx; cbn [SFcompare]; stdZ.
  - reflexivity.
  - rewrite Z.compare_refl.
    change (PosDef.Pos.compare_cont Eq m m) with (Pos.compare m m).
    now rewrite Pos.compare_refl.
Qed.

Lemma Math_min2_Rep (x y : float) (u v : R) :
  Rep x u -> Rep y v -> Rep (JS.Math_min2 x y) (Rmin u v).
Proof.
  intros Hx Hy. unfold JS.Math_min2.
  rewrite (is_nan_Rep x u Hx), (is_nan_Rep y v Hy). cbn [orb].
  pose proof (ltb_Rep x y u v Hx Hy) as Hxy.
  pose proof (ltb_Rep y x v u Hy Hx) as Hyx.
  destruct (x <? y)%float.
  - rewrite Rmin_left by (apply Rlt_le, Hxy; reflexivity). exact Hx.
  - destruct (y <? x)%float.
    + rewrite Rmin_right by (apply Rlt_le, Hyx; reflexivity). exact Hy.
    + assert (u = v).
      { destruct (Rtotal_order u v) as [H|[H|H]]; [|exact H|].
        - apply Hxy in H. discriminate H.
        - apply Hyx in H. discriminate H. }
      subst v. rewrite Rmin_left by lra. now destruct (get_sign x).
Qed.

(** ** Rounding to integers *)

Lemma pow2_neg (p : positive) : pow2 (Zneg p) * pow2 (Zpos p) = 1.
Proof. rewrite <- pow2_add. now replace (Zneg p + Zpos p)%Z with 0%Z by lia. Qed.

Lemma floorZ_spec (n : Z) (k : positive) :
  IZR (JS.floorZ n k) <= IZR n * pow2 (Zneg k) < IZR (JS.floorZ n k) + 1.
Proof.
  unfold JS.floorZ.
  pose proof (Z.div_mod n (2 ^ Zpos k)) as Hd.
  pose proof (Z.mod_pos_bound n (2 ^ Zpos k)) as Hm.
  assert (Hp : (0 < 2 ^ Zpos k)%Z) by (apply Z.pow_pos_nonneg; lia).
  specialize (Hd ltac:(lia)). specialize (Hm Hp).
  set (z := (n / 2 ^ Zpos k)%Z) in *. set (r := (n mod 2 ^ Zpos k)%Z) in *.
  apply (f_equal IZR) in Hd. rewrite plus_IZR, mult_IZR, pow2_IZR in Hd by lia.
  destruct Hm as [Hm1 Hm2]. apply IZR_le in Hm1. apply IZR_lt in Hm2.
  rewrite pow2_IZR in Hm2 by lia.
  pose proof (pow2_neg k) as Hn. pose proof (pow2_pos (Zpos k)).
  pose proof (pow2_pos (Zneg k)).
  assert (E : IZR n * pow2 (Zneg k) = IZR z + IZR r * pow2 (Zneg k)).
  { rewrite Hd.
    replace ((pow2 (Zpos k) * IZR z + IZR r) * pow2 (Zneg k))
      with (IZR z * (pow2 (Zneg k) * pow2 (Zpos k)) + IZR r * pow2 (Zneg k)) by ring.
    rewrite Hn. ring. }
  assert (0 <= IZR r * pow2 (Zneg k)) by nra.
  assert (IZR r * pow2 (Zneg k) < pow2 (Zpos k) * pow2 (Zneg k)) by nra.
  rewrite E. lra.
Qed.

Lemma roundZ_spec (n : Z) (k : positive) :
  IZR (JS.roundZ n k) <= IZR n * pow2 (Zneg k) + / 2 < IZR (JS.roundZ n k) + 1.
Proof.
  unfold JS.roundZ.
  pose proof (Z.div_mod (2 * n + 2 ^ Zpos k) (2 ^ (Zpos k + 1))) as Hd.
  pose proof (Z.mod_pos_bound (2 * n + 2 ^ Zpos k) (2 ^ (Zpos k + 1))) as Hm.
  assert (Hp : (0 < 2 ^ (Zpos k + 1))%Z) by (apply Z.pow_pos_nonneg; lia).
  specialize (Hd ltac:(lia)). specialize (Hm Hp).
  set (z := ((2 * n + 2 ^ Zpos k) / 2 ^ (Zpos k + 1))%Z) in *.
  set (r := ((2 * n + 2 ^ Zpos k) mod 2 ^ (Zpos k + 1))%Z) in *.
  apply (f_equal IZR) in Hd.
  rewrite !plus_IZR, !mult_IZR, !pow2_IZR, pow2_succ in Hd by lia.
  destruct Hm as [Hm1 Hm2]. apply IZR_le in Hm1. apply IZR_lt in Hm2.
  rewrite pow2_IZR, pow2_succ in Hm2 by lia.
  pose proof (pow2_neg k) as Hn. pose proof (pow2_pos (Zpos k)).
  pose proof (pow2_pos (Zneg k)).
  assert (E : IZR n * pow2 (Zneg k) + / 2 = IZR z + IZR r * pow2 (Zneg k) / 2).
  { replace (IZR n) with (pow2 (Zpos k) * IZR z + IZR r / 2 - pow2 (Zpos k) / 2) by lra.
    replace ((pow2 (Zpos k) * IZR z + IZR r / 2 - pow2 (Zpos k) / 2) * pow2 (Zneg k))
      with (IZR z * (pow2 (Zneg k) * pow2 (Zpos k)) + IZR r * pow2 (Zneg k) / 2
            - (pow2 (Zneg k) * pow2 (Zpos k)) / 2) by field.
    rewrite Hn. field. }
  assert (0 <= IZR r * pow2 (Zneg k)) by nra.
  assert (IZR r * pow2 (Zneg k) < 2 * pow2 (Zpos k) * pow2 (Zneg k)) by nra.
  rewrite E. lra.
Qed.

Lemma integral_ofZ (z : Z) : JS.integral false z = JS.ofZ z.
Proof.
  unfold JS.integral. destruct (Z.eqb_spec z 0) as [->|]; reflexivity.
Qed.

(** A number below [2^53] whose exponent is not negative is the number of
    an integer. *)
Lemma integral_Rep (y : float) (m : positive) (e : Z) :
  Prim2SF y = S754_finite false m e -> (0 <= e)%Z ->
  IZR (Zpos m) * pow2 e < pow2 53 ->
  y = JS.ofZ (Zpos m * 2 ^ e) /\ IZR (Zpos m * 2 ^ e) = IZR (Zpos m) * pow2 e.
Proof.
  intros Hy He Hv.
  assert (E : IZR (Zpos m * 2 ^ e) = IZR (Zpos m) * pow2 e)
    by now rewrite mult_IZR, pow2_IZR.
  split; [|exact E].
  apply (Rep_inj _ _ (IZR (Zpos m * 2 ^ e))).
  - right. exists m, e. now split.
  - apply ofZ_Rep. split; [lia|]. apply lt_IZR. rewrite pow2_IZR by lia. lra.
Qed.

(** [Math.round] of a number that is not negative. *)
Lemma Math_round_Rep (y : float) (v : R) :
  Rep y v -> v < pow2 53 ->
  exists z : Z, JS.Math_round y = JS.ofZ z
                /\ (0 <= z)%Z /\ IZR z <= v + / 2 < IZR z + 1.
Proof.
  intros Hy Hv53. destruct (Rep_nonneg _ _ Hy) as [Hv|<-].
  - apply Rep_pos in Hy as (m & e & Hy & -> & _); [|exact Hv].
    unfold JS.Math_round. rewrite Hy. cbn [JS.signed].
    destruct e as [|k|k].
    + destruct (integral_Rep y m 0 Hy ltac:(lia) Hv53) as [E1 E2].
      exists (Zpos m * 2 ^ 0)%Z. rewrite E2. repeat split; [exact E1|lia|lra|lra].
    + destruct (integral_Rep y m (Zpos k) Hy ltac:(lia) Hv53) as [E1 E2].
      exists (Zpos m * 2 ^ Zpos k)%Z. rewrite E2.
      repeat split; [exact E1|lia|lra|lra].
    + exists (JS.roundZ (Zpos m) k). rewrite integral_ofZ.
      pose proof (roundZ_spec (Zpos m) k) as H.
      repeat split; try lra.
      assert (IZR (-1) < IZR (JS.roundZ (Zpos m) k)) by (simpl; lra).
      apply lt_IZR in H0. lia.
  - exists 0%Z. split; [|split; [lia|simpl; lra]].
    unfold JS.Math_round. rewrite (Rep_zero _ Hy).
    apply (Rep_inj _ _ 0 Hy). apply (ofZ_Rep 0). lia.
Qed.

(** [Math.floor] of a number that is not negative. *)
Lemma Math_floor_Rep (y : float) (v : R) :
  Rep y v -> v < pow2 53 ->
  exists z : Z, JS.Math_floor y = JS.ofZ z
                /\ (0 <= z)%Z /\ IZR z <= v < IZR z + 1.
Proof.
  intros Hy Hv53. destruct (Rep_nonneg _ _ Hy) as [Hv|<-].
  - apply Rep_pos in Hy as (m & e & Hy & -> & _); [|exact Hv].
    unfold JS.Math_floor. rewrite Hy. cbn [JS.signed].
    destruct e as [|k|k].
    + destruct (integral_Rep y m 0 Hy ltac:(lia) Hv53) as [E1 E2].
      exists (Zpos m * 2 ^ 0)%Z. rewrite E2. repeat split; [exact E1|lia|lra|lra].
    + destruct (integral_Rep y m (Zpos k) Hy ltac:(lia) Hv53) as [E1 E2].
      exists (Zpos m * 2 ^ Zpos k)%Z. rewrite E2.
      repeat split; [exact E1|lia|lra|lra].
    + exists (JS.floorZ (Zpos m) k). rewrite integral_ofZ.
      pose proof (floorZ_spec (Zpos m) k) as H.
      repeat split; try lra.
      assert (IZR (-1) < IZR (JS.floorZ (Zpos m) k)) by (simpl; lra).
      apply lt_IZR in H0. lia.
  - exists 0%Z. split; [|split; [lia|simpl; lra]].
    unfold JS.Math_floor. rewrite (Rep_zero _ Hy).
    apply (Rep_inj _ _ 0 Hy). apply (ofZ_Rep 0). lia.
Qed.

(** ** Integers as numbers *)

Lemma pow2_53 : pow2 53 = 9007199254740992.
Proof. now rewrite <- pow2_IZR by lia. Qed.

Lemma pow2_m1 : pow2 (-1) = / 2.
Proof. unfold pow2. simpl. now rewrite Rmult_1_r. Qed.

Lemma pow2_32 : pow2 32 = 4294967296.
Proof. now rewrite <- pow2_IZR by lia. Qed.

Lemma pow2_m53 : pow2 (-53) * 9007199254740992 = 1.
Proof. rewrite <- pow2_53, <- pow2_add. reflexivity. Qed.

Lemma pow2_1000_large : 9007199254740992 * 9007199254740992 < pow2 1000.
Proof.
  rewrite <- pow2_53, <- pow2_add. apply pow2_lt. lia.
Qed.

Lemma pow2_m1000_small : pow2 (-1000) * (9007199254740992 * 9007199254740992) < 1.
Proof.
  rewrite <- pow2_53, <- !pow2_add. change 1 with (pow2 0). apply pow2_lt. lia.
Qed.

Lemma IZR_bounds (z lo hi : Z) : (lo <= z < hi)%Z -> IZR lo <= IZR z <= IZR hi - 1.
Proof.
  intros [H1 H2]. apply IZR_le in H1.
  assert (H3 : (z <= hi - 1)%Z) by lia. apply IZR_le in H3.
  rewrite minus_IZR in H3. lra.
Qed.

(** The quotient of two positive integers of at most 53 bits. *)
Lemma div_integers (a b : Z) :
  (0 < a < 2 ^ 53)%Z -> (0 < b < 2 ^ 53)%Z ->
  exists r, Rep (JS.ofZ a / JS.ofZ b)%float r /\ Rnd (IZR a / IZR b) r.
Proof.
  intros Ha Hb.
  assert (Ha' : 1 <= IZR a <= IZR (2 ^ 53) - 1) by (apply IZR_bounds; lia).
  assert (Hb' : 1 <= IZR b <= IZR (2 ^ 53) - 1) by (apply IZR_bounds; lia).
  change (IZR (2 ^ 53)) with 9007199254740992 in *.
  apply (div_Rep _ _ (IZR a) (IZR b)); [apply ofZ_Rep; lia|apply ofZ_Rep; lia|lra|].
  right. pose proof pow2_1000_large. pose proof pow2_m1000_small.
  pose proof (pow2_pos (-1000)).
  assert (Hq : IZR a / IZR b * IZR b = IZR a) by (field; lra).
  set (q := IZR a / IZR b) in *. clearbody q. split.
  - apply Rmult_le_reg_r with (IZR b); [lra|]. rewrite Hq. nra.
  - apply Rmult_lt_reg_r with (IZR b); [lra|]. rewrite Hq. nra.
Qed.

(** The floor of half of the difference of two integers: the origin of a
    centered crop. *)
Lemma centered_offset (n c : Z) :
  (0 <= c <= n)%Z -> (n < 2 ^ 53)%Z ->
  exists a : Z,
    JS.Math_floor ((JS.ofZ n - JS.ofZ c) / 2)%float = JS.ofZ a
    /\ (0 <= a)%Z /\ (a + c <= n)%Z.
Proof.
  intros Hc Hn.
  assert (Hcn : 0 <= IZR n - IZR c <= 9007199254740991).
  { rewrite <- minus_IZR. change 0 with (IZR 0).
    change 9007199254740991 with (IZR (2 ^ 53 - 1)). split; apply IZR_le; lia. }
  assert (Hn' : IZR n <= 9007199254740991).
  { change 9007199254740991 with (IZR (2 ^ 53 - 1)). apply IZR_le. lia. }
  pose proof pow2_1000_large as Hbig. pose proof pow2_m1000_small as Hsmall.
  pose proof (pow2_pos (-1000)) as Hs0.
  destruct (sub_Rep (JS.ofZ n) (JS.ofZ c) (IZR n) (IZR c)) as (r1 & H1 & R1).
  { apply ofZ_Rep. lia. }
  { apply ofZ_Rep. lia. }
  { apply IZR_le. lia. }
  { lra. }
  assert (E1 : r1 = IZR n - IZR c).
  { apply (Rnd_exact _ _ (n - c) 0 53 R1).
    - rewrite pow2_0, minus_IZR. ring.
    - rewrite pow2_53. lra.
    - rewrite fexp_eq. lia. }
  subst r1.
  destruct (div_Rep _ (JS.ofZ 2) _ 2 H1) as (r2 & H2 & R2).
  { apply (ofZ_Rep 2). lia. }
  { lra. }
  { destruct (Req_dec (IZR n - IZR c) 0) as [E|E]; [now left|right].
    assert (1 <= IZR n - IZR c).
    { rewrite <- minus_IZR in *. apply (IZR_le 1).
      assert (n - c <> 0)%Z by (intros E0; apply E; now rewrite E0). lia. }
    split; [nra|lra]. }
  assert (E2 : r2 = (IZR n - IZR c) / 2).
  { apply (Rnd_exact _ _ (n - c) (-1) 52 R2).
    - rewrite minus_IZR, pow2_m1. lra.
    - rewrite <- pow2_IZR by lia. change (IZR (2 ^ 52)) with 4503599627370496. lra.
    - rewrite fexp_eq. lia. }
  subst r2.
  change (JS.ofZ 2) with 2%float in H2.
  destruct (Math_floor_Rep _ _ H2) as (a & Ha & Ha0 & Ha1).
  { rewrite pow2_53. lra. }
  exists a. split; [exact Ha|]. split; [exact Ha0|].
  assert (H : IZR (2 * a) < IZR (n - c + 1)).
  { rewrite mult_IZR, plus_IZR, minus_IZR. lra. }
  apply lt_IZR in H. lia.
Qed.

(** ** The dimensions of a resize *)

(** The scale of the [contain] mode is a number between 0 and 1. *)
Lemma contain_scale (srcW srcH boundW boundH : Z) :
  (0 < srcW < 2 ^ 53)%Z -> (0 < srcH < 2 ^ 53)%Z ->
  (0 < boundW < 2 ^ 53)%Z -> (0 < boundH < 2 ^ 53)%Z ->
  exists s,
    Rep (JS.Math_min3 (JS.ofZ boundW / JS.ofZ srcW)%float
                      (JS.ofZ boundH / JS.ofZ srcH)%float 1%float) s
    /\ s <= 1.
Proof.
  intros HW HH HBW HBH.
  destruct (div_integers boundW srcW HBW HW) as (ra & Ha & _).
  destruct (div_integers boundH srcH HBH HH) as (rb & Hb & _).
  exists (Rmin (Rmin ra rb) 1). split; [|apply Rmin_r].
  unfold JS.Math_min3. apply Math_min2_Rep; [now apply Math_min2_Rep|].
  apply (ofZ_Rep 1). lia.
Qed.

(** A source dimension scaled by a number between 0 and 1, and rounded. *)
Lemma scaled_dimension (n : Z) (scale : float) (s : R) :
  (0 < n < 2 ^ 53)%Z -> Rep scale s -> s <= 1 ->
  exists w : Z, JS.Math_round (JS.ofZ n * scale)%float = JS.ofZ w /\ (0 <= w <= n)%Z.
Proof.
  intros Hn Hs Hs1.
  assert (Hn' : 1 <= IZR n <= IZR (2 ^ 53) - 1) by (apply IZR_bounds; lia).
  change (IZR (2 ^ 53)) with 9007199254740992 in Hn'.
  pose proof (Rep_nonneg _ _ Hs) as Hs0.
  assert (Hrn : Rep (JS.ofZ n) (IZR n)) by (apply ofZ_Rep; lia).
  destruct (mul_Rep _ _ _ _ Hrn Hs) as (r & Hr & HR).
  { pose proof pow2_1000_large. nra. }
  assert (Hle : r <= IZR n) by (apply (Rnd_le _ _ _ _ HR Hrn); nra).
  destruct (Math_round_Rep _ _ Hr) as (w & Hw & Hw0 & Hw1).
  { rewrite pow2_53. lra. }
  exists w. split; [exact Hw|]. split; [exact Hw0|].
  assert (H : IZR w < IZR (n + 1)) by (rewrite plus_IZR; lra).
  apply lt_IZR in H. lia.
Qed.

(** [cover], the source relatively wider than the target: the width of the
    crop. *)
Lemma cover_crop_width (srcW srcH : Z) (targetAspect : float) (rt : R) :
  (0 < srcW < 2 ^ 53)%Z -> (0 < srcH < 2 ^ 53)%Z ->
  Rep targetAspect rt ->
  JS.gt (JS.ofZ srcW / JS.ofZ srcH)%float targetAspect = true ->
  exists c : Z,
    JS.Math_round (JS.ofZ srcH * targetAspect)%float = JS.ofZ c
    /\ (0 <= c <= srcW)%Z.
Proof.
  intros HW HH Ht Hgt.
  assert (HW' : 1 <= IZR srcW <= IZR (2 ^ 53) - 1) by (apply IZR_bounds; lia).
  assert (HH' : 1 <= IZR srcH <= IZR (2 ^ 53) - 1) by (apply IZR_bounds; lia).
  change (IZR (2 ^ 53)) with 9007199254740992 in *.
  destruct (div_integers srcW srcH HW HH) as (rx & Hx & RX).
  unfold JS.gt in Hgt. apply (ltb_Rep _ _ _ _ Ht Hx) in Hgt.
  pose proof (Rep_nonneg _ _ Ht) as Ht0.
  (* the target aspect is below the exact source aspect *)
  assert (Hlt : rt < IZR srcW / IZR srcH).
  { destruct (Rlt_le_dec rt (IZR srcW / IZR srcH)) as [H|H]; [exact H|].
    pose proof (Rnd_le _ _ _ _ RX Ht H). lra. }
  assert (Hprod : IZR srcH * rt < IZR srcW).
  { assert (E : IZR srcW / IZR srcH * IZR srcH = IZR srcW) by (field; lra).
    nra. }
  assert (HrW : Rep (JS.ofZ srcW) (IZR srcW)) by (apply ofZ_Rep; lia).
  assert (HrH : Rep (JS.ofZ srcH) (IZR srcH)) by (apply ofZ_Rep; lia).
  destruct (mul_Rep _ _ _ _ HrH Ht) as (r & Hr & HR).
  { pose proof pow2_1000_large. nra. }
  assert (Hle : r <= IZR srcW) by (apply (Rnd_le _ _ _ _ HR HrW); lra).
  destruct (Math_round_Rep _ _ Hr) as (c & Hc & Hc0 & Hc1).
  { rewrite pow2_53. lra. }
  exists c. split; [exact Hc|]. split; [exact Hc0|].
  assert (H : IZR c < IZR (srcW + 1)) by (rewrite plus_IZR; lra).
  apply lt_IZR in H. lia.
Qed.

(** [cover], the source relatively taller than the target: the height of
    the crop.  The two roundings of the quotients move the height by less
    than a half as long as it is below [2^51]. *)
Lemma cover_crop_height (srcW srcH : Z) (targetAspect : float) (rt : R) :
  (0 < srcW < 2 ^ 53)%Z -> (0 < srcH < 2 ^ 51)%Z ->
  Rep targetAspect rt -> rt < pow2 53 ->
  JS.gt (JS.ofZ srcW / JS.ofZ srcH)%float targetAspect = false ->
  exists d : Z,
    JS.Math_round (JS.ofZ srcW / targetAspect)%float = JS.ofZ d
    /\ (0 <= d <= srcH)%Z.
Proof.
  intros HW HH Ht Htmax Hgt.
  assert (HW' : 1 <= IZR srcW <= IZR (2 ^ 53) - 1) by (apply IZR_bounds; lia).
  assert (HH' : 1 <= IZR srcH <= IZR (2 ^ 51) - 1) by (apply IZR_bounds; lia).
  change (IZR (2 ^ 53)) with 9007199254740992 in *.
  change (IZR (2 ^ 51)) with 2251799813685248 in *. rewrite pow2_53 in Htmax.
  destruct (div_integers srcW srcH) as (rx & Hx & RX); [lia|lia|].
  assert (Hle : rx <= rt).
  { destruct (Rle_lt_dec rx rt) as [H|H]; [exact H|].
    apply (ltb_Rep _ _ _ _ Ht Hx) in H. unfold JS.gt in Hgt. congruence. }
  pose proof pow2_m53 as He. pose proof (pow2_pos (-53)) as He0.
  pose proof pow2_1000_large as Hbig. pose proof pow2_m1000_small as Hsmall.
  pose proof (pow2_pos (-1000)) as Hs0.
  set (eps := pow2 (-53)) in *.
  assert (Hq : IZR srcW / IZR srcH * IZR srcH = IZR srcW) by (field; lra).
  set (q := IZR srcW / IZR srcH) in *.
  assert (Hq0 : 0 < q) by nra.
  assert (Hq1 : / 2251799813685248 < q).
  { apply Rmult_lt_reg_r with (IZR srcH); [lra|]. rewrite Hq. nra. }
  (* the rounded source aspect is close to the exact one *)
  assert (Hrx : q - q * eps <= rx).
  { apply Rnd_error; [exact RX|].
    assert (pow2 (-1021) <= pow2 (-51)) by (apply pow2_le; lia).
    assert (pow2 (-51) * pow2 51 = 1) by (rewrite <- pow2_add; reflexivity).
    rewrite <- (pow2_IZR 51) in H0 by lia.
    change (IZR (2 ^ 51)) with 2251799813685248 in H0. lra. }
  assert (Hrt0 : 0 < rt) by nra.
  assert (Ha : IZR srcW / rt * rt = IZR srcW) by (field; lra).
  set (a := IZR srcW / rt) in *.
  assert (Ha0 : 0 < a) by nra.
  (* the quotient by the target aspect is not much above the height *)
  assert (Hah : a * (1 - eps) <= IZR srcH).
  { apply Rmult_le_reg_r with rt; [exact Hrt0|].
    replace (a * (1 - eps) * rt) with (IZR srcW * (1 - eps)) by (rewrite <- Ha; ring).
    rewrite <- Hq. nra. }
  assert (Ha2 : a <= 2 * IZR srcH) by nra.
  assert (HrW : Rep (JS.ofZ srcW) (IZR srcW)) by (apply ofZ_Rep; lia).
  destruct (div_Rep _ _ _ _ HrW Ht Hrt0) as (r & Hr & HR).
  { right. fold a. split.
    - apply Rmult_le_reg_r with rt; [exact Hrt0|]. rewrite Ha. nra.
    - lra. }
  fold a in HR.
  assert (Hra : r <= a + a * eps).
  { apply Rnd_error; [exact HR|].
    assert (pow2 (-1021) <= pow2 (-1000)) by (apply pow2_le; lia).
    assert (pow2 (-1000) <= a); [|lra].
    apply Rmult_le_reg_r with rt; [exact Hrt0|]. rewrite Ha. nra. }
  assert (Hrh : r < IZR srcH + / 2).
  { assert (H1 : r * (1 - eps) <= IZR srcH * (1 + eps)) by nra.
    assert (H2 : IZR srcH * (1 + eps) < (IZR srcH + / 2) * (1 - eps)) by nra.
    apply Rmult_lt_reg_r with (1 - eps); lra. }
  destruct (Math_round_Rep _ _ Hr) as (d & Hd & Hd0 & Hd1).
  { rewrite pow2_53. lra. }
  exists d. split; [exact Hd|]. split; [exact Hd0|].
  assert (H : IZR d < IZR (srcH + 1)) by (rewrite plus_IZR; lra).
  apply lt_IZR in H. lia.
Qed.

(** The ratio of a bound that is not set, which is the source dimension,
    to the source dimension is one. *)
Lemma self_ratio (n : Z) :
  (0 < n < 2 ^ 53)%Z -> (JS.ofZ n / JS.ofZ n)%float = 1%float.
Proof.
  intros Hn. destruct (div_integers n n Hn Hn) as (r & Hr & HR).
  assert (Hn1 : 1 <= IZR n) by (apply (IZR_le 1); lia).
  assert (E : IZR n / IZR n = 1) by (field; lra).
  rewrite E in HR.
  assert (r = 1).
  { apply (Rnd_exact _ _ 1 0 53 HR).
    - rewrite pow2_0. lra.
    - rewrite pow2_53. lra.
    - rewrite fexp_eq. lia. }
  subst r. apply (Rep_inj _ _ 1 Hr). apply (ofZ_Rep 1). lia.
Qed.

(** A source dimension that is not scaled is not changed by the rounding. *)
Lemma unscaled_dimension (n : Z) :
  (0 < n < 2 ^ 53)%Z -> JS.Math_round (JS.ofZ n * 1)%float = JS.ofZ n.
Proof.
  intros Hn.
  assert (Hn' : 1 <= IZR n <= IZR (2 ^ 53) - 1) by (apply IZR_bounds; lia).
  change (IZR (2 ^ 53)) with 9007199254740992 in Hn'.
  assert (Hrn : Rep (JS.ofZ n) (IZR n)) by (apply ofZ_Rep; lia).
  assert (Hr1 : Rep 1%float 1) by (apply (ofZ_Rep 1); lia).
  destruct (mul_Rep _ _ _ _ Hrn Hr1) as (r & Hr & HR).
  { pose proof pow2_1000_large. nra. }
  assert (r = IZR n * 1).
  { apply (Rnd_exact _ _ n 0 53 HR).
    - rewrite pow2_0. lra.
    - rewrite pow2_53. lra.
    - rewrite fexp_eq. lia. }
  subst r. destruct (Math_round_Rep _ _ Hr) as (z & Hz & Hz0 & Hz1).
  { rewrite pow2_53. lra. }
  rewrite Hz. f_equal.
  assert (H1 : IZR (z - 1) < IZR n) by (rewrite minus_IZR; lra).
  assert (H2 : IZR n < IZR (z + 1)) by (rewrite plus_IZR; lra).
  apply lt_IZR in H1, H2. lia.
Qed.


(** ** The size estimate on numbers *)

Lemma pow2_m2 : pow2 (-2) = / 4.
Proof. unfold pow2. simpl. now rewrite Rmult_1_r. Qed.

(** [Math.floor(length * 3 / 4) - padding], computed on numbers, is the
    number of the integer that [estimateBase64SizeBytes] computes on
    integers, for every length below [2^51]. *)
Lemma estimate_on_numbers (length padding : Z) :
  (0 <= length < 2 ^ 51)%Z -> (0 <= padding <= 2)%Z ->
  (JS.Math_floor (JS.ofZ length * 3 / 4) - JS.ofZ padding)%float
  = JS.ofZ (length * 3 / 4 - padding).
Proof.
  intros Hl Hp.
  destruct (Z.lt_ge_cases length 3) as [Hs|Hs].
  - assert (Hc : (length = 0 \/ length = 1 \/ length = 2)%Z) by lia.
    assert (Hd : (padding = 0 \/ padding = 1 \/ padding = 2)%Z) by lia.
    destruct Hc as [-> | [-> | ->]]; destruct Hd as [-> | [-> | ->]];
      vm_compute; reflexivity.
  - assert (Hl' : 3 <= IZR length <= IZR (2 ^ 51) - 1) by (apply IZR_bounds; lia).
    change (IZR (2 ^ 51)) with 2251799813685248 in Hl'.
    assert (Hp' : 0 <= IZR padding <= 2).
    { split; [apply (IZR_le 0)|apply (IZR_le _ 2)]; lia. }
    pose proof pow2_1000_large as Hbig. pose proof pow2_m1000_small as Hsmall.
    pose proof (pow2_pos (-1000)) as Hs0.
    destruct (mul_Rep (JS.ofZ length) 3%float (IZR length) 3) as (r1 & H1 & R1).
    { apply ofZ_Rep. lia. }
    { apply (ofZ_Rep 3). lia. }
    { lra. }
    assert (E1 : r1 = IZR length * 3).
    { apply (Rnd_exact _ _ (length * 3) 0 53 R1).
      - rewrite pow2_0, mult_IZR. lra.
      - rewrite pow2_53. lra.
      - rewrite fexp_eq. lia. }
    subst r1.
    destruct (div_Rep _ 4%float _ 4 H1) as (r2 & H2 & R2).
    { apply (ofZ_Rep 4). lia. }
    { lra. }
    { right. split; [nra|lra]. }
    assert (E2 : r2 = IZR length * 3 / 4).
    { apply (Rnd_exact _ _ (length * 3) (-2) 51 R2).
      - rewrite pow2_m2, mult_IZR. lra.
      - rewrite <- pow2_IZR by lia. change (IZR (2 ^ 51)) with 2251799813685248. lra.
      - rewrite fexp_eq. lia. }
    subst r2.
    destruct (Math_floor_Rep _ _ H2) as (z & Hz & Hz0 & Hz1).
    { rewrite pow2_53. lra. }
    assert (Ez : z = (length * 3 / 4)%Z).
    { assert (A1 : IZR (4 * z) <= IZR (length * 3)) by (rewrite !mult_IZR; lra).
      assert (A2 : IZR (length * 3) < IZR (4 * z + 4))
        by (rewrite plus_IZR, !mult_IZR; lra).
      apply le_IZR in A1. apply lt_IZR in A2.
      apply Z.div_unique with (length * 3 - 4 * z)%Z; lia. }
    rewrite Hz, Ez. set (n := (length * 3 / 4)%Z) in *.
    assert (Hn : (2 <= n < 2 ^ 53)%Z).
    { unfold n. split.
      - apply Z.div_le_lower_bound; lia.
      - apply Z.div_lt_upper_bound; lia. }
    assert (Hn' : 2 <= IZR n <= IZR (2 ^ 53) - 1) by (apply IZR_bounds; lia).
    change (IZR (2 ^ 53)) with 9007199254740992 in Hn'.
    destruct (sub_Rep (JS.ofZ n) (JS.ofZ padding) (IZR n) (IZR padding))
      as (r3 & H3 & R3).
    { apply ofZ_Rep. lia. }
    { apply ofZ_Rep. lia. }
    { lra. }
    { lra. }
    assert (E3 : r3 = IZR n - IZR padding).
    { apply (Rnd_exact _ _ (n - padding) 0 53 R3).
      - rewrite pow2_0, minus_IZR. lra.
      - rewrite pow2_53. lra.
      - rewrite fexp_eq. lia. }
    subst r3. apply (Rep_inj _ _ (IZR n - IZR padding) H3).
    rewrite <- minus_IZR. apply ofZ_Rep. lia.
Qed.

End FloatFacts.

(* ================================================================== *)
(** * ResizeGeometryCalculator *)
(* ================================================================== *)

Module ResizeFacts.

Import Utils Binary64 FloatFacts.

Local Open Scope float_scope.

(** ** Comparisons of numbers *)

Lemma SFcompare_antisym (x y : spec_float) :
  SFcompare y x = option_map CompOpp (SFcompare x y).
Proof.
  destruct x as [sx|sx| |sx mx ex], y as [sy|sy| |sy my ey]; simpl;
    try destruct sx; try destruct sy; try reflexivity;
    rewrite (Z.compare_antisym ey ex);
    destruct (ey ?= ex)%Z; simpl; try reflexivity;
    change PosDef.Pos.compare_cont with Pos.compare_cont;
    rewrite (Pos.compare_cont_antisym mx my Eq); simpl;
    destruct (Pos.compare_cont Eq my mx); reflexivity.
Qed.

(** [x < y] and [y < x] do not both hold. *)
Lemma ltb_asym (x y : float) : (x <? y) = true -> (y <? x) = false.
Proof.
  rewrite !FloatAxioms.ltb_spec. unfold SFltb. rewrite (SFcompare_antisym (Prim2SF x) (Prim2SF y)).
  destruct (SFcompare (Prim2SF x) (Prim2SF y)) as [[]|]; simpl; congruence.
Qed.

(** The least of three numbers, the last of which is one, is not above
    one. *)
Lemma min3_one_not_above (a b : float) : JS.gt (JS.Math_min3 a b 1) 1 = false.
Proof.
  unfold JS.gt, JS.Math_min3. generalize (JS.Math_min2 a b) as m. intros m.
  unfold JS.Math_min2.
  destruct (is_nan m || is_nan 1); [reflexivity|].
  destruct (m <? 1) eqn:E1; [now apply ltb_asym|].
  destruct (1 <? m) eqn:E2; [reflexivity|].
  destruct (get_sign m); [exact E2|reflexivity].
Qed.

(** ** The two fit modes *)

(** C3: in the [contain] mode the output is
    [round (srcW * scale)] by [round (srcH * scale)] with
    [scale = min (maxW / srcW, maxH / srcH, 1)], a bound that is not set
    being the source dimension, and the sampling rectangle is the whole
    source.  The scale is never above one.  The ratio of a bound that is not
    set is one, so that it does not constrain: with no bounds the output is
    the source.  A 4000 x 2000 source with the bounds 1000 and 1000 gives
    1000 x 500 and the rectangle (0, 0, 4000, 2000). *)
Theorem contain_geometry (srcW srcH : float) (maxW maxH : option float) :
  let boundW := match maxW with Some b => b | None => srcW end in
  let boundH := match maxH with Some b => b | None => srcH end in
  let scale := JS.Math_min3 (boundW / srcW) (boundH / srcH) 1 in
  computeResize srcW srcH maxW maxH contain
  = {| width := JS.Math_round (srcW * scale);
       height := JS.Math_round (srcH * scale);
       sx := 0; sy := 0; sWidth := srcW; sHeight := srcH |}
  /\ JS.gt scale 1 = false
  /\ (forall n : Z, (0 < n < 2 ^ 53)%Z -> JS.ofZ n / JS.ofZ n = 1)
  /\ (forall w h : Z, (0 < w < 2 ^ 53)%Z -> (0 < h < 2 ^ 53)%Z ->
        computeResize (JS.ofZ w) (JS.ofZ h) None None contain
        = {| width := JS.ofZ w; height := JS.ofZ h;
             sx := 0; sy := 0; sWidth := JS.ofZ w; sHeight := JS.ofZ h |})
  /\ computeResize 4000 2000 (Some 1000) (Some 1000) contain
     = {| width := 1000; height := 500;
          sx := 0; sy := 0; sWidth := 4000; sHeight := 2000 |}.
Proof.
  cbv zeta. split; [|split; [|split; [|split]]].
  - destruct maxW, maxH; reflexivity.
  - apply min3_one_not_above.
  - exact self_ratio.
  - intros w h Hw Hh. unfold computeResize. cbn [JS.nullish]. cbv zeta.
    rewrite (self_ratio w Hw), (self_ratio h Hh).
    change (JS.Math_min3 1 1 1) with 1.
    now rewrite (unscaled_dimension w Hw), (unscaled_dimension h Hh).
  - vm_compute. reflexivity.
Qed.

Lemma contain_geometry_witness :
  computeResize 1920 1080 None None contain
  = {| width := 1920; height := 1080;
       sx := 0; sy := 0; sWidth := 1920; sHeight := 1080 |}.
Proof.
  apply (contain_geometry 1920 1080 None None : _ /\ _ /\ _ /\ _ /\ _)
    with (w := 1920%Z) (h := 1080%Z); lia.
Defined.

(** C4: in the [cover] mode the output is the effective bounds.  When the
    aspect of the source is above the aspect of the bounds the sampling
    width is [round (srcH * (maxW / maxH))] and the height is the whole
    height; otherwise the sampling height is [round (srcW / (maxW / maxH))]
    and the width is the whole width.  The origin of the rectangle is the
    floor of half of what is left on each axis.  A 4000 x 2000 source with
    the bounds 1000 and 1000 gives 1000 x 1000 and the rectangle
    (1000, 0, 2000, 2000). *)
Theorem cover_geometry (srcW srcH : float) (maxW maxH : option float) :
  let boundW := match maxW with Some b => b | None => srcW end in
  let boundH := match maxH with Some b => b | None => srcH end in
  let targetAspect := boundW / boundH in
  let g := computeResize srcW srcH maxW maxH cover in
  width g = boundW /\ height g = boundH
  /\ (JS.gt (srcW / srcH) targetAspect = true ->
        sWidth g = JS.Math_round (srcH * targetAspect) /\ sHeight g = srcH)
  /\ (JS.gt (srcW / srcH) targetAspect = false ->
        sWidth g = srcW /\ sHeight g = JS.Math_round (srcW / targetAspect))
  /\ sx g = JS.Math_floor ((srcW - sWidth g) / 2)
  /\ sy g = JS.Math_floor ((srcH - sHeight g) / 2)
  /\ computeResize 4000 2000 (Some 1000) (Some 1000) cover
     = {| width := 1000; height := 1000;
          sx := 1000; sy := 0; sWidth := 2000; sHeight := 2000 |}.
Proof.
  cbv zeta. unfold computeResize.
  replace (JS.nullish maxW srcW) with (match maxW with Some b => b | None => srcW end)
    by reflexivity.
  replace (JS.nullish maxH srcH) with (match maxH with Some b => b | None => srcH end)
    by reflexivity.
  cbv zeta.
  destruct (JS.gt (srcW / srcH) _); cbn [width height sx sy sWidth sHeight];
    repeat split; try reflexivity; try discriminate.
Qed.

Lemma cover_geometry_witness :
  sWidth (computeResize 4000 2000 (Some 1000) (Some 1000) cover) = 2000
  /\ sHeight (computeResize 3000 4000 (Some 1000) (Some 1000) cover) = 3000.
Proof.
  split.
  - apply (cover_geometry 4000 2000 (Some 1000) (Some 1000)). reflexivity.
  - apply (cover_geometry 3000 4000 (Some 1000) (Some 1000)). reflexivity.
Defined.


(** ** The invariant of the geometry *)

Lemma effective_bound (bound : option Z) (src : Z) :
  JS.nullish (option_map JS.ofZ bound) (JS.ofZ src)
  = JS.ofZ (match bound with Some b => b | None => src end).
Proof. now destruct bound. Qed.

(** C2, as the specification words it, fails in both modes.  In the
    [contain] mode a 4 x 1 source with the bound 1 on the width gets the
    output height 0.  In the [cover] mode a 22561687 x 4013121594989452
    source with no bounds gets a sampling rectangle one row higher than the
    source, from the row -1. *)
Lemma computeResize_out_of_bounds :
  height (computeResize 4 1 (Some 1) None contain) = 0
  /\ sHeight (computeResize 22561687 4013121594989452 None None cover)
     = 4013121594989453
  /\ sy (computeResize 22561687 4013121594989452 None None cover) = (-1).
Proof. vm_compute. repeat split; reflexivity. Qed.

(** C2 (amended): for a source width that is a positive integer below
    [2^53], a source height that is a positive integer below [2^51] and
    bounds that are positive integers below [2^53], in both modes, every
    field of the geometry is an integer; the sampling rectangle lies within
    the source; the output width and height are not negative; they are not
    above the source dimensions in the [contain] mode, where they can be 0,
    and they are the effective bounds, hence at least 1, in the [cover]
    mode. *)
Theorem computeResize_bounds (srcW srcH : Z) (maxW maxH : option Z) (fit : FitMode) :
  (0 < srcW < 2 ^ 53)%Z -> (0 < srcH < 2 ^ 51)%Z ->
  (forall b, maxW = Some b -> 0 < b < 2 ^ 53)%Z ->
  (forall b, maxH = Some b -> 0 < b < 2 ^ 53)%Z ->
  exists w h x y c d : Z,
    computeResize (JS.ofZ srcW) (JS.ofZ srcH)
                  (option_map JS.ofZ maxW) (option_map JS.ofZ maxH) fit
    = {| width := JS.ofZ w; height := JS.ofZ h;
         sx := JS.ofZ x; sy := JS.ofZ y;
         sWidth := JS.ofZ c; sHeight := JS.ofZ d |}
    /\ (0 <= x /\ 0 <= y /\ 0 <= c /\ 0 <= d /\ x + c <= srcW /\ y + d <= srcH)%Z
    /\ (0 <= w /\ 0 <= h)%Z
    /\ (fit = contain -> w <= srcW /\ h <= srcH)%Z
    /\ (fit = cover ->
        w = match maxW with Some b => b | None => srcW end
        /\ h = match maxH with Some b => b | None => srcH end
        /\ 1 <= w /\ 1 <= h)%Z.
Proof.
  intros HW HH HmW HmH.
  set (boundW := match maxW with Some b => b | None => srcW end).
  set (boundH := match maxH with Some b => b | None => srcH end).
  assert (HBW : (0 < boundW < 2 ^ 53)%Z).
  { unfold boundW. destruct maxW as [b|]; [now apply HmW|lia]. }
  assert (HBH : (0 < boundH < 2 ^ 53)%Z).
  { unfold boundH. destruct maxH as [b|]; [now apply HmH|lia]. }
  unfold computeResize. rewrite !effective_bound. fold boundW boundH.
  destruct fit.
  - (* contain *)
    destruct (contain_scale srcW srcH boundW boundH) as (s & Hs & Hs1); try lia.
    destruct (scaled_dimension srcW _ s ltac:(lia) Hs Hs1) as (w & Ew & Hw).
    destruct (scaled_dimension srcH _ s ltac:(lia) Hs Hs1) as (h & Eh & Hh).
    exists w, h, 0%Z, 0%Z, srcW, srcH. cbv zeta. rewrite Ew, Eh.
    split; [reflexivity|]. repeat split; try lia; discriminate.
  - (* cover *)
    destruct (div_integers boundW boundH HBW HBH) as (rt & Ht & RT).
    assert (Hrt : (rt < pow2 53)%R).
    { assert (Hb : (1 <= IZR boundH)%R) by (apply (IZR_le 1); lia).
      assert (Hw : (1 <= IZR boundW <= IZR (2 ^ 53) - 1)%R)
        by (apply IZR_bounds; lia).
      change (IZR (2 ^ 53)) with 9007199254740992%R in Hw.
      assert (Hq : (IZR boundW / IZR boundH * IZR boundH = IZR boundW)%R)
        by (field; lra).
      assert (Hle : (rt <= IZR boundW)%R).
      { apply (Rnd_le _ _ (JS.ofZ boundW) _ RT).
        - apply ofZ_Rep. lia.
        - nra. }
      rewrite pow2_53. lra. }
    cbv zeta.
    destruct (JS.gt (JS.ofZ srcW / JS.ofZ srcH) (JS.ofZ boundW / JS.ofZ boundH)) eqn:G.
    + destruct (cover_crop_width srcW srcH _ rt ltac:(lia) ltac:(lia) Ht G)
        as (c & Ec & Hc).
      destruct (centered_offset srcW c ltac:(lia) ltac:(lia)) as (x & Ex & Hx).
      destruct (centered_offset srcH srcH ltac:(lia) ltac:(lia)) as (y & Ey & Hy).
      exists boundW, boundH, x, y, c, srcH. rewrite Ec, Ex, Ey.
      split; [reflexivity|]. repeat split; try lia; discriminate.
    + destruct (cover_crop_height srcW srcH _ rt HW HH Ht Hrt G)
        as (d & Ed & Hd).
      destruct (centered_offset srcW srcW ltac:(lia) ltac:(lia)) as (x & Ex & Hx).
      destruct (centered_offset srcH d ltac:(lia) ltac:(lia)) as (y & Ey & Hy).
      exists boundW, boundH, x, y, srcW, d. rewrite Ed, Ex, Ey.
      split; [reflexivity|]. repeat split; try lia; discriminate.
Qed.

Lemma computeResize_bounds_witness :
  exists w h x y c d : Z,
    computeResize 4000 2000 (Some 1000%float) (Some 1000%float) cover
    = {| width := JS.ofZ w; height := JS.ofZ h;
         sx := JS.ofZ x; sy := JS.ofZ y;
         sWidth := JS.ofZ c; sHeight := JS.ofZ d |}
    /\ (0 <= x /\ 0 <= y /\ 0 <= c /\ 0 <= d /\ x + c <= 4000 /\ y + d <= 2000)%Z
    /\ (0 <= w /\ 0 <= h)%Z
    /\ (cover = contain -> w <= 4000 /\ h <= 2000)%Z
    /\ (cover = cover -> w = 1000 /\ h = 1000 /\ 1 <= w /\ 1 <= h)%Z.
Proof.
  apply (computeResize_bounds 4000 2000 (Some 1000%Z) (Some 1000%Z) cover).
  - lia.
  - lia.
  - intros b [= <-]. lia.
  - intros b [= <-]. lia.
Defined.

End ResizeFacts.

(* ================================================================== *)
(** * File extensions and sizes *)
(* ================================================================== *)

Module NamingFacts.

Import Utils Convert.

(** The extension of the resolved target: the extension of the target for
    the four image targets, whatever the source is, and the extension of the
    source for every other target; the octet-stream default of a source
    without a type does not change the extension, which is [bin]. *)
Theorem extension_of_resolved_target (sourceMime : string) (target : option string) :
  mimeToExtension (normalizeTargetMime sourceMime target)
  = if JS.falsy target || JS.isLit target "original" || JS.isLit target "base64"
    then mimeToExtension sourceMime
    else if JS.isLit target "png" then "png"
    else if JS.isLit target "jpeg" then "jpg"
    else if JS.isLit target "webp" then "webp"
    else if JS.isLit target "svg" then "svg"
    else mimeToExtension sourceMime.
Proof.
  assert (H : mimeToExtension (JS.orElse sourceMime "application/octet-stream")
              = mimeToExtension sourceMime).
  { unfold JS.orElse. now destruct (String.eqb_spec sourceMime "") as [->|_]. }
  unfold normalizeTargetMime.
  destruct (JS.falsy target || JS.isLit target "original" || JS.isLit target "base64");
    [exact H|].
  destruct (JS.isLit target "png"); [reflexivity|].
  destruct (JS.isLit target "jpeg"); [reflexivity|].
  destruct (JS.isLit target "webp"); [reflexivity|].
  destruct (JS.isLit target "svg"); [reflexivity|exact H].
Qed.

(** The type handed to the encoder always has an extension of its own:
    [jpg] or [webp] for these two requests and [png] for every other
    request, never the [bin] of an unknown type. *)
Theorem extension_of_encoder_type (requested : string) :
  mimeToExtension (clampCanvasMime requested)
  = (if String.eqb requested "image/jpeg" then "jpg"
     else if String.eqb requested "image/webp" then "webp"
     else "png")
  /\ mimeToExtension (clampCanvasMime requested) <> "bin".
Proof.
  unfold clampCanvasMime.
  destruct (String.eqb_spec requested "image/jpeg") as [->|H1].
  - split; [reflexivity|discriminate].
  - destruct (String.eqb_spec requested "image/webp") as [->|H2].
    + split; [reflexivity|discriminate].
    + split; [reflexivity|discriminate].
Qed.

(** The types that get the [svg] extension are the types [isSvgMime]
    accepts. *)
Theorem svg_extension_iff (mime : string) :
  mimeToExtension mime = "svg" <-> isSvgMime (Some mime) = true.
Proof.
  unfold mimeToExtension, isSvgMime, JS.isLit.
  destruct (String.eqb_spec mime "image/png") as [->|_]; [now split|].
  destruct (String.eqb_spec mime "image/jpeg") as [->|_]; [now split|].
  destruct (String.eqb_spec mime "image/webp") as [->|_]; [now split|].
  destruct (String.eqb mime "image/svg+xml" || String.eqb mime "image/svg");
    [now split|].
  destruct (String.eqb mime "image/gif"); [now split|].
  destruct (String.eqb mime "image/bmp"); now split.
Qed.

End NamingFacts.

Module PayloadFacts.

Import Utils Convert.

(** ** The size estimate *)

Lemma app_empty (s : string) : s ++ "" = s.
Proof. induction s as [|a s IH]; simpl; congruence. Qed.

Lemma lastChar_not_pad (s : string) :
  JS.endsWith s "=" = false -> Stated.lastChar s <> Some "="%char.
Proof.
  intros H E. apply StringFacts.endsWith_one in E. congruence.
Qed.

Lemma paddingCount_none (s : string) :
  JS.endsWith s "=" = false -> Stated.paddingCount s = 0.
Proof.
  intros H. apply lastChar_not_pad in H. unfold Stated.paddingCount.
  destruct (Stated.lastChar s) as [c|]; [|reflexivity].
  destruct (Ascii.eqb_spec c "="%char) as [->|Hc]; [congruence|].
  destruct c as [[] [] [] [] [] [] [] []]; try reflexivity; congruence.
Qed.

Lemma paddingCount_one (s : string) :
  JS.endsWith s "=" = false -> Stated.paddingCount (s ++ "=") = 1.
Proof.
  intros H. apply lastChar_not_pad in H. unfold Stated.paddingCount.
  rewrite StringFacts.lastChar_app, StringFacts.dropLast_app by discriminate.
  simpl Stated.lastChar at 1. simpl Stated.dropLast.
  rewrite app_empty.
  destruct (Stated.lastChar s) as [c|]; [|reflexivity].
  destruct (Ascii.eqb_spec c "="%char) as [->|Hc]; [congruence|].
  destruct c as [[] [] [] [] [] [] [] []]; try reflexivity; congruence.
Qed.

Lemma paddingCount_two (s : string) : Stated.paddingCount (s ++ "==") = 2.
Proof.
  unfold Stated.paddingCount.
  rewrite StringFacts.lastChar_app, StringFacts.dropLast_app by discriminate.
  simpl Stated.lastChar at 1. simpl Stated.dropLast.
  now rewrite StringFacts.lastChar_app by discriminate.
Qed.

Lemma len_app (p s : string) : JS.len (p ++ s) = JS.len p + JS.len s.
Proof. unfold JS.len. rewrite StringFacts.length_app. lia. Qed.

(** The estimate is exact on well-formed base64: for the payload of [n]
    bytes, which is [4 * ceil (n / 3)] characters long and ends with
    [(3 - n mod 3) mod 3] pad characters, after a header without a comma,
    the estimate is [n]. *)
Theorem estimate_of_encoded_bytes (header body : string) (n : Z) :
  Stated.lacks "," header = true ->
  0 <= n ->
  JS.endsWith body "=" = false ->
  JS.len body + (3 - n mod 3) mod 3 = 4 * ((n + 2) / 3) ->
  estimateBase64SizeBytes
    (header ++ "," ++ body ++ Sample.repeat "=" (Z.to_nat ((3 - n mod 3) mod 3)))
  = n.
Proof.
  intros Hh Hn Hb Hlen.
  change (header ++ "," ++ ?p) with (header ++ String "," p).
  rewrite (UtilsFacts.estimate_payload _ _ Hh).
  pose proof (Z.mod_pos_bound n 3 ltac:(lia)) as Hr.
  pose proof (Z.div_mod n 3 ltac:(lia)) as Hq.
  assert (Hc : (n mod 3 = 0 /\ (n + 2) / 3 = n / 3)
               \/ (n mod 3 = 1 /\ (n + 2) / 3 = n / 3 + 1)
               \/ (n mod 3 = 2 /\ (n + 2) / 3 = n / 3 + 1)).
  { assert (n mod 3 = 0 \/ n mod 3 = 1 \/ n mod 3 = 2) as [E|[E|E]] by lia.
    - left. split; [exact E|]. symmetry. apply (Z.div_unique _ _ _ 2); lia.
    - right; left. split; [exact E|]. symmetry. apply (Z.div_unique _ _ _ 0); lia.
    - right; right. split; [exact E|]. symmetry. apply (Z.div_unique _ _ _ 1); lia. }
  destruct Hc as [[E Ec]|[[E Ec]|[E Ec]]]; rewrite E, Ec in Hlen; rewrite E.
  - change (Z.to_nat ((3 - 0) mod 3)) with 0%nat. simpl Sample.repeat.
    rewrite app_empty.
    change ((3 - 0) mod 3) with 0 in Hlen.
    rewrite (paddingCount_none _ Hb).
    replace (JS.len body) with (4 * (n / 3)) by lia.
    replace (4 * (n / 3) * 3) with (3 * (n / 3) * 4) by ring.
    rewrite Z.div_mul by lia. lia.
  - change (Z.to_nat ((3 - 1) mod 3)) with 2%nat. simpl Sample.repeat.
    change ((3 - 1) mod 3) with 2 in Hlen.
    rewrite paddingCount_two, len_app. change (JS.len "==") with 2.
    replace (JS.len body + 2) with (4 * (n / 3 + 1)) by lia.
    replace (4 * (n / 3 + 1) * 3) with (3 * (n / 3 + 1) * 4) by ring.
    rewrite Z.div_mul by lia. lia.
  - change (Z.to_nat ((3 - 2) mod 3)) with 1%nat. simpl Sample.repeat.
    change ((3 - 2) mod 3) with 1 in Hlen.
    rewrite (paddingCount_one _ Hb), len_app. change (JS.len "=") with 1.
    replace (JS.len body + 1) with (4 * (n / 3 + 1)) by lia.
    replace (4 * (n / 3 + 1) * 3) with (3 * (n / 3 + 1) * 4) by ring.
    rewrite Z.div_mul by lia. lia.
Qed.

Lemma estimate_of_encoded_bytes_witness :
  estimateBase64SizeBytes ("data:image/png;base64,QUJDRA==") = 4.
Proof.
  apply (estimate_of_encoded_bytes "data:image/png;base64" "QUJDRA" 4);
    reflexivity || lia.
Defined.

(** The estimate is never below [-1], and it is [-1] exactly when the
    payload, the text after the first comma or the whole text without a
    comma, is one or two pad characters. *)
Theorem estimate_at_least_minus_one (s : string) :
  -1 <= estimateBase64SizeBytes s
  /\ (estimateBase64SizeBytes s = -1 <->
      match Stated.afterFirstComma s with Some rest => rest | None => s end = "="
      \/ match Stated.afterFirstComma s with Some rest => rest | None => s end = "==").
Proof.
  rewrite UtilsFacts.estimate_as_stated. unfold Stated.estimateBytes. cbv zeta.
  generalize (match Stated.afterFirstComma s with Some rest => rest | None => s end).
  intros p. rewrite <- StringFacts.padding_count.
  destruct p as [|a [|b [|c p]]].
  - split; [cbn; lia|]. cbn. split; [lia|intros [H|H]; discriminate H].
  - cbn. destruct (Ascii.eqb_spec a "="%char) as [->|Ha]; cbn.
    + split; [lia|]. split; [now left|reflexivity].
    + split; [lia|]. split; [lia|intros [H|H]; congruence].
  - cbn. destruct (Ascii.eqb_spec b "="%char) as [->|Hb];
      destruct (Ascii.eqb_spec a "="%char) as [->|Ha]; cbn.
    + split; [lia|]. split; [now right|reflexivity].
    + split; [lia|]. split; [lia|intros [H|H]; congruence].
    + split; [lia|]. split; [lia|intros [H|H]; congruence].
    + split; [lia|]. split; [lia|intros [H|H]; congruence].
  - assert (Hl : 3 <= JS.len (String a (String b (String c p)))).
    { rewrite !StringFacts.len_String. pose proof (StringFacts.len_nonneg p). lia. }
    assert (Hd : 2 <= JS.len (String a (String b (String c p))) * 3 / 4).
    { apply Z.div_le_lower_bound; lia. }
    assert (Hp : (if JS.endsWith (String a (String b (String c p))) "==" then 2
                  else if JS.endsWith (String a (String b (String c p))) "=" then 1
                  else 0) <= 2).
    { destruct (JS.endsWith _ "=="); [lia|]. destruct (JS.endsWith _ "="); lia. }
    split; [lia|]. split; [lia|intros [H|H]; discriminate H].
Qed.

(** ** The media type of a payload *)

Lemma startsWith_app (s p : string) :
  JS.startsWith s p = true -> s = p ++ JS.drop (String.length p) s.
Proof.
  revert s. induction p as [|b p IH]; intros s H; [reflexivity|].
  destruct s as [|a s]; [discriminate H|].
  simpl in H. apply andb_prop in H as [Hab H].
  apply Ascii.eqb_eq in Hab. subst b. simpl. f_equal. now apply IH.
Qed.

Lemma take_indexOf_lacks (c : ascii) (s : string) :
  0 <= JS.indexOf c s ->
  Stated.lacks c (JS.take (Z.to_nat (JS.indexOf c s)) s) = true.
Proof.
  induction s as [|a s IH]; simpl JS.indexOf; [lia|].
  destruct (Ascii.eqb a c) eqn:E; [reflexivity|].
  destruct (Z.ltb_spec (JS.indexOf c s) 0) as [Hlt|Hge]; [lia|]. intros _.
  replace (Z.to_nat (JS.indexOf c s + 1)) with (S (Z.to_nat (JS.indexOf c s))) by lia.
  simpl. rewrite E. simpl. now apply IH.
Qed.

Lemma length_take (n : nat) (s : string) :
  (n <= String.length s)%nat -> String.length (JS.take n s) = n.
Proof.
  revert s. induction n as [|n IH]; intros s H; [reflexivity|].
  destruct s as [|a s]; simpl in *; [lia|]. rewrite IH; lia.
Qed.

(** The media type read from a payload is never empty and holds no
    semicolon: it is the octet-stream type, or what stands between [data:]
    and the first semicolon, so that parameters such as a charset are left
    out. *)
Theorem extracted_mime_shape (payload : string) :
  extractMimeFromDataUrl payload <> ""
  /\ Stated.lacks ";" (extractMimeFromDataUrl payload) = true.
Proof.
  split.
  - unfold extractMimeFromDataUrl. cbv zeta.
    destruct (JS.startsWith payload "data:") eqn:Hs; [|discriminate].
    destruct (Z.gtb_spec (JS.indexOf ";" payload) 5) as [Hgt|Hle]; [|discriminate].
    cbn [andb].
    destruct (StringFacts.indexOf_range ";" payload) as [Hi|Hi]; [lia|].
    rewrite StringFacts.slice_take_drop by lia.
    intros E. apply (f_equal String.length) in E.
    rewrite length_take in E.
    + simpl in E. lia.
    + rewrite StringFacts.length_drop. unfold JS.len in Hi. lia.
  - unfold extractMimeFromDataUrl. cbv zeta.
    destruct (JS.startsWith payload "data:") eqn:Hs; [|reflexivity].
    destruct (Z.gtb_spec (JS.indexOf ";" payload) 5) as [Hgt|Hle]; [|reflexivity].
    cbn [andb].
    destruct (StringFacts.indexOf_range ";" payload) as [Hi|Hi]; [lia|].
    rewrite StringFacts.slice_take_drop by lia.
    apply startsWith_app in Hs. change (String.length "data:") with 5%nat in Hs.
    revert Hgt Hi. rewrite Hs. generalize (JS.drop 5 payload) as rest. intros rest.
    change (JS.indexOf ";" ("data:" ++ rest))
      with (let i := JS.indexOf ";" rest in
            let i1 := if i <? 0 then -1 else i + 1 in
            let i2 := if i1 <? 0 then -1 else i1 + 1 in
            let i3 := if i2 <? 0 then -1 else i2 + 1 in
            let i4 := if i3 <? 0 then -1 else i3 + 1 in
            if i4 <? 0 then -1 else i4 + 1).
    cbv zeta.
    destruct (Z.ltb_spec (JS.indexOf ";" rest) 0) as [Hlt|Hge]; [cbn; lia|].
    repeat match goal with
           | |- context [?x <? 0] =>
               replace (x <? 0) with false by (symmetry; apply Z.ltb_ge; lia)
           end.
    intros _ _.
    replace (JS.indexOf ";" rest + 1 + 1 + 1 + 1 + 1 - 5) with (JS.indexOf ";" rest) by lia.
    change (JS.drop (Z.to_nat 5) ("data:" ++ rest)) with rest.
    now apply take_indexOf_lacks.
Qed.

End PayloadFacts.

Module PipelineFacts.

Import Utils Convert.

Ltac steps :=
  repeat first
    [ apply ConvertFacts.Forall_ret
    | apply ConvertFacts.Forall_throw
    | apply ConvertFacts.Forall_pending
    | apply ConvertFacts.Forall_call
    | apply ConvertFacts.Forall_bind; [|intros ? _]
    | apply ConvertFacts.Forall_tryCatch; [|intros ? _]
    | match goal with
      | |- Forall _ (events (if ?b then _ else _)) => destruct b
      | |- Forall _ (events (match ?x with _ => _ end)) => destruct x
      end ].

(** A property of one call, by cases. *)
Ltac plain :=
  repeat split; intros; cbn in *;
  try discriminate; try reflexivity; try congruence.

Lemma filter_none {A : Type} (f : A -> bool) (l : list A) :
  Forall (fun a => f a = false) l -> filter f l = [].
Proof.
  induction 1 as [|a l Ha _ IH]; [reflexivity|]. simpl. now rewrite Ha.
Qed.

Section Runs.

Context {Err : Type} (P : Platform Err).

(** ** Object URLs *)

(** The render path after the decode calls nothing on object URLs, and
    settles. *)
Lemma after_decode (file : File) (options : ConvertOptions)
    (originalMime targetMimeRequested : string) :
  exists k : ImageBitmap -> M Err ConvertResult,
    render P file options originalMime targetMimeRequested
    = bind (readFileAsArrayBuffer P file)
        (fun bytes =>
           bind (tryCatch (blobToImageBitmap P {| blob_bytes := bytes;
                                                   blob_type := originalMime |})
                          (decodeFallback P {| blob_bytes := bytes;
                                               blob_type := originalMime |})) k)
    /\ (forall bitmap, filter Trace.objectUrlCall (events (k bitmap)) = [])
    /\ (forall bitmap, outcome (k bitmap) <> inl Pending).
Proof.
  eexists. split; [unfold render; cbv zeta; reflexivity|]. split.
  - intros bitmap. apply filter_none.
    unfold canvasToDataURL, createCanvas, readFileAsDataURL. steps; reflexivity.
  - intros bitmap.
    apply ConvertFacts.settled_bind; [apply ConvertFacts.createCanvas_settled|intros c0 _].
    apply ConvertFacts.settled_bind.
    { destruct (String.eqb _ "image/jpeg"); discriminate. }
    intros c1 _.
    apply ConvertFacts.settled_bind; [discriminate|intros c2 _].
    apply ConvertFacts.settled_bind; [apply ConvertFacts.canvasToDataURL_settled|intros url _].
    discriminate.
Qed.

(** The object URL of the fallback decode.  A conversion that settles, with
    a result or with an error, has revoked the URL it created: its calls on
    object URLs are none, or one creation followed by the revocation of the
    same URL, whether the image loads or not.  A conversion that never
    settles is one where [createImageBitmap(img)] throws in [onload]: its
    URL was created and is not revoked, and the load of the image is its
    last call. *)
Theorem object_url_released (file : File) (options : ConvertOptions) :
  (outcome (convertFileToBase64 P file options) <> inl Pending ->
   filter Trace.objectUrlCall (events (convertFileToBase64 P file options)) = []
   \/ exists blob,
        filter Trace.objectUrlCall (events (convertFileToBase64 P file options))
        = [EvCreateObjectURL blob; EvRevokeObjectURL blob])
  /\ (outcome (convertFileToBase64 P file options) = inl Pending ->
      exists blob e,
        imageElement P blob = BitmapThrows e
        /\ filter Trace.objectUrlCall (events (convertFileToBase64 P file options))
           = [EvCreateObjectURL blob]
        /\ last (events (convertFileToBase64 P file options)) (EvArrayBuffer file)
           = EvLoadImage blob).
Proof.
  destruct (ConvertFacts.convert_paths P file options) as [-> | ->].
  { rewrite ConvertFacts.passthrough_events, ConvertFacts.passthrough_outcome. split.
    - intros _. now left.
    - destruct (fileReader P (file_blob file)); discriminate. }
  destruct (after_decode file options (originalMimeOf file) (targetMimeOf file options))
    as (k & -> & Hurl & Hset).
  rewrite ConvertFacts.events_bind, ConvertFacts.outcome_bind.
  unfold readFileAsArrayBuffer. cbn [call events outcome fst snd].
  destruct (arrayBuffer P file) as [e|bytes].
  { split; [intros _; now left|discriminate]. }
  set (blob := {| blob_bytes := bytes; blob_type := originalMimeOf file |}).
  rewrite ConvertFacts.events_bind, ConvertFacts.outcome_bind, ConvertFacts.decode_run.
  destruct (createImageBitmap P blob) as [err|bitmap]; cbn [events outcome fst snd].
  2: { split; [|intros H; now apply Hset in H].
       intros _. left. cbn [app filter Trace.objectUrlCall]. apply Hurl. }
  destruct (domAvailable P).
  2: { split; [intros _; now left|discriminate]. }
  destruct (imageElement P blob) as [e|e|e|bitmap] eqn:Himg; cbn [events outcome fst snd].
  - split; [intros _; right; now exists blob|discriminate].
  - split; [congruence|]. intros _. exists blob, e. split; [exact Himg|]. split; reflexivity.
  - split; [intros _; right; now exists blob|discriminate].
  - split; [|intros H; now apply Hset in H].
    intros _. right. exists blob.
    cbn [app filter Trace.objectUrlCall]. now rewrite Hurl.
Qed.

(** ** The canvas *)

Lemma createCanvas_kind (w h : float) (c : Canvas) :
  outcome (createCanvas P w h) = inr c ->
  canvas_kind c = (if domAvailable P then Dom else Offscreen)
  /\ canvas_width c = w /\ canvas_height c = h /\ canvas_ops c = [].
Proof.
  unfold createCanvas, isDomAvailable.
  destruct (domAvailable P); destruct (offscreenCanvasDefined P); cbn;
    intros H; inversion H; subst; cbn; auto.
Qed.

(** The canvas follows the environment, and the encoder follows the
    canvas.  Every canvas of a conversion is a canvas element where there
    is a document and an [OffscreenCanvas] where there is none;
    [convertToBlob] is called on the canvases that have such a function and
    [toDataURL] on those that have not; and where there is no document, no
    image element and no object URL is used.  On a platform where the
    canvases with a [convertToBlob] are those of [OffscreenCanvas], nothing
    of [OffscreenCanvas] is called where there is a document, and nothing
    of the document where there is none. *)
Theorem canvas_follows_environment (file : File) (options : ConvertOptions) :
  Forall (fun ev =>
            (forall kind, Trace.canvasOf ev = Some kind ->
                          kind = if domAvailable P then Dom else Offscreen)
            /\ (forall c type q, ev = EvConvertToBlob c type q ->
                                 convertToBlobDefined P (canvas_kind c) = true)
            /\ (forall c type q, ev = EvToDataURL c type q ->
                                 convertToBlobDefined P (canvas_kind c) = false)
            /\ (domAvailable P = false -> Trace.imageCall ev = false))
         (events (convertFileToBase64 P file options))
  /\ (convertToBlobDefined P Offscreen = true ->
      convertToBlobDefined P Dom = false ->
      Forall (fun ev => if domAvailable P then Trace.offscreenCall ev = false
                        else Trace.documentCall ev = false)
             (events (convertFileToBase64 P file options))).
Proof.
  match goal with
  | |- Forall ?Q _ /\ _ => set (Q0 := Q)
  end.
  assert (Hmain : Forall Q0 (events (convertFileToBase64 P file options))).
  { subst Q0.
    destruct (ConvertFacts.convert_paths P file options) as [-> | ->].
    { rewrite ConvertFacts.passthrough_events. constructor; [|constructor]. plain. }
    unfold render. cbv zeta.
    apply ConvertFacts.Forall_bind.
    { apply ConvertFacts.Forall_call. plain. }
    intros bytes _.
    apply ConvertFacts.Forall_bind.
    { apply ConvertFacts.Forall_tryCatch.
      - apply ConvertFacts.Forall_call. plain.
      - intros e _. unfold decodeFallback, isDomAvailable.
        destruct (domAvailable P); cbn [negb]; steps; plain. }
    intros bitmap _.
    apply ConvertFacts.Forall_bind.
    { unfold createCanvas, isDomAvailable.
      destruct (domAvailable P); destruct (offscreenCanvasDefined P); cbn [andb negb];
        steps; plain. }
    intros c0 H0. apply createCanvas_kind in H0 as (K0 & _).
    apply ConvertFacts.Forall_bind.
    { destruct (String.eqb _ "image/jpeg"); steps; plain. }
    intros c1 H1.
    assert (K1 : canvas_kind c1 = canvas_kind c0).
    { destruct (String.eqb _ "image/jpeg"); cbn in H1; inversion H1; reflexivity. }
    apply ConvertFacts.Forall_bind.
    { steps. plain. }
    intros c2 H2.
    assert (K2 : canvas_kind c2 = canvas_kind c1).
    { cbn in H2. inversion H2. reflexivity. }
    apply ConvertFacts.Forall_bind; [|intros ? _; apply ConvertFacts.Forall_ret].
    unfold canvasToDataURL, readFileAsDataURL.
    destruct (convertToBlobDefined P (canvas_kind c2)) eqn:Hdef; steps; plain. }
  split; [exact Hmain|]. intros Hoff Hdom.
  eapply Forall_impl; [|exact Hmain]. subst Q0. cbv beta.
  intros ev (Hkind & Hblob & Hurl & Himg).
  destruct (domAvailable P).
  - destruct ev as [| | | | | |[|] w h| |c type q|]; try reflexivity.
    + specialize (Hkind Offscreen eq_refl). discriminate Hkind.
    + specialize (Hblob c type q eq_refl). specialize (Hkind _ eq_refl).
      cbn in Hkind. congruence.
  - specialize (Himg eq_refl).
    destruct ev as [| | | | | |[|] w h| | |c type q]; try reflexivity; try exact Himg.
    + specialize (Hkind Dom eq_refl). discriminate Hkind.
    + specialize (Hurl c type q eq_refl). specialize (Hkind _ eq_refl).
      cbn in Hkind. congruence.
Qed.

(** Where there is neither a document nor an [OffscreenCanvas], only the
    passthrough exits give a result; a conversion that has to render fails
    once the image is decoded, with the error of reading [document], and
    nothing is called after the decode. *)
Theorem no_canvas_only_passthrough (file : File) (options : ConvertOptions) :
  domAvailable P = false ->
  offscreenCanvasDefined P = false ->
  (forall r, outcome (convertFileToBase64 P file options) = inr r ->
     convertFileToBase64 P file options = passthrough P file
     /\ resultWidth r = None /\ resultHeight r = None)
  /\ (forall blob bitmap,
        In (EvCreateImageBitmap blob) (events (convertFileToBase64 P file options)) ->
        createImageBitmap P blob = inr bitmap ->
        convertFileToBase64 P file options
        = ([EvArrayBuffer file; EvCreateImageBitmap blob], inl (Thrown (noDocument P)))).
Proof.
  intros Hd Ho. split.
  - intros r Hr.
    destruct (ConvertFacts.convert_paths P file options) as [H|H]; rewrite H in Hr |- *.
    + split; [reflexivity|].
      rewrite ConvertFacts.passthrough_outcome in Hr.
      destruct (fileReader P (file_blob file)); [discriminate Hr|].
      injection Hr as <-. now split.
    + exfalso. unfold render in Hr. cbv zeta in Hr.
      apply ConvertFacts.outcome_bind_inr in Hr as (bytes & _ & Hr).
      apply ConvertFacts.outcome_bind_inr in Hr as (bm & _ & Hr).
      apply ConvertFacts.outcome_bind_inr in Hr as (c & Hc & _).
      unfold createCanvas, isDomAvailable in Hc. rewrite Hd, Ho in Hc.
      discriminate Hc.
  - intros blob bitmap Hin Hdec.
    destruct (ConvertFacts.convert_paths P file options) as [H|H]; rewrite H in Hin |- *.
    + rewrite ConvertFacts.passthrough_events in Hin.
      destruct Hin as [Hin|[]]. discriminate Hin.
    + apply ConvertFacts.render_decode in Hin as (bytes & Hb & ->).
      unfold render, readFileAsArrayBuffer, blobToImageBitmap.
      unfold bind at 1. unfold call at 1. rewrite Hb. cbv beta iota zeta.
      unfold bind at 1. unfold tryCatch, call at 1. rewrite Hdec. cbv beta iota zeta.
      unfold createCanvas, isDomAvailable. rewrite Hd, Ho. reflexivity.
Qed.

(** ** What is encoded *)

Lemma not_encoded (l : list Event) (ev : Event) (x : Canvas * string * float) :
  Forall (fun ev => Trace.encoded ev = None) l ->
  In ev l -> Trace.encoded ev = Some x -> False.
Proof.
  intros Hl Hin He. rewrite Forall_forall in Hl. rewrite (Hl _ Hin) in He.
  discriminate He.
Qed.

(** The bitmap of a decode that succeeds is the answer of
    [createImageBitmap] or, when it rejects and there is a document, the
    answer of the image element. *)
Lemma decoded_bitmap (blob : Blob) (bitmap : ImageBitmap) :
  outcome (tryCatch (blobToImageBitmap P blob) (decodeFallback P blob)) = inr bitmap ->
  createImageBitmap P blob = inr bitmap
  \/ (domAvailable P = true /\ (exists e, createImageBitmap P blob = inl e)
      /\ imageElement P blob = BitmapResolved bitmap).
Proof.
  rewrite ConvertFacts.decode_run.
  destruct (createImageBitmap P blob) as [e|b]; [|intros H; left; cbn in H; congruence].
  destruct (domAvailable P); [|discriminate].
  intros H. right. split; [reflexivity|]. split; [now exists e|].
  destruct (imageElement P blob); cbn in H; congruence.
Qed.

(** What the encoder is given.  The canvas has the output size of the
    geometry of the bitmap that was decoded from the bytes of the file, and
    the image was drawn on it from the sampling rectangle onto the whole
    canvas; for the type [image/jpeg], and only for it, the whole canvas was
    filled before with the background of the options, white when there is
    none.  The quality is that of the options, 0.92 when there is none, for
    every type. *)
Theorem encoded_canvas (file : File) (options : ConvertOptions)
    (ev : Event) (c : Canvas) (type : string) (q : float) :
  In ev (events (convertFileToBase64 P file options)) ->
  Trace.encoded ev = Some (c, type, q) ->
  q = JS.nullish (quality options) 0.92%float
  /\ exists bytes bitmap,
       let blob := {| blob_bytes := bytes; blob_type := originalMimeOf file |} in
       let g := Trace.geometryOf options bitmap in
       arrayBuffer P file = inr bytes
       /\ (createImageBitmap P blob = inr bitmap
           \/ imageElement P blob = BitmapResolved bitmap)
       /\ canvas_width c = width g /\ canvas_height c = height g
       /\ canvas_ops c
          = ((if String.eqb type "image/jpeg"
              then [FillRect (JS.nullish (background options) "#ffffff")
                             0 0 (width g) (height g)]
              else [])
             ++ [DrawImage bitmap (sx g) (sy g) (sWidth g) (sHeight g)
                           0 0 (width g) (height g)])%list.
Proof.
  intros Hin He.
  destruct (ConvertFacts.convert_paths P file options) as [H|H]; rewrite H in Hin; clear H.
  { rewrite ConvertFacts.passthrough_events in Hin.
    destruct Hin as [<-|[]]. discriminate He. }
  unfold render in Hin. cbv zeta in Hin.
  apply ConvertFacts.in_events_bind in Hin as [Hin|(bytes & Hb & Hin)].
  { exfalso. revert Hin He. apply not_encoded. unfold readFileAsArrayBuffer. steps. reflexivity. }
  apply ConvertFacts.in_events_bind in Hin as [Hin|(bitmap & Hbm & Hin)].
  { exfalso. revert Hin He. apply not_encoded.
    unfold blobToImageBitmap, decodeFallback. steps; reflexivity. }
  apply decoded_bitmap in Hbm.
  fold (Trace.geometryOf options bitmap) in Hin.
  set (g := Trace.geometryOf options bitmap) in *.
  apply ConvertFacts.in_events_bind in Hin as [Hin|(c0 & H0 & Hin)].
  { exfalso. revert Hin He. apply not_encoded. unfold createCanvas. steps; reflexivity. }
  apply createCanvas_kind in H0 as (K0 & W0 & H0 & O0).
  apply ConvertFacts.in_events_bind in Hin as [Hin|(c1 & H1 & Hin)].
  { exfalso. revert Hin He. apply not_encoded. steps; reflexivity. }
  apply ConvertFacts.in_events_bind in Hin as [Hin|(c2 & H2 & Hin)].
  { exfalso. revert Hin He. apply not_encoded. steps; reflexivity. }
  apply ConvertFacts.in_events_bind in Hin as [Hin|(url & _ & [])].
  cbn in H2. injection H2 as <-.
  assert (E : ev = EvConvertToBlob (draw c1 (DrawImage bitmap (sx g) (sy g) (sWidth g) (sHeight g)
                                                       0 0 (width g) (height g)))
                     (clampCanvasMime (targetMimeOf file options))
                     (JS.nullish (quality options) 0.92%float)
              \/ ev = EvToDataURL (draw c1 (DrawImage bitmap (sx g) (sy g) (sWidth g) (sHeight g)
                                                      0 0 (width g) (height g)))
                        (clampCanvasMime (targetMimeOf file options))
                        (JS.nullish (quality options) 0.92%float)).
  { unfold canvasToDataURL in Hin.
    destruct (convertToBlobDefined P (canvas_kind (draw c1 _))).
    - apply ConvertFacts.in_events_bind in Hin as [[Hin|[]]|(b & _ & [Hin|[]])].
      + now left.
      + subst ev. discriminate He.
    - destruct Hin as [Hin|[]]. now right. }
  assert (Hc : (c, type, q)
               = (draw c1 (DrawImage bitmap (sx g) (sy g) (sWidth g) (sHeight g)
                                     0 0 (width g) (height g)),
                  clampCanvasMime (targetMimeOf file options),
                  JS.nullish (quality options) 0.92%float)).
  { destruct E as [-> | ->]; cbn in He; congruence. }
  injection Hc as -> -> ->. split; [reflexivity|].
  exists bytes, bitmap. fold g. cbv zeta.
  split; [exact (ConvertFacts.outcome_call_inr _ _ _ Hb)|].
  split; [destruct Hbm as [Hbm|(_ & _ & Hbm)]; auto|].
  destruct (String.eqb (clampCanvasMime (targetMimeOf file options)) "image/jpeg");
    cbn in H1; injection H1 as <-; cbn; rewrite W0, H0, O0; auto.
Qed.

(** ** The result *)

Lemma last_app_one {A : Type} (l : list A) (a d : A) : last (l ++ [a])%list d = a.
Proof.
  induction l as [|b l IH]; [reflexivity|].
  simpl. destruct (l ++ [a])%list eqn:E; [now destruct l|exact IH].
Qed.

(** A result describes the payload the platform produced.  The payload is
    the answer of the last call of the conversion, which is the file reader
    or [toDataURL] of the canvas; the size is the estimate of that
    payload; the name is the name of the file; the width and the height are
    both there or both missing. *)
Theorem result_from_platform (file : File) (options : ConvertOptions) (r : ConvertResult) :
  outcome (convertFileToBase64 P file options) = inr r ->
  match last (events (convertFileToBase64 P file options)) (EvArrayBuffer file) with
  | EvReadAsDataURL b => fileReader P b = inr (dataUrl r)
  | EvToDataURL c type q => toDataURL P c type q = inr (dataUrl r)
  | _ => False
  end
  /\ sizeBytes r = estimateBase64SizeBytes (dataUrl r)
  /\ fileName r = file_name file
  /\ (resultWidth r = None <-> resultHeight r = None).
Proof.
  intros Hr.
  destruct (ConvertFacts.convert_paths P file options) as [H|H]; rewrite H in *; clear H.
  - rewrite ConvertFacts.passthrough_events. rewrite ConvertFacts.passthrough_outcome in Hr.
    cbn [last]. destruct (fileReader P (file_blob file)); [discriminate Hr|].
    injection Hr as <-. cbn. repeat split; auto.
  - unfold render in *. cbv zeta in *.
    rewrite ConvertFacts.events_bind.
    apply ConvertFacts.outcome_bind_inr in Hr as (bytes & -> & Hr).
    rewrite ConvertFacts.events_bind.
    apply ConvertFacts.outcome_bind_inr in Hr as (bitmap & -> & Hr).
    rewrite ConvertFacts.events_bind.
    apply ConvertFacts.outcome_bind_inr in Hr as (c0 & -> & Hr).
    rewrite ConvertFacts.events_bind.
    apply ConvertFacts.outcome_bind_inr in Hr as (c1 & -> & Hr).
    rewrite ConvertFacts.events_bind.
    apply ConvertFacts.outcome_bind_inr in Hr as (c2 & -> & Hr).
    rewrite ConvertFacts.events_bind.
    apply ConvertFacts.outcome_bind_inr in Hr as (url & Hu & Hr).
    rewrite Hu. cbn in Hr. injection Hr as <-. cbn [events ret fst dataUrl sizeBytes
      fileName resultWidth resultHeight].
    rewrite app_nil_r, !app_assoc.
    split; [|repeat split; intros; discriminate].
    unfold canvasToDataURL in *. destruct (convertToBlobDefined P (canvas_kind c2)).
    + rewrite ConvertFacts.events_bind.
      apply ConvertFacts.outcome_bind_inr in Hu as (b & -> & Hu).
      unfold readFileAsDataURL in *.
      apply ConvertFacts.outcome_call_inr in Hu.
      cbn [call events outcome fst snd] in *.
      rewrite !app_assoc, last_app_one. exact Hu.
    + apply ConvertFacts.outcome_call_inr in Hu.
      cbn [call events outcome fst snd] in *.
      rewrite last_app_one. exact Hu.
Qed.

(** ** The paths of the targets that keep the format *)

Lemma orElse_nonempty (s d : string) : d <> "" -> JS.orElse s d <> "".
Proof.
  intros Hd. unfold JS.orElse. destruct (String.eqb_spec s "") as [->|H]; auto.
Qed.

(** With the target ['base64'] or ['original'] a file of any type, image or
    not, is passed through as it is when no resize is asked for and its type
    is not [image/jpeg]; a file that is not an SVG is rendered when a resize
    is asked for or its type is [image/jpeg], the resolved target being its
    own type.  With no target, a file whose type does not start with
    [image/] is not passed through: it is sent to the image decoder. *)
Theorem keeping_target_paths (file : File) (options : ConvertOptions) :
  (targetFormat options = Some "base64" \/ targetFormat options = Some "original" ->
   (resize options = None -> originalMimeOf file <> "image/jpeg" ->
    convertFileToBase64 P file options = passthrough P file)
   /\ (isSvgMime (Some (originalMimeOf file)) = false ->
       resize options <> None \/ originalMimeOf file = "image/jpeg" ->
       convertFileToBase64 P file options
       = render P file options (originalMimeOf file) (originalMimeOf file)))
  /\ (targetFormat options = None ->
      JS.startsWith (originalMimeOf file) "image/" = false ->
      convertFileToBase64 P file options
      = render P file options (originalMimeOf file) (originalMimeOf file)).
Proof.
  assert (Hne : JS.orElse (originalMimeOf file) "application/octet-stream"
                = originalMimeOf file).
  { unfold JS.orElse.
    destruct (String.eqb_spec (originalMimeOf file) "") as [E|_]; [|reflexivity].
    exfalso. revert E. unfold originalMimeOf. now apply orElse_nonempty. }
  split.
  - intros Htf. split.
    + intros Hrs Hj. unfold convertFileToBase64. cbv zeta.
      fold (originalMimeOf file). rewrite Hrs.
      apply String.eqb_neq in Hj.
      destruct Htf as [-> | ->]; cbn; unfold normalizeTargetMime; cbn;
        rewrite Hne, Hj; now destruct (isSvgMime _).
    + intros Hsvg Hc. unfold convertFileToBase64. cbv zeta.
      fold (originalMimeOf file). rewrite Hsvg.
      assert (Hn : (match resize options with Some _ => true | None => false end
                    || String.eqb (originalMimeOf file) "image/jpeg") = true).
      { destruct Hc as [Hc| ->]; [|apply orb_true_r].
        destruct (resize options); [reflexivity|congruence]. }
      destruct Htf as [-> | ->]; cbn; unfold normalizeTargetMime; cbn;
        rewrite Hne, Hn; reflexivity.
  - intros Htf Himg. unfold convertFileToBase64. cbv zeta.
    fold (originalMimeOf file). rewrite Htf, Himg.
    assert (Hsvg : isSvgMime (Some (originalMimeOf file)) = false).
    { unfold isSvgMime, JS.isLit.
      destruct (String.eqb_spec (originalMimeOf file) "image/svg+xml") as [E|_];
        [rewrite E in Himg; discriminate Himg|].
      destruct (String.eqb_spec (originalMimeOf file) "image/svg") as [E|_];
        [rewrite E in Himg; discriminate Himg|reflexivity]. }
    rewrite Hsvg. cbn. unfold normalizeTargetMime. cbn. now rewrite Hne.
Qed.

(** ** The fallback decode *)

(** When [createImageBitmap] rejects the bytes and there is a document, the
    image element decides.  Its error, or the rejection of the bitmap of
    the loaded image, is the error of the conversion, in place of the first
    one, and nothing is called after the revocation of the object URL.
    When [createImageBitmap(img)] throws in [onload], the conversion never
    settles: the load of the image is its last call and the URL is not
    revoked.  When the image element answers a bitmap the conversion goes
    on with a canvas element of the output size of that bitmap. *)
Theorem fallback_decides (file : File) (options : ConvertOptions)
    (blob : Blob) (err : Err) :
  In (EvCreateImageBitmap blob) (events (convertFileToBase64 P file options)) ->
  createImageBitmap P blob = inl err ->
  domAvailable P = true ->
  match imageElement P blob with
  | LoadFails e | BitmapRejected e =>
      convertFileToBase64 P file options
      = ([EvArrayBuffer file; EvCreateImageBitmap blob; EvCreateObjectURL blob;
          EvLoadImage blob; EvRevokeObjectURL blob], inl (Thrown e))
  | BitmapThrows _ =>
      convertFileToBase64 P file options
      = ([EvArrayBuffer file; EvCreateImageBitmap blob; EvCreateObjectURL blob;
          EvLoadImage blob], inl Pending)
  | BitmapResolved bitmap =>
      exists rest,
        events (convertFileToBase64 P file options)
        = ([EvArrayBuffer file; EvCreateImageBitmap blob; EvCreateObjectURL blob;
            EvLoadImage blob; EvRevokeObjectURL blob;
            EvCreateCanvas Dom (width (Trace.geometryOf options bitmap))
                               (height (Trace.geometryOf options bitmap))] ++ rest)%list
  end.
Proof.
  intros Hin Hdec Hdom.
  destruct (ConvertFacts.convert_paths P file options) as [H|H]; rewrite H in *; clear H.
  { rewrite ConvertFacts.passthrough_events in Hin.
    destruct Hin as [Hin|[]]. discriminate Hin. }
  apply ConvertFacts.render_decode in Hin as (bytes & Hb & ->).
  set (blob := {| blob_bytes := bytes; blob_type := originalMimeOf file |}) in *.
  rewrite (ConvertFacts.run_eq (render _ _ _ _ _)).
  unfold render, readFileAsArrayBuffer. cbv zeta.
  rewrite ConvertFacts.events_bind, ConvertFacts.outcome_bind, Hb.
  cbn [call events outcome fst snd].
  fold blob.
  rewrite ConvertFacts.events_bind, ConvertFacts.outcome_bind, ConvertFacts.decode_run.
  rewrite Hdec, Hdom.
  destruct (imageElement P blob) as [e|e|e|bitmap]; cbn [events outcome fst snd];
    try reflexivity.
  fold (Trace.geometryOf options bitmap).
  rewrite ConvertFacts.events_bind.
  unfold createCanvas at 1. unfold isDomAvailable. rewrite Hdom, andb_false_r.
  cbn [call events outcome fst snd app]. eexists. reflexivity.
Qed.

End Runs.

Lemma object_url_released_witness :
  exists blob e,
    imageElement Sample.withoutBitmaps blob = BitmapThrows e
    /\ filter Trace.objectUrlCall
         (events (convertFileToBase64 Sample.withoutBitmaps (Sample.fileOf "image/jpeg")
                    noOptions))
       = [EvCreateObjectURL blob]
    /\ last (events (convertFileToBase64 Sample.withoutBitmaps (Sample.fileOf "image/jpeg")
                       noOptions))
            (EvArrayBuffer (Sample.fileOf "image/jpeg"))
       = EvLoadImage blob.
Proof.
  apply (object_url_released Sample.withoutBitmaps (Sample.fileOf "image/jpeg") noOptions).
  reflexivity.
Defined.

Lemma canvas_follows_environment_witness :
  Forall (fun ev => Trace.offscreenCall ev = false)
    (events (convertFileToBase64 Sample.browser (Sample.fileOf "image/jpeg") noOptions)).
Proof.
  apply (canvas_follows_environment Sample.browser (Sample.fileOf "image/jpeg") noOptions);
    reflexivity.
Defined.

Lemma keeping_target_paths_witness :
  convertFileToBase64 Sample.browser (Sample.fileOf "application/pdf")
    {| targetFormat := Some "base64"; quality := None; resize := None; background := None |}
  = passthrough Sample.browser (Sample.fileOf "application/pdf").
Proof.
  apply (keeping_target_paths Sample.browser (Sample.fileOf "application/pdf")
           {| targetFormat := Some "base64"; quality := None; resize := None;
              background := None |}).
  - now left.
  - reflexivity.
  - discriminate.
Defined.

Lemma fallback_decides_witness :
  exists rest,
    events (convertFileToBase64 Sample.legacy (Sample.fileOf "image/jpeg") noOptions)
    = ([EvArrayBuffer (Sample.fileOf "image/jpeg");
        EvCreateImageBitmap (file_blob (Sample.fileOf "image/jpeg"));
        EvCreateObjectURL (file_blob (Sample.fileOf "image/jpeg"));
        EvLoadImage (file_blob (Sample.fileOf "image/jpeg"));
        EvRevokeObjectURL (file_blob (Sample.fileOf "image/jpeg"));
        EvCreateCanvas Dom 640 480] ++ rest)%list.
Proof.
  apply (fallback_decides Sample.legacy (Sample.fileOf "image/jpeg") noOptions
           (file_blob (Sample.fileOf "image/jpeg")) "InvalidStateError").
  - vm_compute. right. left. reflexivity.
  - reflexivity.
  - reflexivity.
Defined.

Lemma no_canvas_only_passthrough_witness :
  convertFileToBase64 Sample.headless (Sample.fileOf "image/jpeg") noOptions
  = ([EvArrayBuffer (Sample.fileOf "image/jpeg");
      EvCreateImageBitmap (file_blob (Sample.fileOf "image/jpeg"))],
     inl (Thrown "ReferenceError: document is not defined")).
Proof.
  apply (no_canvas_only_passthrough Sample.headless (Sample.fileOf "image/jpeg") noOptions
           eq_refl eq_refl)
    with (bitmap := {| bitmap_width := 4000; bitmap_height := 2000 |}).
  - vm_compute. right. left. reflexivity.
  - reflexivity.
Defined.

Lemma encoded_canvas_witness :
  canvas_ops Sample.jpegCanvas
  = [FillRect "#ffffff" 0 0 4000 2000;
     DrawImage {| bitmap_width := 4000; bitmap_height := 2000 |}
               0 0 4000 2000 0 0 4000 2000].
Proof.
  destruct (encoded_canvas Sample.browser (Sample.fileOf "image/jpeg") noOptions
              (EvToDataURL Sample.jpegCanvas "image/jpeg" 0.92)
              Sample.jpegCanvas "image/jpeg" 0.92)
    as (_ & bytes & bitmap & _ & _ & _ & _ & H).
  - vm_compute. do 5 right. left. reflexivity.
  - reflexivity.
  - reflexivity.
Defined.

Lemma result_from_platform_witness :
  sizeBytes {| dataUrl := "data:image/svg+xml;base64,QUJD"; mime := "image/svg+xml";
               sizeBytes := 3; resultWidth := None; resultHeight := None;
               fileName := "picture" |}
  = estimateBase64SizeBytes "data:image/svg+xml;base64,QUJD".
Proof.
  apply (result_from_platform Sample.worker (Sample.fileOf "image/svg+xml") noOptions).
  reflexivity.
Defined.

End PipelineFacts.

(* ================================================================== *)
(** * How close the geometry is to the exact one *)
(* ================================================================== *)

Module GeometryFacts.

Import Utils Binary64 FloatFacts.

Local Open Scope R_scope.

(** ** Rounding, from below *)

(** Rounding does not pass under a number of the format. *)
Lemma Rounded_ge_float (q r : R) (m : positive) (e : Z) :
  Rounded q r ->
  valid_binary (S754_finite false m e) = true ->
  pow2 (-1021) <= q ->
  IZR (Zpos m) * pow2 e <= q -> IZR (Zpos m) * pow2 e <= r.
Proof.
  intros (D & [HD1 HD2] & (n & -> & Hn)) V Hq Hf.
  assert (HD : (-1021 < D)%Z) by (apply pow2_lt_inv; lra).
  pose proof (pow2_pos (fexp prec emax D)) as He.
  assert (Hgrid : forall k : Z, IZR k * pow2 (fexp prec emax D) <= q ->
                  IZR k * pow2 (fexp prec emax D) <= IZR n * pow2 (fexp prec emax D)).
  { intros k Hk. destruct (Z.le_gt_cases k n) as [Hkn|Hkn].
    - apply IZR_le in Hkn. nra.
    - exfalso. assert (Hk1 : (n + 1 <= k)%Z) by lia. apply IZR_le in Hk1.
      rewrite plus_IZR in Hk1. nra. }
  destruct (Rle_lt_dec (pow2 (D - 1)) (IZR (Zpos m) * pow2 e)) as [Hb|Hb].
  - destruct (float_on_grid m e D V Hb) as [k Hk]. rewrite Hk in *. now apply Hgrid.
  - destruct (grid_coarser 1 (D - 1) (fexp prec emax D)) as [k Hk].
    { rewrite fexp_eq. lia. }
    rewrite Rmult_1_l in Hk. rewrite Hk in *.
    specialize (Hgrid k HD1). lra.
Qed.

Lemma Rnd_ge (q r : R) (f : float) (w : R) :
  Rnd q r -> Rep f w -> pow2 (-1021) <= q -> w <= q -> w <= r.
Proof.
  intros [->|H] Hf Hq Hw; [exact Hw|].
  destruct (Rep_nonneg _ _ Hf) as [Hw0|<-].
  - apply Rep_pos in Hf as (m & e & _ & -> & V); [|exact Hw0].
    exact (Rounded_ge_float q r m e H V Hq Hw).
  - pose proof (Rounded_error q r H Hq) as [Hl _].
    pose proof pow2_m53. pose proof (pow2_pos (-53)). pose proof (pow2_pos (-1021)).
    nra.
Qed.

(** ** Two roundings and a rounding to an integer *)

(** A number at most two units of relative error above [X], which is at
    most [2^50], is rounded to less than a half above [X]. *)
Lemma near_half_above (p r X : R) :
  Rnd p r -> pow2 (-1000) <= p ->
  p <= X + 2 * (X * pow2 (-53)) ->
  X <= 1125899906842624 ->
  r < X + / 2.
Proof.
  intros HR Hp HX Hmax.
  pose proof pow2_m53 as He. pose proof (pow2_pos (-53)) as He0.
  pose proof (pow2_pos (-1000)) as Hs0.
  assert (Hle : pow2 (-1021) <= pow2 (-1000)) by (apply pow2_le; lia).
  destruct (Rnd_error p r HR ltac:(lra)) as [_ Hu].
  set (eps := pow2 (-53)) in *.
  assert (Heps : eps < / 1000) by nra.
  assert (HX0 : 0 < X) by nra.
  set (t := X * eps) in *.
  assert (Ht0 : 0 < t) by (unfold t; nra).
  assert (Ht : t <= / 8).
  { unfold t. apply Rmult_le_reg_r with 9007199254740992; [lra|].
    replace (X * eps * 9007199254740992) with (X * (eps * 9007199254740992)) by ring.
    rewrite He. lra. }
  assert (Hpe : p * eps <= t + 2 * (t * eps)).
  { replace (t + 2 * (t * eps)) with ((X + 2 * t) * eps) by (unfold t; ring).
    apply Rmult_le_compat_r; lra. }
  assert (Hte : t * eps <= / 8 * / 1000) by nra.
  nra.
Qed.

(** A number at most two units of relative error below [X] is rounded to
    less than a half below [X]. *)
Lemma near_half_below (p r X : R) :
  Rnd p r -> pow2 (-1000) <= p ->
  X - 2 * (X * pow2 (-53)) <= p ->
  0 < X <= 1125899906842624 ->
  X - / 2 < r.
Proof.
  intros HR Hp HX Hmax.
  pose proof pow2_m53 as He. pose proof (pow2_pos (-53)) as He0.
  pose proof (pow2_pos (-1000)) as Hs0.
  assert (Hle : pow2 (-1021) <= pow2 (-1000)) by (apply pow2_le; lia).
  destruct (Rnd_error p r HR ltac:(lra)) as [Hl _].
  set (eps := pow2 (-53)) in *.
  assert (Heps : eps < / 1000) by nra.
  set (t := X * eps) in *.
  assert (Ht0 : 0 < t) by (unfold t; nra).
  assert (Ht : t <= / 8).
  { unfold t. apply Rmult_le_reg_r with 9007199254740992; [lra|].
    replace (X * eps * 9007199254740992) with (X * (eps * 9007199254740992)) by ring.
    rewrite He. lra. }
  assert (Hm : (X - 2 * t) * (1 - eps) <= p * (1 - eps))
    by (apply Rmult_le_compat_r; lra).
  replace ((X - 2 * t) * (1 - eps)) with (X - 3 * t + 2 * (t * eps)) in Hm
    by (unfold t; ring).
  assert (Hte : 0 <= t * eps) by nra.
  lra.
Qed.

(** An integer less than one away from an integer is that integer. *)
Lemma near_integer (z k : Z) : IZR k - 1 < IZR z < IZR k + 1 -> z = k.
Proof.
  intros [H1 H2].
  assert (H3 : IZR (k - 1) < IZR z) by (rewrite minus_IZR; lra).
  assert (H4 : IZR z < IZR (k + 1)) by (rewrite plus_IZR; lra).
  apply lt_IZR in H3, H4. lia.
Qed.

(** An integer less than one away from a quotient of integers. *)
Lemma near_quotient (z a b : Z) :
  (0 < b)%Z -> IZR a / IZR b - 1 < IZR z < IZR a / IZR b + 1 ->
  (Z.abs (z * b - a) < b)%Z.
Proof.
  intros Hb [H1 H2].
  assert (Hb' : 0 < IZR b) by (apply (IZR_lt 0); lia).
  assert (E : IZR a / IZR b * IZR b = IZR a) by (field; lra).
  assert (H3 : IZR (a - b) < IZR (z * b)).
  { rewrite minus_IZR, mult_IZR. nra. }
  assert (H4 : IZR (z * b) < IZR (a + b)).
  { rewrite plus_IZR, mult_IZR. nra. }
  apply lt_IZR in H3, H4. lia.
Qed.

(** ** The [contain] mode *)

Lemma tiny_below_ratio : pow2 (-1000) < / 9007199254740992 * / 2.
Proof.
  pose proof pow2_m1000_small as Hsmall. pose proof (pow2_pos (-1000)) as Hs0.
  apply Rmult_lt_reg_r with (9007199254740992 * 9007199254740992); [lra|].
  eapply Rlt_le_trans; [exact Hsmall|]. field_simplify. lra.
Qed.

(** A product by a positive integer of a number that is at least a
    rounded ratio of integers is far from the subnormal range. *)
Lemma product_not_tiny (n : Z) (q s eps : R) :
  1 <= IZR n -> / 9007199254740992 <= q -> 0 < eps < / 2 ->
  q - q * eps <= s ->
  pow2 (-1000) <= IZR n * s.
Proof.
  intros Hn Hq He Hs. pose proof tiny_below_ratio as Ht.
  assert (H1 : / 9007199254740992 * (1 - eps) <= q * (1 - eps))
    by (apply Rmult_le_compat_r; lra).
  assert (H2 : / 9007199254740992 * / 2 <= / 9007199254740992 * (1 - eps))
    by (apply Rmult_le_compat_l; lra).
  assert (H3 : 1 * s <= IZR n * s) by (apply Rmult_le_compat_r; lra).
  lra.
Qed.

(** The two ratios of the [contain] mode and the scale, their minimum with
    one. *)
Lemma contain_scale_value (srcW srcH boundW boundH : Z) :
  (0 < srcW < 2 ^ 53)%Z -> (0 < srcH < 2 ^ 53)%Z ->
  (0 < boundW < 2 ^ 53)%Z -> (0 < boundH < 2 ^ 53)%Z ->
  exists ra rb,
    Rep (JS.ofZ boundW / JS.ofZ srcW)%float ra
    /\ Rep (JS.ofZ boundH / JS.ofZ srcH)%float rb
    /\ Rnd (IZR boundW / IZR srcW) ra /\ Rnd (IZR boundH / IZR srcH) rb
    /\ Rep (JS.Math_min3 (JS.ofZ boundW / JS.ofZ srcW)%float
                         (JS.ofZ boundH / JS.ofZ srcH)%float 1%float)
           (Rmin (Rmin ra rb) 1).
Proof.
  intros HW HH HBW HBH.
  destruct (div_integers boundW srcW HBW HW) as (ra & Ha & RA).
  destruct (div_integers boundH srcH HBH HH) as (rb & Hb & RB).
  exists ra, rb. repeat split; auto.
  unfold JS.Math_min3. apply Math_min2_Rep; [now apply Math_min2_Rep|].
  apply (ofZ_Rep 1). lia.
Qed.

(** A quotient of two positive integers of at most 53 bits is far from the
    subnormal range, and so is its rounding. *)
Lemma ratio_error (a b : Z) (r : R) :
  (0 < a < 2 ^ 53)%Z -> (0 < b < 2 ^ 53)%Z -> Rnd (IZR a / IZR b) r ->
  / 9007199254740992 <= IZR a / IZR b
  /\ IZR a / IZR b - IZR a / IZR b * pow2 (-53) <= r
     <= IZR a / IZR b + IZR a / IZR b * pow2 (-53).
Proof.
  intros Ha Hb HR.
  assert (Ha' : 1 <= IZR a <= IZR (2 ^ 53) - 1) by (apply IZR_bounds; lia).
  assert (Hb' : 1 <= IZR b <= IZR (2 ^ 53) - 1) by (apply IZR_bounds; lia).
  change (IZR (2 ^ 53)) with 9007199254740992 in *.
  assert (Hq : IZR a / IZR b * IZR b = IZR a) by (field; lra).
  set (q := IZR a / IZR b) in *.
  assert (Hq1 : / 9007199254740992 <= q).
  { apply Rmult_le_reg_r with (IZR b); [lra|]. rewrite Hq. nra. }
  split; [exact Hq1|]. apply Rnd_error; [exact HR|].
  assert (pow2 (-1021) <= pow2 (-53)) by (apply pow2_le; lia).
  pose proof pow2_m53. pose proof (pow2_pos (-53)).
  assert (pow2 (-53) = / 9007199254740992) by (field_simplify_eq; lra).
  lra.
Qed.

(** A source dimension scaled by a number between 0 and 1 and rounded,
    against a number [X] that the exact product is close to. *)
Lemma scaled_dimension_near (n : Z) (scale : float) (s : R) :
  (0 < n < 2 ^ 53)%Z -> Rep scale s -> s <= 1 -> pow2 (-1000) <= IZR n * s ->
  exists w : Z,
    JS.Math_round (JS.ofZ n * scale)%float = JS.ofZ w /\ (0 <= w <= n)%Z
    /\ (forall X, IZR n * s <= X + 2 * (X * pow2 (-53)) -> X <= 1125899906842624 ->
          IZR w < X + 1)
    /\ (forall X, X - 2 * (X * pow2 (-53)) <= IZR n * s -> 0 < X <= 1125899906842624 ->
          X - 1 < IZR w).
Proof.
  intros Hn Hs Hs1 Hp.
  assert (Hn' : 1 <= IZR n <= IZR (2 ^ 53) - 1) by (apply IZR_bounds; lia).
  change (IZR (2 ^ 53)) with 9007199254740992 in Hn'.
  pose proof (Rep_nonneg _ _ Hs) as Hs0.
  assert (Hrn : Rep (JS.ofZ n) (IZR n)) by (apply ofZ_Rep; lia).
  destruct (mul_Rep _ _ _ _ Hrn Hs) as (r & Hr & HR).
  { pose proof pow2_1000_large. nra. }
  assert (Hle : r <= IZR n) by (apply (Rnd_le _ _ _ _ HR Hrn); nra).
  destruct (Math_round_Rep _ _ Hr) as (w & Hw & Hw0 & Hw1).
  { rewrite pow2_53. lra. }
  exists w. split; [exact Hw|]. split; [|split].
  - split; [exact Hw0|].
    assert (H : IZR w < IZR (n + 1)) by (rewrite plus_IZR; lra).
    apply lt_IZR in H. lia.
  - intros X HX Hmax. pose proof (near_half_above _ _ X HR Hp HX Hmax). lra.
  - intros X HX Hmax. pose proof (near_half_below _ _ X HR Hp HX Hmax). lra.
Qed.

(** The scale is within one unit of relative error of the smaller ratio,
    when that ratio is at most one. *)
Lemma binding_scale (qa qb ra rb eps : R) :
  0 < qa -> qa <= qb -> qa <= 1 -> 0 < eps < 1 ->
  qa - qa * eps <= ra <= qa + qa * eps ->
  qb - qb * eps <= rb ->
  qa - qa * eps <= Rmin (Rmin ra rb) 1 <= qa + qa * eps.
Proof.
  intros Hqa Hab Ha1 He Hra Hrb.
  assert (Hb : qa - qa * eps <= qb - qb * eps) by nra.
  assert (H1 : qa - qa * eps <= 1) by nra.
  split.
  - apply Rmin_glb; [apply Rmin_glb|]; lra.
  - apply Rle_trans with (Rmin ra rb); [apply Rmin_l|].
    apply Rle_trans with ra; [apply Rmin_l|lra].
Qed.

(** One dimension of the [contain] mode. *)
Lemma contain_dimension (n m bn bm : Z) (scale : float) (ra rb : R) :
  (0 < n < 2 ^ 50)%Z -> (0 < m < 2 ^ 50)%Z ->
  (0 < bn < 2 ^ 53)%Z -> (0 < bm < 2 ^ 53)%Z ->
  Rnd (IZR bn / IZR n) ra -> Rnd (IZR bm / IZR m) rb ->
  Rep scale (Rmin (Rmin ra rb) 1) ->
  exists w : Z,
    JS.Math_round (JS.ofZ n * scale)%float = JS.ofZ w
    /\ (0 <= w <= n)%Z /\ (w <= bn)%Z
    /\ (bn <= n -> bn * m <= bm * n -> w = bn)%Z
    /\ (bm <= m -> bm * n <= bn * m -> Z.abs (w * m - n * bm) < m)%Z.
Proof.
  intros Hn Hm Hbn Hbm RA RB Hs.
  destruct (ratio_error bn n ra ltac:(lia) ltac:(lia) RA) as (Hqa & Hra).
  destruct (ratio_error bm m rb ltac:(lia) ltac:(lia) RB) as (Hqb & Hrb).
  assert (Hn' : 1 <= IZR n <= IZR (2 ^ 50) - 1) by (apply IZR_bounds; lia).
  assert (Hm' : 1 <= IZR m <= IZR (2 ^ 50) - 1) by (apply IZR_bounds; lia).
  assert (Hbn' : 1 <= IZR bn <= IZR (2 ^ 53) - 1) by (apply IZR_bounds; lia).
  assert (Hbm' : 1 <= IZR bm <= IZR (2 ^ 53) - 1) by (apply IZR_bounds; lia).
  change (IZR (2 ^ 50)) with 1125899906842624 in *.
  change (IZR (2 ^ 53)) with 9007199254740992 in *.
  assert (Eqa : IZR bn / IZR n * IZR n = IZR bn) by (field; lra).
  assert (Eqb : IZR bm / IZR m * IZR m = IZR bm) by (field; lra).
  set (qa := IZR bn / IZR n) in *. set (qb := IZR bm / IZR m) in *.
  pose proof pow2_m53 as He. pose proof (pow2_pos (-53)) as He0.
  pose proof pow2_m1000_small as Hsmall. pose proof (pow2_pos (-1000)) as Hs0.
  set (eps := pow2 (-53)) in *.
  assert (Heps : eps < / 1000) by nra.
  assert (Hbe : 0 <= IZR bn * eps) by nra.
  set (s := Rmin (Rmin ra rb) 1) in *.
  assert (Hs1 : s <= 1) by apply Rmin_r.
  assert (Hsa : s <= ra).
  { apply Rle_trans with (Rmin ra rb); apply Rmin_l. }
  assert (Hsb : s <= rb).
  { apply Rle_trans with (Rmin ra rb); [apply Rmin_l|apply Rmin_r]. }
  assert (Hlow : / 9007199254740992 * (1 - eps) <= s).
  { assert (/ 9007199254740992 * (1 - eps) <= qa * (1 - eps))
      by (apply Rmult_le_compat_r; lra).
    assert (/ 9007199254740992 * (1 - eps) <= qb * (1 - eps))
      by (apply Rmult_le_compat_r; lra).
    apply Rmin_glb; [apply Rmin_glb|]; nra. }
  assert (Hp : pow2 (-1000) <= IZR n * s).
  { apply (product_not_tiny n (/ 9007199254740992) s eps); lra. }
  destruct (scaled_dimension_near n scale s ltac:(lia) Hs Hs1 Hp)
    as (w & Ew & Hw & Uw & Lw).
  exists w. split; [exact Ew|]. split; [exact Hw|]. split; [|split].
  - destruct (Z_le_gt_dec n bn) as [Hc|Hc]; [lia|].
    assert (Hb50 : IZR bn <= 1125899906842624).
    { assert (H : (bn <= 2 ^ 50)%Z) by lia. apply IZR_le in H. exact H. }
    assert (H : IZR w < IZR bn + 1).
    { apply Uw; [|exact Hb50]. fold eps.
      assert (IZR n * s <= IZR n * (qa + qa * eps)) by (apply Rmult_le_compat_l; lra).
      replace (IZR n * (qa + qa * eps)) with (qa * IZR n + qa * IZR n * eps) in H by ring.
      rewrite Eqa in H. lra. }
    assert (H1 : IZR w < IZR (bn + 1)) by (rewrite plus_IZR; lra).
    apply lt_IZR in H1. lia.
  - intros Hc Hab.
    assert (Hb50 : IZR bn <= 1125899906842624).
    { assert (H : (bn <= 2 ^ 50)%Z) by lia. apply IZR_le in H. exact H. }
    assert (Hq1 : qa <= 1).
    { apply Rmult_le_reg_r with (IZR n); [lra|]. rewrite Eqa. apply IZR_le in Hc. lra. }
    assert (Hqab : qa <= qb).
    { apply Rmult_le_reg_r with (IZR n * IZR m); [nra|].
      replace (qa * (IZR n * IZR m)) with (qa * IZR n * IZR m) by ring.
      replace (qb * (IZR n * IZR m)) with (qb * IZR m * IZR n) by ring.
      rewrite Eqa, Eqb, <- !mult_IZR. now apply IZR_le. }
    destruct (binding_scale qa qb ra rb eps) as [Hl Hu]; try lra.
    fold s in Hl, Hu.
    apply near_integer. split.
    + apply Lw; [|lra]. fold eps.
      assert (IZR n * (qa - qa * eps) <= IZR n * s) by (apply Rmult_le_compat_l; lra).
      replace (IZR n * (qa - qa * eps)) with (qa * IZR n - qa * IZR n * eps) in H by ring.
      rewrite Eqa in H. lra.
    + apply Uw; [|exact Hb50]. fold eps.
      assert (IZR n * s <= IZR n * (qa + qa * eps)) by (apply Rmult_le_compat_l; lra).
      replace (IZR n * (qa + qa * eps)) with (qa * IZR n + qa * IZR n * eps) in H by ring.
      rewrite Eqa in H. lra.
  - intros Hc Hab.
    assert (Hq1 : qb <= 1).
    { apply Rmult_le_reg_r with (IZR m); [lra|]. rewrite Eqb. apply IZR_le in Hc. lra. }
    assert (Hqab : qb <= qa).
    { apply Rmult_le_reg_r with (IZR n * IZR m); [nra|].
      replace (qa * (IZR n * IZR m)) with (qa * IZR n * IZR m) by ring.
      replace (qb * (IZR n * IZR m)) with (qb * IZR m * IZR n) by ring.
      rewrite Eqa, Eqb, <- !mult_IZR. now apply IZR_le. }
    destruct (binding_scale qb qa rb ra eps) as [Hl Hu]; try lra.
    replace (Rmin (Rmin rb ra) 1) with s in Hl, Hu by (unfold s; now rewrite (Rmin_comm ra rb)).
    apply near_quotient; [lia|].
    rewrite mult_IZR.
    replace (IZR n * IZR bm / IZR m) with (IZR n * qb) by (unfold qb; field; lra).
    assert (HX : 0 < IZR n * qb <= 1125899906842624).
    { assert (0 < IZR n * qb) by (apply Rmult_lt_0_compat; lra).
      assert (IZR n * qb <= IZR n * 1) by (apply Rmult_le_compat_l; lra).
      lra. }
    assert (HXe : 0 <= IZR n * qb * eps) by (apply Rmult_le_pos; lra).
    split.
    + apply Lw; [|exact HX]. fold eps.
      assert (IZR n * (qb - qb * eps) <= IZR n * s) by (apply Rmult_le_compat_l; lra).
      lra.
    + apply Uw; [|lra]. fold eps.
      assert (IZR n * s <= IZR n * (qb + qb * eps)) by (apply Rmult_le_compat_l; lra).
      lra.
Qed.

(** In the [contain] mode the output fits in the bounds.  The dimension
    whose ratio is the smaller one, at most one, comes out as its bound
    exactly, and the other dimension is less than one pixel away from the
    one of the same aspect as the source.  Source dimensions are positive
    integers below [2^50], bounds positive integers below [2^53], and a
    bound that is not set is the source dimension. *)
Theorem contain_fits_bounds (srcW srcH : Z) (maxW maxH : option Z) :
  (0 < srcW < 2 ^ 50)%Z -> (0 < srcH < 2 ^ 50)%Z ->
  (forall b, maxW = Some b -> 0 < b < 2 ^ 53)%Z ->
  (forall b, maxH = Some b -> 0 < b < 2 ^ 53)%Z ->
  let boundW := match maxW with Some b => b | None => srcW end in
  let boundH := match maxH with Some b => b | None => srcH end in
  exists w h : Z,
    computeResize (JS.ofZ srcW) (JS.ofZ srcH)
                  (option_map JS.ofZ maxW) (option_map JS.ofZ maxH) contain
    = {| width := JS.ofZ w; height := JS.ofZ h; sx := 0; sy := 0;
         sWidth := JS.ofZ srcW; sHeight := JS.ofZ srcH |}
    /\ (0 <= w <= boundW /\ 0 <= h <= boundH)%Z
    /\ (boundW <= srcW -> boundW * srcH <= boundH * srcW ->
        w = boundW /\ Z.abs (h * srcW - srcH * boundW) < srcW)%Z
    /\ (boundH <= srcH -> boundH * srcW <= boundW * srcH ->
        h = boundH /\ Z.abs (w * srcH - srcW * boundH) < srcH)%Z.
Proof.
  intros HW HH HmW HmH boundW boundH.
  assert (HBW : (0 < boundW < 2 ^ 53)%Z).
  { unfold boundW. destruct maxW as [b|]; [now apply HmW|lia]. }
  assert (HBH : (0 < boundH < 2 ^ 53)%Z).
  { unfold boundH. destruct maxH as [b|]; [now apply HmH|lia]. }
  unfold computeResize. rewrite !ResizeFacts.effective_bound. fold boundW boundH.
  destruct (contain_scale_value srcW srcH boundW boundH) as (ra & rb & _ & _ & RA & RB & Hs);
    try lia.
  assert (HW3 : (0 < srcW < 2 ^ 53)%Z) by lia.
  assert (HH3 : (0 < srcH < 2 ^ 53)%Z) by lia.
  destruct (contain_dimension srcW srcH boundW boundH _ ra rb HW HH HBW HBH RA RB Hs)
    as (w & Ew & Hw & Hwb & Hw1 & Hw2).
  assert (Hs' : Rep (JS.Math_min3 (JS.ofZ boundW / JS.ofZ srcW) (JS.ofZ boundH / JS.ofZ srcH) 1)
                    (Rmin (Rmin rb ra) 1)).
  { now rewrite (Rmin_comm rb ra). }
  destruct (contain_dimension srcH srcW boundH boundW _ rb ra HH HW HBH HBW RB RA Hs')
    as (h & Eh & Hh & Hhb & Hh1 & Hh2).
  exists w, h. cbv zeta. rewrite Ew, Eh. split; [reflexivity|].
  split; [lia|]. split.
  - intros H1 H2. split; [now apply Hw1|]. now apply Hh2.
  - intros H1 H2. split; [now apply Hh1|]. now apply Hw2.
Qed.

Lemma contain_fits_bounds_witness :
  exists w h : Z,
    computeResize 4000 2000 (Some 1000%float) (Some 1000%float) contain
    = {| width := JS.ofZ w; height := JS.ofZ h; sx := 0; sy := 0;
         sWidth := 4000; sHeight := 2000 |}
    /\ (0 <= w <= 1000 /\ 0 <= h <= 1000)%Z
    /\ (1000 <= 4000 -> 1000 * 2000 <= 1000 * 4000 ->
        w = 1000 /\ Z.abs (h * 4000 - 2000 * 1000) < 4000)%Z
    /\ (1000 <= 2000 -> 1000 * 4000 <= 1000 * 2000 ->
        h = 1000 /\ Z.abs (w * 2000 - 4000 * 1000) < 2000)%Z.
Proof.
  apply (contain_fits_bounds 4000 2000 (Some 1000%Z) (Some 1000%Z)).
  - lia.
  - lia.
  - intros b [= <-]. lia.
  - intros b [= <-]. lia.
Defined.

(** In the [contain] mode a source that fits in the bounds is not scaled:
    when each bound is not set or at least the source dimension, the output
    is the source, dimension for dimension. *)
Theorem contain_keeps_smaller_source (srcW srcH : Z) (maxW maxH : option Z) :
  (0 < srcW < 2 ^ 53)%Z -> (0 < srcH < 2 ^ 53)%Z ->
  (forall b, maxW = Some b -> srcW <= b < 2 ^ 53)%Z ->
  (forall b, maxH = Some b -> srcH <= b < 2 ^ 53)%Z ->
  computeResize (JS.ofZ srcW) (JS.ofZ srcH)
                (option_map JS.ofZ maxW) (option_map JS.ofZ maxH) contain
  = {| width := JS.ofZ srcW; height := JS.ofZ srcH; sx := 0; sy := 0;
       sWidth := JS.ofZ srcW; sHeight := JS.ofZ srcH |}.
Proof.
  intros HW HH HmW HmH.
  set (boundW := match maxW with Some b => b | None => srcW end).
  set (boundH := match maxH with Some b => b | None => srcH end).
  assert (HBW : (srcW <= boundW < 2 ^ 53)%Z).
  { unfold boundW. destruct maxW as [b|]; [now apply HmW|lia]. }
  assert (HBH : (srcH <= boundH < 2 ^ 53)%Z).
  { unfold boundH. destruct maxH as [b|]; [now apply HmH|lia]. }
  unfold computeResize. rewrite !ResizeFacts.effective_bound. fold boundW boundH.
  destruct (contain_scale_value srcW srcH boundW boundH) as (ra & rb & _ & _ & RA & RB & Hs);
    try lia.
  assert (H1 : Rep 1%float 1) by (apply (ofZ_Rep 1); lia).
  assert (Hone : forall (n b : Z) (r : R), (0 < n < 2 ^ 53)%Z -> (n <= b < 2 ^ 53)%Z ->
                 Rnd (IZR b / IZR n) r -> 1 <= r).
  { intros n b r Hn Hb HR.
    assert (Hn' : 1 <= IZR n) by (apply (IZR_le 1); lia).
    assert (Hbn : IZR n <= IZR b) by (apply IZR_le; lia).
    assert (Hq : IZR b / IZR n * IZR n = IZR b) by (field; lra).
    assert (Hq1 : 1 <= IZR b / IZR n).
    { apply Rmult_le_reg_r with (IZR n); [lra|]. rewrite Hq. lra. }
    apply (Rnd_ge _ _ _ _ HR H1); [|exact Hq1].
    assert (pow2 (-1021) <= pow2 0) by (apply pow2_le; lia).
    rewrite pow2_0 in H. lra. }
  pose proof (Hone srcW boundW ra HW HBW RA) as Ha.
  pose proof (Hone srcH boundH rb HH HBH RB) as Hb.
  assert (E : Rmin (Rmin ra rb) 1 = 1).
  { apply Rmin_right. apply Rmin_glb; lra. }
  rewrite E in Hs. rewrite (Rep_inj _ _ 1 Hs H1).
  cbv zeta. now rewrite !unscaled_dimension.
Qed.

Lemma contain_keeps_smaller_source_witness :
  computeResize 640 480 (Some 1920%float) None contain
  = {| width := 640; height := 480; sx := 0; sy := 0; sWidth := 640; sHeight := 480 |}.
Proof.
  apply (contain_keeps_smaller_source 640 480 (Some 1920%Z) None).
  - lia.
  - lia.
  - intros b [= <-]. lia.
  - intros b H. discriminate H.
Defined.

(** ** The [cover] mode *)

(** The origin of a centered crop is the floor of half of what is left. *)
Lemma centered_exact (n c : Z) :
  (0 <= c <= n)%Z -> (n < 2 ^ 53)%Z ->
  JS.Math_floor ((JS.ofZ n - JS.ofZ c) / 2)%float = JS.ofZ ((n - c) / 2).
Proof.
  intros Hc Hn.
  assert (Hcn : 0 <= IZR n - IZR c <= 9007199254740991).
  { rewrite <- minus_IZR. change 0 with (IZR 0).
    change 9007199254740991 with (IZR (2 ^ 53 - 1)). split; apply IZR_le; lia. }
  assert (Hn' : IZR n <= 9007199254740991).
  { change 9007199254740991 with (IZR (2 ^ 53 - 1)). apply IZR_le. lia. }
  pose proof pow2_1000_large as Hbig. pose proof pow2_m1000_small as Hsmall.
  pose proof (pow2_pos (-1000)) as Hs0.
  destruct (sub_Rep (JS.ofZ n) (JS.ofZ c) (IZR n) (IZR c)) as (r1 & H1 & R1).
  { apply ofZ_Rep. lia. }
  { apply ofZ_Rep. lia. }
  { apply IZR_le. lia. }
  { lra. }
  assert (E1 : r1 = IZR n - IZR c).
  { apply (Rnd_exact _ _ (n - c) 0 53 R1).
    - rewrite pow2_0, minus_IZR. ring.
    - rewrite pow2_53. lra.
    - rewrite fexp_eq. lia. }
  subst r1.
  destruct (div_Rep _ (JS.ofZ 2) _ 2 H1) as (r2 & H2 & R2).
  { apply (ofZ_Rep 2). lia. }
  { lra. }
  { destruct (Req_dec (IZR n - IZR c) 0) as [E|E]; [now left|right].
    assert (1 <= IZR n - IZR c).
    { rewrite <- minus_IZR in *. apply (IZR_le 1).
      assert (n - c <> 0)%Z by (intros E0; apply E; now rewrite E0). lia. }
    split; [nra|lra]. }
  assert (E2 : r2 = (IZR n - IZR c) / 2).
  { apply (Rnd_exact _ _ (n - c) (-1) 52 R2).
    - rewrite minus_IZR, pow2_m1. lra.
    - rewrite <- pow2_IZR by lia. change (IZR (2 ^ 52)) with 4503599627370496. lra.
    - rewrite fexp_eq. lia. }
  subst r2.
  change (JS.ofZ 2) with 2%float in H2.
  destruct (Math_floor_Rep _ _ H2) as (a & Ha & Ha0 & Ha1).
  { rewrite pow2_53. lra. }
  rewrite Ha. f_equal.
  assert (H3 : IZR (2 * a) <= IZR (n - c)).
  { rewrite mult_IZR, minus_IZR. lra. }
  assert (H4 : IZR (n - c) < IZR (2 * a + 2)).
  { rewrite plus_IZR, mult_IZR, minus_IZR. lra. }
  apply le_IZR in H3. apply lt_IZR in H4.
  apply (Z.div_unique (n - c) 2 a (n - c - 2 * a)); lia.
Qed.

(** The bound [2^50] on a number whose lower approximation is below it. *)
Lemma below_2_50 (X bound : R) :
  0 < X -> X - 4 * (X * pow2 (-53)) <= bound -> bound <= 1125899906842623 ->
  X <= 1125899906842624.
Proof.
  intros HX Hb Hmax.
  pose proof pow2_m53 as He. pose proof (pow2_pos (-53)) as He0.
  set (eps := pow2 (-53)) in *.
  destruct (Rle_lt_dec X 1125899906842624) as [H|H]; [exact H|exfalso].
  assert (Heps : eps < / 1000) by nra.
  assert (H1 : 1125899906842624 * (1 - 4 * eps) <= X * (1 - 4 * eps))
    by (apply Rmult_le_compat_r; lra).
  assert (H2 : 1125899906842624 * eps = / 8).
  { apply Rmult_eq_reg_r with 8; [|lra].
    replace (1125899906842624 * eps * 8) with (eps * 9007199254740992) by ring. lra. }
  lra.
Qed.

(** [cover], the source relatively wider than the bounds: the width of the
    crop. *)
Lemma cover_wide (srcW srcH boundW boundH : Z) (rt : R) :
  (0 < srcW < 2 ^ 50)%Z -> (0 < srcH < 2 ^ 50)%Z ->
  (0 < boundW < 2 ^ 53)%Z -> (0 < boundH < 2 ^ 53)%Z ->
  Rep (JS.ofZ boundW / JS.ofZ boundH)%float rt -> Rnd (IZR boundW / IZR boundH) rt ->
  JS.gt (JS.ofZ srcW / JS.ofZ srcH)%float (JS.ofZ boundW / JS.ofZ boundH)%float = true ->
  exists c : Z,
    JS.Math_round (JS.ofZ srcH * (JS.ofZ boundW / JS.ofZ boundH))%float = JS.ofZ c
    /\ (0 <= c <= srcW)%Z /\ (Z.abs (c * boundH - srcH * boundW) < boundH)%Z.
Proof.
  intros HW HH HBW HBH Ht RT Hgt.
  destruct (ratio_error boundW boundH rt HBW HBH RT) as (Hqt & Hrt).
  assert (HW' : 1 <= IZR srcW <= IZR (2 ^ 50) - 1) by (apply IZR_bounds; lia).
  assert (HH' : 1 <= IZR srcH <= IZR (2 ^ 50) - 1) by (apply IZR_bounds; lia).
  assert (HBW' : 1 <= IZR boundW <= IZR (2 ^ 53) - 1) by (apply IZR_bounds; lia).
  assert (HBH' : 1 <= IZR boundH <= IZR (2 ^ 53) - 1) by (apply IZR_bounds; lia).
  change (IZR (2 ^ 50)) with 1125899906842624 in *.
  change (IZR (2 ^ 53)) with 9007199254740992 in *.
  destruct (div_integers srcW srcH ltac:(lia) ltac:(lia)) as (rx & Hx & RX).
  unfold JS.gt in Hgt. apply (ltb_Rep _ _ _ _ Ht Hx) in Hgt.
  assert (Hlt : rt < IZR srcW / IZR srcH).
  { destruct (Rlt_le_dec rt (IZR srcW / IZR srcH)) as [H|H]; [exact H|].
    pose proof (Rnd_le _ _ _ _ RX Ht H). lra. }
  assert (Eqx : IZR srcW / IZR srcH * IZR srcH = IZR srcW) by (field; lra).
  assert (Eqt : IZR boundW / IZR boundH * IZR boundH = IZR boundW) by (field; lra).
  set (qx := IZR srcW / IZR srcH) in *. set (qt := IZR boundW / IZR boundH) in *.
  pose proof pow2_m53 as He. pose proof (pow2_pos (-53)) as He0.
  pose proof pow2_m1000_small as Hsmall. pose proof (pow2_pos (-1000)) as Hs0.
  pose proof pow2_1000_large as Hbig.
  set (eps := pow2 (-53)) in *.
  assert (Heps : eps < / 1000) by nra.
  assert (Hprod : IZR srcH * rt < IZR srcW) by nra.
  assert (HrH : Rep (JS.ofZ srcH) (IZR srcH)) by (apply ofZ_Rep; lia).
  assert (HrW : Rep (JS.ofZ srcW) (IZR srcW)) by (apply ofZ_Rep; lia).
  destruct (mul_Rep _ _ _ _ HrH Ht) as (r & Hr & HR); [lra|].
  assert (Hle : r <= IZR srcW) by (apply (Rnd_le _ _ _ _ HR HrW); lra).
  set (X := IZR srcH * qt).
  assert (HX0 : 0 < X) by (unfold X; apply Rmult_lt_0_compat; lra).
  assert (Hpl : X - X * eps <= IZR srcH * rt).
  { replace (X - X * eps) with (IZR srcH * (qt - qt * eps)) by (unfold X; ring).
    apply Rmult_le_compat_l; lra. }
  assert (Hpu : IZR srcH * rt <= X + X * eps).
  { replace (X + X * eps) with (IZR srcH * (qt + qt * eps)) by (unfold X; ring).
    apply Rmult_le_compat_l; lra. }
  assert (HXmax : X <= 1125899906842624).
  { assert (HXe : 0 <= X * eps) by (apply Rmult_le_pos; lra).
    apply (below_2_50 X (IZR srcW)); [exact HX0|fold eps; lra|lra]. }
  assert (HXe : 0 <= X * eps) by (apply Rmult_le_pos; lra).
  assert (Hp : pow2 (-1000) <= IZR srcH * rt).
  { apply (product_not_tiny srcH qt rt eps); lra. }
  pose proof (near_half_above _ _ X HR Hp ltac:(fold eps; lra) HXmax) as Hu.
  pose proof (near_half_below _ _ X HR Hp ltac:(fold eps; lra) ltac:(lra)) as Hl.
  destruct (Math_round_Rep _ _ Hr) as (c & Hc & Hc0 & Hc1).
  { rewrite pow2_53. lra. }
  exists c. split; [exact Hc|]. split.
  - split; [exact Hc0|].
    assert (H : IZR c < IZR (srcW + 1)) by (rewrite plus_IZR; lra).
    apply lt_IZR in H. lia.
  - apply near_quotient; [lia|]. rewrite mult_IZR.
    replace (IZR srcH * IZR boundW / IZR boundH) with X by (unfold X, qt; field; lra).
    lra.
Qed.

(** [cover], the source relatively not wider than the bounds: the height
    of the crop. *)
Lemma cover_tall (srcW srcH boundW boundH : Z) (rt : R) :
  (0 < srcW < 2 ^ 50)%Z -> (0 < srcH < 2 ^ 50)%Z ->
  (0 < boundW < 2 ^ 53)%Z -> (0 < boundH < 2 ^ 53)%Z ->
  Rep (JS.ofZ boundW / JS.ofZ boundH)%float rt -> Rnd (IZR boundW / IZR boundH) rt ->
  JS.gt (JS.ofZ srcW / JS.ofZ srcH)%float (JS.ofZ boundW / JS.ofZ boundH)%float = false ->
  exists d : Z,
    JS.Math_round (JS.ofZ srcW / (JS.ofZ boundW / JS.ofZ boundH))%float = JS.ofZ d
    /\ (0 <= d <= srcH)%Z /\ (Z.abs (d * boundW - srcW * boundH) < boundW)%Z.
Proof.
  intros HW HH HBW HBH Ht RT Hgt.
  destruct (ratio_error boundW boundH rt HBW HBH RT) as (Hqt & Hrt).
  assert (HW' : 1 <= IZR srcW <= IZR (2 ^ 50) - 1) by (apply IZR_bounds; lia).
  assert (HH' : 1 <= IZR srcH <= IZR (2 ^ 50) - 1) by (apply IZR_bounds; lia).
  assert (HBW' : 1 <= IZR boundW <= IZR (2 ^ 53) - 1) by (apply IZR_bounds; lia).
  assert (HBH' : 1 <= IZR boundH <= IZR (2 ^ 53) - 1) by (apply IZR_bounds; lia).
  change (IZR (2 ^ 50)) with 1125899906842624 in *.
  change (IZR (2 ^ 53)) with 9007199254740992 in *.
  destruct (div_integers srcW srcH ltac:(lia) ltac:(lia)) as (rx & Hx & RX).
  destruct (ratio_error srcW srcH rx ltac:(lia) ltac:(lia) RX) as (Hqx & Hrx).
  assert (Hle : rx <= rt).
  { destruct (Rle_lt_dec rx rt) as [H|H]; [exact H|].
    apply (ltb_Rep _ _ _ _ Ht Hx) in H. unfold JS.gt in Hgt. congruence. }
  assert (Eqx : IZR srcW / IZR srcH * IZR srcH = IZR srcW) by (field; lra).
  assert (Eqt : IZR boundW / IZR boundH * IZR boundH = IZR boundW) by (field; lra).
  set (qx := IZR srcW / IZR srcH) in *. set (qt := IZR boundW / IZR boundH) in *.
  pose proof pow2_m53 as He. pose proof (pow2_pos (-53)) as He0.
  pose proof (pow2_pos (-1000)) as Hs0. pose proof pow2_1000_large as Hbig.
  pose proof tiny_below_ratio as Htiny.
  set (eps := pow2 (-53)) in *.
  assert (Heps : eps < / 1000) by nra.
  assert (Hqx0 : 0 < qx) by lra. assert (Hqt0 : 0 < qt) by lra.
  assert (Hqxe : 0 <= qx * eps) by (apply Rmult_le_pos; lra).
  assert (Hqte : 0 <= qt * eps) by (apply Rmult_le_pos; lra).
  assert (Hqx2 : qx * / 2 <= qx - qx * eps).
  { replace (qx - qx * eps) with (qx * (1 - eps)) by ring.
    apply Rmult_le_compat_l; lra. }
  assert (Hrt0 : 0 < rt) by lra.
  assert (Ea : IZR srcW / rt * rt = IZR srcW) by (field; lra).
  set (a := IZR srcW / rt) in *.
  assert (Ha0 : 0 < a).
  { apply Rmult_lt_reg_r with rt; [exact Hrt0|]. rewrite Ea. lra. }
  (* the quotient by the target aspect is not much above the height *)
  assert (Hah : a * (1 - eps) <= IZR srcH).
  { apply Rmult_le_reg_r with qx; [exact Hqx0|].
    replace (a * (1 - eps) * qx) with (a * (qx - qx * eps)) by ring.
    replace (IZR srcH * qx) with (qx * IZR srcH) by ring. rewrite Eqx, <- Ea.
    apply Rmult_le_compat_l; lra. }
  assert (Hae : 0 <= a * eps) by (apply Rmult_le_pos; lra).
  assert (Ha2 : a <= 2 * IZR srcH).
  { assert (a * / 2 <= a * (1 - eps)) by (apply Rmult_le_compat_l; lra). lra. }
  (* the exact height of the crop *)
  assert (EX : IZR srcW / qt * qt = IZR srcW) by (field; lra).
  set (X := IZR srcW / qt) in *.
  assert (HX0 : 0 < X).
  { apply Rmult_lt_reg_r with qt; [exact Hqt0|]. rewrite EX. lra. }
  assert (HXe : 0 <= X * eps) by (apply Rmult_le_pos; lra).
  assert (Hee : 0 <= eps * eps <= eps * / 1000).
  { split; [apply Rmult_le_pos; lra|apply Rmult_le_compat_l; lra]. }
  assert (Hau : a <= X + 2 * (X * eps)).
  { apply Rmult_le_reg_r with rt; [exact Hrt0|]. rewrite Ea.
    apply Rle_trans with ((X + 2 * (X * eps)) * (qt - qt * eps)).
    - replace ((X + 2 * (X * eps)) * (qt - qt * eps))
        with (X * qt * (1 + eps - 2 * (eps * eps))) by ring.
      rewrite EX.
      assert (IZR srcW * 1 <= IZR srcW * (1 + eps - 2 * (eps * eps)))
        by (apply Rmult_le_compat_l; lra).
      lra.
    - apply Rmult_le_compat_l; lra. }
  assert (Hal : X - 2 * (X * eps) <= a).
  { apply Rmult_le_reg_r with rt; [exact Hrt0|]. rewrite Ea.
    assert (Hx2 : 0 <= X - 2 * (X * eps)).
    { replace (X - 2 * (X * eps)) with (X * (1 - 2 * eps)) by ring.
      apply Rmult_le_pos; lra. }
    apply Rle_trans with ((X - 2 * (X * eps)) * (qt + qt * eps)).
    - apply Rmult_le_compat_l; lra.
    - replace ((X - 2 * (X * eps)) * (qt + qt * eps))
        with (X * qt * (1 - eps - 2 * (eps * eps))) by ring.
      rewrite EX.
      assert (IZR srcW * (1 - eps - 2 * (eps * eps)) <= IZR srcW * 1)
        by (apply Rmult_le_compat_l; lra).
      lra. }
  assert (HXmax : X <= 1125899906842624).
  { apply (below_2_50 X (IZR srcH)); [exact HX0| |lra]. fold eps.
    assert (H1 : (X - 2 * (X * eps)) * (1 - eps) <= a * (1 - eps))
      by (apply Rmult_le_compat_r; lra).
    replace ((X - 2 * (X * eps)) * (1 - eps))
      with (X - 3 * (X * eps) + 2 * (X * eps) * eps) in H1 by ring.
    assert (0 <= 2 * (X * eps) * eps) by (apply Rmult_le_pos; lra).
    lra. }
  assert (HrW : Rep (JS.ofZ srcW) (IZR srcW)) by (apply ofZ_Rep; lia).
  assert (Hp : pow2 (-1000) <= a).
  { assert (X * / 2 <= X - 2 * (X * eps)).
    { replace (X - 2 * (X * eps)) with (X * (1 - 2 * eps)) by ring.
      apply Rmult_le_compat_l; lra. }
    assert (/ 9007199254740992 <= X).
    { apply Rmult_le_reg_r with qt; [exact Hqt0|]. rewrite EX.
      apply Rmult_le_reg_r with (IZR boundH); [lra|].
      replace (/ 9007199254740992 * qt * IZR boundH)
        with (/ 9007199254740992 * (qt * IZR boundH)) by ring.
      rewrite Eqt.
      assert (/ 9007199254740992 * IZR boundW <= / 9007199254740992 * 9007199254740992)
        by (apply Rmult_le_compat_l; lra).
      assert (1 * 1 <= IZR srcW * IZR boundH) by (apply Rmult_le_compat; lra).
      lra. }
    assert (/ 9007199254740992 * / 2 <= X * / 2) by (apply Rmult_le_compat_r; lra).
    lra. }
  destruct (div_Rep _ _ _ _ HrW Ht Hrt0) as (r & Hr & HR).
  { right. fold a. lra. }
  fold a in HR.
  assert (Hra : r <= a + a * eps).
  { apply Rnd_error; [exact HR|].
    assert (pow2 (-1021) <= pow2 (-1000)) by (apply pow2_le; lia). lra. }
  assert (Hrh : r < IZR srcH + / 2).
  { assert (H1 : r * (1 - eps) <= IZR srcH * (1 + eps)).
    { apply Rle_trans with ((a + a * eps) * (1 - eps)).
      - apply Rmult_le_compat_r; lra.
      - replace ((a + a * eps) * (1 - eps)) with (a * (1 - eps) * (1 + eps)) by ring.
        apply Rmult_le_compat_r; lra. }
    assert (Hu : IZR srcH * eps <= / 8).
    { apply Rmult_le_reg_r with 9007199254740992; [lra|].
      replace (IZR srcH * eps * 9007199254740992)
        with (IZR srcH * (eps * 9007199254740992)) by ring.
      rewrite He. lra. }
    assert (H2 : IZR srcH * (1 + eps) < (IZR srcH + / 2) * (1 - eps)) by lra.
    apply Rmult_lt_reg_r with (1 - eps); lra. }
  pose proof (near_half_above _ _ X HR Hp Hau HXmax) as Hu.
  pose proof (near_half_below _ _ X HR Hp Hal ltac:(lra)) as Hl.
  destruct (Math_round_Rep _ _ Hr) as (d & Hd & Hd0 & Hd1).
  { rewrite pow2_53. lra. }
  exists d. split; [exact Hd|]. split.
  - split; [exact Hd0|].
    assert (H : IZR d < IZR (srcH + 1)) by (rewrite plus_IZR; lra).
    apply lt_IZR in H. lia.
  - apply near_quotient; [lia|]. rewrite mult_IZR.
    replace (IZR srcW * IZR boundH / IZR boundW) with X by (unfold X, qt; field; lra).
    lra.
Qed.

(** In the [cover] mode the output is the bounds and the crop is centered:
    its origin is the floor of half of what is left on each axis.  One axis
    of the source is taken whole, and on the other axis the crop is less
    than one pixel away from the one of the same aspect as the bounds; when
    the bounds have the aspect of the source the whole source is taken.
    Source dimensions are positive integers below [2^50], bounds positive
    integers below [2^53], and a bound that is not set is the source
    dimension. *)
Theorem cover_crop_shape (srcW srcH : Z) (maxW maxH : option Z) :
  (0 < srcW < 2 ^ 50)%Z -> (0 < srcH < 2 ^ 50)%Z ->
  (forall b, maxW = Some b -> 0 < b < 2 ^ 53)%Z ->
  (forall b, maxH = Some b -> 0 < b < 2 ^ 53)%Z ->
  let boundW := match maxW with Some b => b | None => srcW end in
  let boundH := match maxH with Some b => b | None => srcH end in
  exists c d : Z,
    computeResize (JS.ofZ srcW) (JS.ofZ srcH)
                  (option_map JS.ofZ maxW) (option_map JS.ofZ maxH) cover
    = {| width := JS.ofZ boundW; height := JS.ofZ boundH;
         sx := JS.ofZ ((srcW - c) / 2); sy := JS.ofZ ((srcH - d) / 2);
         sWidth := JS.ofZ c; sHeight := JS.ofZ d |}
    /\ (0 <= c <= srcW /\ 0 <= d <= srcH)%Z
    /\ ((d = srcH /\ Z.abs (c * boundH - srcH * boundW) < boundH)
        \/ (c = srcW /\ Z.abs (d * boundW - srcW * boundH) < boundW))%Z
    /\ (boundW * srcH = boundH * srcW -> c = srcW /\ d = srcH)%Z.
Proof.
  intros HW HH HmW HmH boundW boundH.
  assert (HBW : (0 < boundW < 2 ^ 53)%Z).
  { unfold boundW. destruct maxW as [b|]; [now apply HmW|lia]. }
  assert (HBH : (0 < boundH < 2 ^ 53)%Z).
  { unfold boundH. destruct maxH as [b|]; [now apply HmH|lia]. }
  unfold computeResize. rewrite !ResizeFacts.effective_bound. fold boundW boundH.
  destruct (div_integers boundW boundH HBW HBH) as (rt & Ht & RT).
  cbv zeta.
  destruct (JS.gt (JS.ofZ srcW / JS.ofZ srcH) (JS.ofZ boundW / JS.ofZ boundH)) eqn:G.
  - destruct (cover_wide srcW srcH boundW boundH rt HW HH HBW HBH Ht RT G)
      as (c & Ec & Hc & Hc1).
    exists c, srcH. rewrite Ec.
    rewrite (centered_exact srcW c) by lia. rewrite (centered_exact srcH srcH) by lia.
    split; [reflexivity|]. split; [lia|]. split; [now left|].
    intros E. split; [|reflexivity].
    assert (E1 : (c * boundH - srcH * boundW = boundH * (c - srcW))%Z) by lia.
    rewrite E1 in Hc1. nia.
  - destruct (cover_tall srcW srcH boundW boundH rt HW HH HBW HBH Ht RT G)
      as (d & Ed & Hd & Hd1).
    exists srcW, d. rewrite Ed.
    rewrite (centered_exact srcW srcW) by lia. rewrite (centered_exact srcH d) by lia.
    split; [reflexivity|]. split; [lia|]. split; [now right|].
    intros E. split; [reflexivity|].
    assert (E1 : (d * boundW - srcW * boundH = boundW * (d - srcH))%Z) by lia.
    rewrite E1 in Hd1. nia.
Qed.

Lemma cover_crop_shape_witness :
  exists c d : Z,
    computeResize 4000 2000 (Some 1000%float) (Some 1000%float) cover
    = {| width := 1000; height := 1000;
         sx := JS.ofZ ((4000 - c) / 2); sy := JS.ofZ ((2000 - d) / 2);
         sWidth := JS.ofZ c; sHeight := JS.ofZ d |}
    /\ (0 <= c <= 4000 /\ 0 <= d <= 2000)%Z
    /\ ((d = 2000 /\ Z.abs (c * 1000 - 2000 * 1000) < 1000)
        \/ (c = 4000 /\ Z.abs (d * 1000 - 4000 * 1000) < 1000))%Z
    /\ (1000 * 2000 = 1000 * 4000 -> c = 4000 /\ d = 2000)%Z.
Proof.
  apply (cover_crop_shape 4000 2000 (Some 1000%Z) (Some 1000%Z)).
  - lia.
  - lia.
  - intros b [= <-]. lia.
  - intros b [= <-]. lia.
Defined.

End GeometryFacts.

(* ================================================================== *)
(** * The options panel *)
(* ================================================================== *)

Module PanelFacts.

Import Utils Convert OptionsPanel.

(** What the buttons of the format group that can be clicked do, but for
    [BASE64].  [PNG], [JPEG] and [WEBP] can be clicked on the files of
    another type: the file is then rendered, and the type handed to the
    encoder is the type of the button.  [SVG] can be clicked on the files
    of the two SVG types only, and converts nothing: the file is passed
    through. *)
Theorem enabled_formats_convert {Err : Type} (P : Platform Err)
    (file : File) (value : ConvertOptions) (f : Format) :
  file_type file <> "" ->
  In f (fmts (Some (file_type file))) ->
  disabled f = false ->
  targetFormat value = Some (key f) ->
  key f = "base64"
  \/ ((key f = "png" \/ key f = "jpeg" \/ key f = "webp")
      /\ targetMimeOf file value <> file_type file
      /\ clampCanvasMime (targetMimeOf file value) = targetMimeOf file value
      /\ convertFileToBase64 P file value
         = render P file value (file_type file) (targetMimeOf file value))
  \/ (key f = "svg"
      /\ isSvgMime (Some (file_type file)) = true
      /\ convertFileToBase64 P file value = passthrough P file).
Proof.
  intros Hne Hin Hd Htf.
  assert (Hom : originalMimeOf file = file_type file).
  { unfold originalMimeOf, JS.orElse.
    destruct (String.eqb_spec (file_type file) "") as [E|_]; [contradiction|reflexivity]. }
  assert (Hraster : key f = "png" \/ key f = "jpeg" \/ key f = "webp" ->
            convertFileToBase64 P file value
            = render P file value (file_type file) (targetMimeOf file value)).
  { intros Hk. unfold convertFileToBase64, targetMimeOf. fold (originalMimeOf file).
    rewrite Hom, Htf. cbv zeta.
    destruct Hk as [-> | [-> | ->]]; cbn; now rewrite !andb_false_r. }
  unfold fmts in Hin. cbv zeta in Hin.
  assert (Hf : JS.falsy (Some (file_type file)) = false).
  { unfold JS.falsy. now apply String.eqb_neq. }
  rewrite Hf in Hin. cbn [negb andb JS.isLit] in Hin.
  destruct Hin as [<-|[<-|[<-|[<-|[<-|[]]]]]]; cbn [key disabled] in *.
  - now left.
  - right; left. split; [now left|]. split; [|split; [|apply Hraster; now left]].
    + unfold targetMimeOf. rewrite Hom, Htf. apply String.eqb_neq in Hd. cbn. congruence.
    + unfold targetMimeOf. now rewrite Htf.
  - right; left. split; [right; now left|].
    split; [|split; [|apply Hraster; right; now left]].
    + unfold targetMimeOf. rewrite Hom, Htf. apply String.eqb_neq in Hd. cbn. congruence.
    + unfold targetMimeOf. now rewrite Htf.
  - right; left. split; [right; now right|].
    split; [|split; [|apply Hraster; right; now right]].
    + unfold targetMimeOf. rewrite Hom, Htf. apply String.eqb_neq in Hd. cbn. congruence.
    + unfold targetMimeOf. now rewrite Htf.
  - right; right. split; [reflexivity|].
    apply negb_false_iff in Hd.
    assert (Hsvg : isSvgMime (Some (file_type file)) = true) by exact Hd.
    split; [exact Hsvg|].
    unfold convertFileToBase64. fold (originalMimeOf file). rewrite Hom, Htf, Hsvg.
    reflexivity.
Qed.

Lemma enabled_formats_convert_witness :
  convertFileToBase64 Sample.browser (Sample.fileOf "image/svg")
    {| targetFormat := Some "svg"; quality := None; resize := None; background := None |}
  = passthrough Sample.browser (Sample.fileOf "image/svg").
Proof.
  destruct (enabled_formats_convert Sample.browser (Sample.fileOf "image/svg")
              {| targetFormat := Some "svg"; quality := None; resize := None;
                 background := None |}
              {| key := "svg"; label := "SVG"; disabled := false |})
    as [H|[(H & _)|(_ & _ & H)]].
  - discriminate.
  - do 4 right. left. reflexivity.
  - reflexivity.
  - reflexivity.
  - discriminate H.
  - destruct H as [H|[H|H]]; discriminate H.
  - exact H.
Defined.

Section Handlers.

Variable Number : string -> float.

Lemma step_keeps_resize (currentMime : option string) (value : ConvertOptions) (a : Action) :
  resize value <> None -> resize (step Number currentMime value a) <> None.
Proof.
  intros H. unfold step, handler.
  destruct a as [i|text|text|text|choice|color]; cbn; try discriminate; try exact H.
  destruct (nth_error (fmts currentMime) i) as [f|]; [|exact H].
  destruct (negb (disabled f)); exact H.
Qed.

Lemma steps_keep_resize (currentMime : option string) (actions : list Action)
    (value : ConvertOptions) :
  resize value <> None -> resize (steps Number currentMime value actions) <> None.
Proof.
  revert value. induction actions as [|a l IH]; intros value H; [exact H|].
  apply IH. now apply step_keeps_resize.
Qed.

Lemma resized_renders {Err : Type} (P : Platform Err) (file : File)
    (options : ConvertOptions) :
  resize options <> None ->
  isSvgMime (Some (originalMimeOf file)) = false ->
  convertFileToBase64 P file options
  = render P file options (originalMimeOf file) (targetMimeOf file options).
Proof.
  intros Hr Hs. unfold convertFileToBase64. cbv zeta.
  fold (originalMimeOf file). fold (targetMimeOf file options). rewrite Hs.
  destruct (resize options); [|congruence]. cbn [andb orb negb].
  now destruct (_ || _).
Qed.

(** Once an input of the resize was changed, the options carry a [resize]
    object, whatever is done on the panel afterwards, also when the input
    was emptied again and no bound is left.  From then on no file but an
    SVG is passed through: every conversion decodes the image and encodes
    it again. *)
Theorem resize_once_touched {Err : Type} (P : Platform Err) (file : File)
    (currentMime : option string) (value : ConvertOptions)
    (a : Action) (actions : list Action) :
  touchesResize a = true ->
  isSvgMime (Some (originalMimeOf file)) = false ->
  resize (steps Number currentMime value (a :: actions)) <> None
  /\ convertFileToBase64 P file (steps Number currentMime value (a :: actions))
     = render P file (steps Number currentMime value (a :: actions))
              (originalMimeOf file)
              (targetMimeOf file (steps Number currentMime value (a :: actions)))
  /\ resize (step Number currentMime value (ChangeMaxWidth ""))
     = Some (withMaxWidth (resize value) None).
Proof.
  intros Ha Hs.
  assert (H : resize (steps Number currentMime value (a :: actions)) <> None).
  { cbn [steps fold_left]. apply steps_keep_resize.
    destruct a; try discriminate Ha; cbn; discriminate. }
  split; [exact H|]. split; [now apply resized_renders|reflexivity].
Qed.

(** The options the panel can make from options without a target keep a
    target that is one of its five formats or none, and exactly one button
    of the format group is the selected one. *)
Theorem one_format_selected (currentMime : option string) (value : ConvertOptions)
    (actions : list Action) :
  targetFormat value = None ->
  (targetFormat (steps Number currentMime value actions) = None
   \/ exists f, In f (fmts currentMime)
                /\ targetFormat (steps Number currentMime value actions) = Some (key f))
  /\ List.length (filter (selected (steps Number currentMime value actions)) (fmts currentMime))
     = 1%nat.
Proof.
  intros H0.
  assert (Hinv : forall value,
            targetFormat value = None
            \/ (exists f, In f (fmts currentMime) /\ targetFormat value = Some (key f)) ->
            forall a,
              targetFormat (step Number currentMime value a) = None
              \/ (exists f, In f (fmts currentMime)
                            /\ targetFormat (step Number currentMime value a) = Some (key f))).
  { intros v Hv a. unfold step, handler.
    destruct a as [i|text|text|text|choice|color]; cbn; try exact Hv.
    destruct (nth_error (fmts currentMime) i) as [f|] eqn:E; [|exact Hv].
    destruct (negb (disabled f)); [|exact Hv].
    right. exists f. split; [|reflexivity]. now apply nth_error_In in E. }
  assert (Hall : forall actions value,
            targetFormat value = None
            \/ (exists f, In f (fmts currentMime) /\ targetFormat value = Some (key f)) ->
            targetFormat (steps Number currentMime value actions) = None
            \/ (exists f, In f (fmts currentMime)
                          /\ targetFormat (steps Number currentMime value actions)
                             = Some (key f))).
  { intros l. induction l as [|a l IH]; intros v Hv; [exact Hv|].
    cbn [steps fold_left]. apply IH. now apply Hinv. }
  specialize (Hall actions value (or_introl H0)).
  split; [exact Hall|].
  unfold selected. destruct Hall as [-> | (f & Hin & ->)]; [reflexivity|].
  cbn [JS.nullish].
  destruct Hin as [<-|[<-|[<-|[<-|[<-|[]]]]]]; reflexivity.
Qed.

End Handlers.

Lemma resize_once_touched_witness :
  resize (steps (fun _ => 1920%float) (Some "image/png") noOptions
            [ChangeMaxWidth "1920"; ChangeMaxWidth ""])
  <> None.
Proof.
  apply (resize_once_touched (fun _ => 1920%float) Sample.browser (Sample.fileOf "image/png")
           (Some "image/png") noOptions (ChangeMaxWidth "1920") [ChangeMaxWidth ""]);
    reflexivity.
Defined.

Lemma one_format_selected_witness :
  List.length (filter (selected (steps (fun _ => 1920%float) (Some "image/png") noOptions
                              [ClickFormat 2; ChangeQuality "0.8"]))
                 (fmts (Some "image/png")))
  = 1%nat.
Proof.
  apply (one_format_selected (fun _ => 1920%float) (Some "image/png") noOptions
           [ClickFormat 2; ChangeQuality "0.8"]).
  reflexivity.
Defined.

End PanelFacts.

(* ================================================================== *)
(** * The JSON formatter *)
(* ================================================================== *)

Module JsonFacts.

Import JsonFormatter.

(** Induction on a value and on the values inside it. *)
Lemma Json_induction (Q : Json -> Prop) :
  Q JNull -> (forall b, Q (JBool b)) -> (forall n, Q (JNumber n)) ->
  (forall s, Q (JString s)) ->
  (forall items, Forall Q items -> Q (JArray items)) ->
  (forall props, Forall (fun kv => Q (snd kv)) props -> Q (JObject props)) ->
  forall v, Q v.
Proof.
  intros Hnull Hbool Hnum Hstr Harr Hobj.
  fix IH 1. intros [ |b|n|s|items|props].
  - exact Hnull.
  - apply Hbool.
  - apply Hnum.
  - apply Hstr.
  - apply Harr. induction items as [|v items IHl]; constructor; [apply IH|exact IHl].
  - apply Hobj. induction props as [|[k v] props IHl]; constructor; [apply IH|exact IHl].
Qed.

(** ** Properties of an object *)

Section Objects.

Context {A : Type}.

Implicit Types (props : list (string * A)) (k key : string) (v : A).

Lemma get_replace_same props key v w :
  JS.getProperty props key = Some w ->
  JS.getProperty (JS.replaceProperty key v props) key = Some v.
Proof.
  induction props as [|[k u] props IH]; cbn; [discriminate|].
  destruct (String.eqb k key) eqn:E; cbn; rewrite E; auto.
Qed.

Lemma get_replace_other props key k v :
  k <> key ->
  JS.getProperty (JS.replaceProperty key v props) k = JS.getProperty props k.
Proof.
  intros Hk. induction props as [|[k' u] props IH]; cbn; [reflexivity|].
  destruct (String.eqb_spec k' key) as [->|E]; cbn.
  - apply String.eqb_neq in Hk. rewrite String.eqb_sym in Hk. now rewrite Hk.
  - now rewrite IH.
Qed.

Lemma keys_replace props key v :
  JS.keys (JS.replaceProperty key v props) = JS.keys props.
Proof.
  induction props as [|[k u] props IH]; cbn; [reflexivity|].
  destruct (String.eqb k key); cbn; [reflexivity|]. unfold JS.keys in IH. now rewrite IH.
Qed.

Lemma get_insert_same i props key v :
  JS.getProperty props key = None ->
  JS.getProperty (JS.insertIndex i key v props) key = Some v.
Proof.
  induction props as [|[k u] props IH]; cbn; [now rewrite String.eqb_refl|].
  destruct (String.eqb k key) eqn:E; [discriminate|]. intros H.
  destruct (JS.arrayIndex k) as [j|]; [destruct (j <? i)|]; cbn;
    rewrite ?E, ?String.eqb_refl; auto.
Qed.

Lemma get_insert_other i props key k v :
  k <> key ->
  JS.getProperty (JS.insertIndex i key v props) k = JS.getProperty props k.
Proof.
  intros Hk. apply String.eqb_neq in Hk. rewrite String.eqb_sym in Hk.
  induction props as [|[k' u] props IH]; cbn; [now rewrite Hk|].
  destruct (JS.arrayIndex k') as [j|]; [destruct (j <? i)|]; cbn; rewrite ?Hk, ?IH; auto.
Qed.

Lemma get_app props1 props2 k :
  JS.getProperty (props1 ++ props2)%list k
  = match JS.getProperty props1 k with
    | Some v => Some v
    | None => JS.getProperty props2 k
    end.
Proof.
  induction props1 as [|[k' u] props1 IH]; cbn; [reflexivity|].
  destruct (String.eqb k' k); auto.
Qed.

(** Reading what was assigned, and reading another key. *)
Lemma get_set_same props key v :
  key <> "__proto__" -> JS.getProperty (JS.setProperty props key v) key = Some v.
Proof.
  intros Hk. unfold JS.setProperty. apply String.eqb_neq in Hk. rewrite Hk.
  destruct (JS.getProperty props key) as [w|] eqn:E.
  - now apply get_replace_same with w.
  - destruct (JS.arrayIndex key) as [i|].
    + now apply get_insert_same.
    + rewrite get_app, E. cbn. now rewrite String.eqb_refl.
Qed.

Lemma get_set_other props key k v :
  k <> key -> JS.getProperty (JS.setProperty props key v) k = JS.getProperty props k.
Proof.
  intros Hk. unfold JS.setProperty.
  destruct (String.eqb key "__proto__"); [reflexivity|].
  destruct (JS.getProperty props key) as [w|] eqn:E.
  - now apply get_replace_other.
  - destruct (JS.arrayIndex key) as [i|].
    + now apply get_insert_other.
    + rewrite get_app. cbn. apply String.eqb_neq in Hk. rewrite String.eqb_sym in Hk.
      rewrite Hk. now destruct (JS.getProperty props k).
Qed.

Lemma get_set_proto props key v :
  JS.getProperty props "__proto__" = None ->
  JS.getProperty (JS.setProperty props key v) "__proto__" = None.
Proof.
  intros H. destruct (String.eqb_spec key "__proto__") as [->|Hk].
  - unfold JS.setProperty. now rewrite String.eqb_refl.
  - rewrite get_set_other; auto.
Qed.

Lemma get_in_keys props k :
  JS.getProperty props k <> None <-> In k (JS.keys props).
Proof.
  induction props as [|[k' u] props IH]; cbn; [tauto|].
  destruct (String.eqb_spec k' k) as [->|E].
  - split; [auto|discriminate].
  - rewrite IH. unfold JS.keys. split; [auto|]. intros [H|H]; [contradiction|exact H].
Qed.

Lemma in_keys_replace props key v k :
  In k (JS.keys (JS.replaceProperty key v props)) <-> In k (JS.keys props).
Proof. now rewrite keys_replace. Qed.

Lemma in_keys_insert i props key v k :
  In k (JS.keys (JS.insertIndex i key v props)) <-> k = key \/ In k (JS.keys props).
Proof.
  induction props as [|[k' u] props IH]; cbn.
  - intuition.
  - destruct (JS.arrayIndex k') as [j|]; [destruct (j <? i)|]; cbn.
    + unfold JS.keys in IH. rewrite IH. intuition.
    + intuition.
    + intuition.
Qed.

Lemma NoDup_keys_insert i props key v :
  ~ In key (JS.keys props) -> NoDup (JS.keys props) ->
  NoDup (JS.keys (JS.insertIndex i key v props)).
Proof.
  induction props as [|[k' u] props IH]; cbn; intros Hk Hn.
  - constructor; [auto|constructor].
  - destruct (JS.arrayIndex k') as [j|]; [destruct (j <? i)|]; cbn.
    + inversion Hn as [|? ? Hk' Hn']; subst. constructor.
      * change (~ In k' (JS.keys (JS.insertIndex i key v props))).
        rewrite in_keys_insert. intros [->|H]; [apply Hk; now left|contradiction].
      * apply IH; [intros H; apply Hk; now right|exact Hn'].
    + constructor; [exact Hk|exact Hn].
    + constructor; [exact Hk|exact Hn].
Qed.

Lemma NoDup_keys_set props key v :
  NoDup (JS.keys props) -> NoDup (JS.keys (JS.setProperty props key v)).
Proof.
  intros Hn. unfold JS.setProperty.
  destruct (String.eqb key "__proto__"); [exact Hn|].
  destruct (JS.getProperty props key) as [w|] eqn:E.
  - now rewrite keys_replace.
  - assert (Hk : ~ In key (JS.keys props)).
    { intros H. apply get_in_keys in H. congruence. }
    destruct (JS.arrayIndex key) as [i|].
    + now apply NoDup_keys_insert.
    + unfold JS.keys in *. rewrite map_app. cbn.
      apply NoDup_app; [exact Hn|constructor; [auto|constructor]|].
      intros x Hx [<-|[]]. contradiction.
Qed.

End Objects.

(** ** Sorting *)

Lemma in_insertSorted {A : Type} (compare : A -> A -> Z) (x y : A) (l : list A) :
  In y (JS.insertSorted compare x l) <-> y = x \/ In y l.
Proof.
  induction l as [|z l IH]; cbn; [intuition|].
  destruct (compare x z <=? 0); cbn; [intuition|]. rewrite IH. intuition.
Qed.

Lemma in_sort {A : Type} (compare : A -> A -> Z) (y : A) (l : list A) :
  In y (JS.sort compare l) <-> In y l.
Proof.
  induction l as [|x l IH]; cbn; [tauto|].
  rewrite in_insertSorted, IH. intuition.
Qed.

(** ** Array indices *)

Lemma ofCode_code (c : ascii) : JS.ofCode (JS.code c) = c.
Proof.
  unfold JS.ofCode, JS.code. rewrite N2Z.id. apply ascii_N_embedding.
Qed.

Lemma digitValue_range (c : ascii) (d : Z) :
  JS.digitValue c = Some d -> 0 <= d <= 9 /\ c = JS.ofCode (d + 48).
Proof.
  unfold JS.digitValue.
  destruct (Z.leb_spec 48 (JS.code c)); [|discriminate].
  destruct (Z.leb_spec (JS.code c) 57); [|discriminate].
  cbn. intros [= <-]. split; [lia|].
  replace (JS.code c - 48 + 48) with (JS.code c) by lia. symmetry. apply ofCode_code.
Qed.

(** The number a string of digits stands for, after the digits [acc]. *)
Lemma decimal_value (s : string) (acc n : Z) :
  JS.decimal s acc = Some n ->
  acc * 10 ^ JS.len s <= n < (acc + 1) * 10 ^ JS.len s.
Proof.
  revert acc. induction s as [|c s IH]; intros acc; cbn [JS.decimal].
  - intros [= <-]. cbn. lia.
  - destruct (JS.digitValue c) as [d|] eqn:Ed; [|discriminate].
    apply digitValue_range in Ed as [Hd _]. intros H. apply IH in H.
    rewrite StringFacts.len_String.
    pose proof (StringFacts.len_nonneg s) as Hl.
    rewrite Z.pow_add_r by lia. change (10 ^ 1) with 10.
    assert (Hp : 0 < 10 ^ JS.len s) by (apply Z.pow_pos_nonneg; lia).
    nia.
Qed.

Lemma decimal_inj (s1 s2 : string) (acc n : Z) :
  JS.len s1 = JS.len s2 ->
  JS.decimal s1 acc = Some n -> JS.decimal s2 acc = Some n -> s1 = s2.
Proof.
  revert s2 acc. induction s1 as [|c1 s1 IH]; intros [|c2 s2] acc Hl H1 H2.
  - reflexivity.
  - rewrite StringFacts.len_String in Hl. pose proof (StringFacts.len_nonneg s2).
    cbn in Hl. lia.
  - rewrite StringFacts.len_String in Hl. pose proof (StringFacts.len_nonneg s1).
    cbn in Hl. lia.
  - rewrite !StringFacts.len_String in Hl.
    cbn [JS.decimal] in H1, H2.
    destruct (JS.digitValue c1) as [d1|] eqn:E1; [|discriminate].
    destruct (JS.digitValue c2) as [d2|] eqn:E2; [|discriminate].
    apply digitValue_range in E1 as [R1 ->]. apply digitValue_range in E2 as [R2 ->].
    pose proof (decimal_value _ _ _ H1) as V1. pose proof (decimal_value _ _ _ H2) as V2.
    replace (JS.len s2) with (JS.len s1) in V2 by lia.
    assert (Hp : 0 < 10 ^ JS.len s1).
    { apply Z.pow_pos_nonneg; [lia|apply StringFacts.len_nonneg]. }
    assert (d1 = d2) by nia. subst d2.
    f_equal. apply (IH s2 (10 * acc + d1)); [lia|exact H1|exact H2].
Qed.

(** A key is the only key of its array index. *)
Lemma arrayIndex_inj (k1 k2 : string) (i : Z) :
  JS.arrayIndex k1 = Some i -> JS.arrayIndex k2 = Some i -> k1 = k2.
Proof.
  assert (Hcanon : forall c s n,
            Ascii.eqb c "0" = false -> JS.decimal (String c s) 0 = Some n ->
            10 ^ JS.len s <= n < 10 ^ (JS.len s + 1)).
  { intros c s n Hc H. cbn [JS.decimal] in H.
    destruct (JS.digitValue c) as [d|] eqn:Ed; [|discriminate].
    assert (Hd : 1 <= d <= 9).
    { pose proof (digitValue_range c d Ed) as [R E].
      assert (d <> 0); [|lia]. intros ->. rewrite E in Hc. discriminate Hc. }
    apply decimal_value in H.
    pose proof (StringFacts.len_nonneg s) as Hl.
    rewrite Z.pow_add_r by lia. change (10 ^ 1) with 10.
    assert (Hp : 0 < 10 ^ JS.len s) by (apply Z.pow_pos_nonneg; lia).
    nia. }
  unfold JS.arrayIndex.
  destruct k1 as [|c1 s1]; [discriminate|]. destruct k2 as [|c2 s2]; [discriminate|].
  destruct (Ascii.eqb c1 "0") eqn:E1; destruct (Ascii.eqb c2 "0") eqn:E2.
  - apply Ascii.eqb_eq in E1, E2. subst.
    destruct s1; [|discriminate]. destruct s2; [|discriminate]. reflexivity.
  - destruct s1; [|discriminate]. intros [= <-].
    destruct (JS.decimal (String c2 s2) 0) as [n|] eqn:D; [|discriminate].
    destruct (n <? 4294967295); [|discriminate]. intros [= ->].
    apply (Hcanon _ _ _ E2) in D.
    assert (0 < 10 ^ JS.len s2).
    { apply Z.pow_pos_nonneg; [lia|apply StringFacts.len_nonneg]. }
    lia.
  - destruct (JS.decimal (String c1 s1) 0) as [n|] eqn:D; [|discriminate].
    destruct (n <? 4294967295); [|discriminate]. intros [= <-].
    destruct s2; [|discriminate]. intros [= <-].
    apply (Hcanon _ _ _ E1) in D.
    assert (0 < 10 ^ JS.len s1).
    { apply Z.pow_pos_nonneg; [lia|apply StringFacts.len_nonneg]. }
    lia.
  - destruct (JS.decimal (String c1 s1) 0) as [n1|] eqn:D1; [|discriminate].
    destruct (n1 <? 4294967295); [|discriminate]. intros [= ->].
    destruct (JS.decimal (String c2 s2) 0) as [n2|] eqn:D2; [|discriminate].
    destruct (n2 <? 4294967295); [|discriminate]. intros [= ->].
    pose proof (Hcanon _ _ _ E1 D1) as V1. pose proof (Hcanon _ _ _ E2 D2) as V2.
    pose proof (StringFacts.len_nonneg s1) as L1.
    pose proof (StringFacts.len_nonneg s2) as L2.
    assert (Hlen : JS.len s1 = JS.len s2).
    { destruct (Z.lt_trichotomy (JS.len s1) (JS.len s2)) as [H|[H|H]]; [|exact H|].
      - assert (10 ^ (JS.len s1 + 1) <= 10 ^ JS.len s2)
          by (apply Z.pow_le_mono_r; lia). lia.
      - assert (10 ^ (JS.len s2 + 1) <= 10 ^ JS.len s1)
          by (apply Z.pow_le_mono_r; lia). lia. }
    apply (decimal_inj _ _ 0 i); [rewrite !StringFacts.len_String; lia|exact D1|exact D2].
Qed.

(** ** Lists of properties *)

(** The keys before the other keys: there is one way to cut a list of keys
    into array indices and keys that are none. *)
Lemma cut_unique (idx1 idx2 others1 others2 : list string) :
  Forall (fun k => JS.arrayIndex k <> None) idx1 ->
  Forall (fun k => JS.arrayIndex k <> None) idx2 ->
  Forall (fun k => JS.arrayIndex k = None) others1 ->
  Forall (fun k => JS.arrayIndex k = None) others2 ->
  (idx1 ++ others1 = idx2 ++ others2)%list ->
  idx1 = idx2 /\ others1 = others2.
Proof.
  intros H1. revert idx2. induction H1 as [|a idx1 Ha H1 IH]; intros idx2 H2 O1 O2 E.
  - destruct H2 as [|b idx2 Hb H2]; [now split|].
    cbn in E. subst others1. inversion O1; subst. contradiction.
  - destruct H2 as [|b idx2 Hb H2].
    + cbn in E. subst others2. inversion O2; subst. contradiction.
    + cbn in E. injection E as -> E.
      destruct (IH idx2 H2 O1 O2 E) as [-> ->]. now split.
Qed.

(** Two lists of array indices in ascending order, without a key twice,
    with the same keys, are the same. *)
Lemma ascending_unique (l1 l2 : list string) :
  StronglySorted (fun a b => forall i j, JS.arrayIndex a = Some i ->
                    JS.arrayIndex b = Some j -> i <= j) l1 ->
  StronglySorted (fun a b => forall i j, JS.arrayIndex a = Some i ->
                    JS.arrayIndex b = Some j -> i <= j) l2 ->
  Forall (fun k => JS.arrayIndex k <> None) l1 ->
  Forall (fun k => JS.arrayIndex k <> None) l2 ->
  NoDup l1 -> NoDup l2 ->
  (forall k, In k l1 <-> In k l2) ->
  l1 = l2.
Proof.
  intros S1. revert l2.
  induction S1 as [|a l1 S1 IH Ha]; intros l2 S2 F1 F2 N1 N2 Hin.
  - destruct l2 as [|b l2]; [reflexivity|]. exfalso. apply (Hin b). now left.
  - destruct S2 as [|b l2 S2 Hb].
    + exfalso. apply (Hin a). now left.
    + assert (Hab : a = b).
      { destruct (string_dec a b) as [E|E]; [exact E|].
        assert (Ha2 : In a l2).
        { destruct (proj1 (Hin a) (or_introl eq_refl)) as [H|H]; [congruence|exact H]. }
        assert (Hb1 : In b l1).
        { destruct (proj2 (Hin b) (or_introl eq_refl)) as [H|H]; [congruence|exact H]. }
        inversion F1 as [|? ? Fa _]; subst. inversion F2 as [|? ? Fb _]; subst.
        destruct (JS.arrayIndex a) as [i|] eqn:Ei; [|congruence].
        destruct (JS.arrayIndex b) as [j|] eqn:Ej; [|congruence].
        rewrite Forall_forall in Ha, Hb.
        pose proof (Ha b Hb1 i j eq_refl Ej). pose proof (Hb a Ha2 j i eq_refl Ei).
        apply (arrayIndex_inj a b i); [exact Ei|]. rewrite Ej. f_equal. lia. }
      subst b. f_equal.
      inversion F1; inversion F2; inversion N1; inversion N2; subst.
      apply IH; auto.
      intros k. split; intros Hk.
      * destruct (proj1 (Hin k) (or_intror Hk)) as [<-|H]; [contradiction|exact H].
      * destruct (proj2 (Hin k) (or_intror Hk)) as [<-|H]; [contradiction|exact H].
Qed.

(** An object is its keys, in their order, and the values under them. *)
Lemma props_unique (props1 props2 : list (string * Json)) :
  NoDup (JS.keys props1) ->
  JS.keys props1 = JS.keys props2 ->
  (forall k, JS.getProperty props1 k = JS.getProperty props2 k) ->
  props1 = props2.
Proof.
  revert props2. induction props1 as [|[k v] props1 IH]; intros [|[k2 v2] props2] N K G;
    try discriminate K; [reflexivity|].
  cbn in K. injection K as <- K. inversion N as [|? ? Hk N']; subst.
  pose proof (G k) as Gk. cbn in Gk. rewrite String.eqb_refl in Gk. injection Gk as <-.
  f_equal. apply IH; [exact N'|exact K|].
  intros k'. destruct (String.eqb_spec k k') as [<-|E].
  - assert (H1 : JS.getProperty props1 k = None).
    { destruct (JS.getProperty props1 k) eqn:E1; [|reflexivity].
      exfalso. apply Hk. apply get_in_keys. congruence. }
    assert (H2 : JS.getProperty props2 k = None).
    { destruct (JS.getProperty props2 k) eqn:E2; [|reflexivity].
      exfalso. apply Hk. unfold JS.keys in K |- *. rewrite K. apply get_in_keys. congruence. }
    congruence.
  - specialize (G k'). cbn in G. apply String.eqb_neq in E. now rewrite E in G.
Qed.

Section Sorting.

Variable localeCompare : string -> string -> Z.

Local Abbreviation sortValue := (sortObjectRecursively localeCompare).

(** The properties of the result of an object are assigned one after the
    other, in the order of the sorted keys. *)
Lemma sort_object (props : list (string * Json)) :
  sortValue (JObject props)
  = JObject (fold_left
               (fun result k =>
                  match option_map sortValue (JS.getProperty props k) with
                  | Some v => JS.setProperty result k v
                  | None => result
                  end)
               (JS.sort localeCompare (JS.keys props)) []).
Proof.
  cbn [sortObjectRecursively]. f_equal.
  generalize (@nil (string * Json)) as acc.
  generalize (JS.sort localeCompare (JS.keys props)) as l.
  induction l as [|k l IH]; intros acc; [reflexivity|].
  cbn [fold_left]. rewrite <- IH. f_equal.
  assert (E : forall ps,
            (fix sorted (ps : list (string * Json)) (k : string) : option Json :=
               match ps with
               | [] => None
               | (k', v) :: rest =>
                   if String.eqb k' k then Some (sortValue v) else sorted rest k
               end) ps k
            = option_map sortValue (JS.getProperty ps k)).
  { induction ps as [|[k' v] ps IHp]; [reflexivity|].
    cbn. destruct (String.eqb k' k); [reflexivity|exact IHp]. }
  now rewrite E.
Qed.

Section Assignments.

Variable read : string -> option Json.

Local Abbreviation assign := (fun result k => match read k with
                                    | Some v => JS.setProperty result k v
                                    | None => result
                                    end).

Lemma fold_get_other (l : list string) (acc : list (string * Json)) (k : string) :
  ~ In k l ->
  JS.getProperty (fold_left assign l acc) k = JS.getProperty acc k.
Proof.
  revert acc. induction l as [|a l IH]; intros acc Hk; [reflexivity|].
  cbn [fold_left]. rewrite IH by (intros H; apply Hk; now right).
  destruct (read a) as [v|]; [|reflexivity].
  apply get_set_other. intros ->. apply Hk. now left.
Qed.

Lemma fold_get_assigned (l : list string) (acc : list (string * Json)) (k : string) (v : Json) :
  k <> "__proto__" -> In k l -> read k = Some v ->
  JS.getProperty (fold_left assign l acc) k = Some v.
Proof.
  intros Hp. revert acc. induction l as [|a l IH]; intros acc Hin Hr; [destruct Hin|].
  cbn [fold_left].
  destruct (in_dec string_dec k l) as [Hl|Hl]; [now apply IH|].
  destruct Hin as [->|Hin]; [|contradiction].
  rewrite fold_get_other by exact Hl. rewrite Hr. now apply get_set_same.
Qed.

Lemma fold_get_proto (l : list string) (acc : list (string * Json)) :
  JS.getProperty acc "__proto__" = None ->
  JS.getProperty (fold_left assign l acc) "__proto__" = None.
Proof.
  revert acc. induction l as [|a l IH]; intros acc H; [exact H|].
  cbn [fold_left]. apply IH. destruct (read a); [now apply get_set_proto|exact H].
Qed.

Lemma fold_NoDup (l : list string) (acc : list (string * Json)) :
  NoDup (JS.keys acc) -> NoDup (JS.keys (fold_left assign l acc)).
Proof.
  revert acc. induction l as [|a l IH]; intros acc H; [exact H|].
  cbn [fold_left]. apply IH. destruct (read a); [now apply NoDup_keys_set|exact H].
Qed.

End Assignments.

(** The result of an object has each property of the object but
    [__proto__], once, with the sorted value of the property: the
    assignment to [__proto__] makes no property, so that this key and what
    is under it are lost. *)
Theorem sort_keeps_properties (props : list (string * Json)) :
  exists props',
    sortValue (JObject props) = JObject props'
    /\ (forall k, k <> "__proto__" ->
          JS.getProperty props' k = option_map sortValue (JS.getProperty props k))
    /\ JS.getProperty props' "__proto__" = None
    /\ NoDup (JS.keys props').
Proof.
  eexists. split; [apply sort_object|]. split; [|split].
  - intros k Hk. destruct (JS.getProperty props k) as [v|] eqn:E.
    + apply fold_get_assigned; [exact Hk| |now rewrite E].
      apply in_sort. apply get_in_keys. congruence.
    + rewrite fold_get_other; [reflexivity|].
      rewrite in_sort. intros H. apply get_in_keys in H. congruence.
  - now apply fold_get_proto.
  - apply fold_NoDup. constructor.
Qed.

(** ** The order of the keys *)

Lemma SSorted_app {A : Type} (R : A -> A -> Prop) (l1 l2 : list A) :
  StronglySorted R l1 -> StronglySorted R l2 ->
  (forall a b, In a l1 -> In b l2 -> R a b) ->
  StronglySorted R (l1 ++ l2).
Proof.
  intros H1 H2 H. induction H1 as [|a l1 Hs IH Ha]; [exact H2|].
  cbn. constructor.
  - apply IH. intros x y Hx Hy. apply H; [now right|exact Hy].
  - apply Forall_app. split; [exact Ha|].
    apply Forall_forall. intros y Hy. apply H; [now left|exact Hy].
Qed.

(** Where a new array index goes among the keys. *)
Lemma keys_insertIndex (i : Z) (key : string) (v : Json)
    (idx others : list string) (props : list (string * Json)) :
  Forall (fun k => JS.arrayIndex k <> None) idx ->
  Forall (fun k => JS.arrayIndex k = None) others ->
  JS.keys props = (idx ++ others)%list ->
  exists idx1 idx2,
    idx = (idx1 ++ idx2)%list
    /\ JS.keys (JS.insertIndex i key v props) = (idx1 ++ key :: idx2 ++ others)%list
    /\ Forall (fun k => forall j, JS.arrayIndex k = Some j -> j < i) idx1
    /\ Forall (fun k => forall j, JS.arrayIndex k = Some j -> i <= j) (firstn 1 idx2).
Proof.
  intros Hidx Hoth. revert props.
  induction Hidx as [|k idx Hk Hidx IH]; intros props Hkeys.
  - exists [], []. cbn in *. repeat split; try constructor.
    destruct props as [|[k' u] props]; cbn in *; [now rewrite <- Hkeys|].
    rewrite <- Hkeys in Hoth. inversion Hoth as [|? ? Hn _]; subst.
    now rewrite Hn.
  - destruct props as [|[k' u] props]; [discriminate Hkeys|].
    cbn in Hkeys. injection Hkeys as -> Hkeys. cbn [JS.insertIndex].
    destruct (JS.arrayIndex k) as [j|] eqn:Ej; [|congruence].
    destruct (Z.ltb_spec j i) as [Hlt|Hge].
    + destruct (IH props Hkeys) as (idx1 & idx2 & -> & E & H1 & H2).
      exists (k :: idx1), idx2. cbn. unfold JS.keys in E. rewrite E.
      repeat split; [|exact H2].
      constructor; [|exact H1]. intros j' Hj'. congruence.
    + exists [], (k :: idx). cbn. unfold JS.keys in Hkeys. rewrite Hkeys.
      repeat split; [constructor|].
      constructor; [|constructor]. intros j' Hj'. congruence.
Qed.

(** The sorted array is sorted, for a comparator that is consistent. *)
Section Consistent.

Hypothesis total : forall a b, localeCompare a b <= 0 \/ localeCompare b a <= 0.

Hypothesis transitive : forall a b c,
  localeCompare a b <= 0 -> localeCompare b c <= 0 -> localeCompare a c <= 0.

Lemma insertSorted_sorted (x : string) (l : list string) :
  StronglySorted (fun a b => localeCompare a b <= 0) l ->
  StronglySorted (fun a b => localeCompare a b <= 0) (JS.insertSorted localeCompare x l).
Proof.
  induction 1 as [|y l Hs IH Hy]; cbn; [repeat constructor|].
  destruct (Z.leb_spec (localeCompare x y) 0) as [Hle|Hgt].
  - constructor; [now constructor|].
    constructor; [exact Hle|].
    eapply Forall_impl; [|exact Hy]. intros z Hz. now apply transitive with y.
  - constructor; [exact IH|].
    apply Forall_forall. intros z Hz. apply in_insertSorted in Hz as [->|Hz].
    + destruct (total x y); [lia|assumption].
    + rewrite Forall_forall in Hy. now apply Hy.
Qed.

Lemma sort_sorted (l : list string) :
  StronglySorted (fun a b => localeCompare a b <= 0) (JS.sort localeCompare l).
Proof.
  induction l as [|x l IH]; cbn; [constructor|]. now apply insertSorted_sorted.
Qed.

(** The keys of the result while the sorted keys are assigned: the array
    indices in ascending order, then the other keys in the order of the
    comparator, each of them before the keys that are still to come. *)
Lemma fold_keys_order (read : string -> option Json) (l : list string)
    (acc : list (string * Json)) (idx others : list string) :
  StronglySorted (fun a b => localeCompare a b <= 0) l ->
  JS.keys acc = (idx ++ others)%list ->
  Forall (fun k => JS.arrayIndex k <> None) idx ->
  StronglySorted (fun a b => forall i j, JS.arrayIndex a = Some i ->
                    JS.arrayIndex b = Some j -> i <= j) idx ->
  Forall (fun k => JS.arrayIndex k = None) others ->
  StronglySorted (fun a b => localeCompare a b <= 0) others ->
  (forall o x, In o others -> In x l -> localeCompare o x <= 0) ->
  exists idx' others',
    JS.keys (fold_left (fun result k => match read k with
                                        | Some v => JS.setProperty result k v
                                        | None => result
                                        end) l acc)
    = (idx' ++ others')%list
    /\ Forall (fun k => JS.arrayIndex k <> None) idx'
    /\ StronglySorted (fun a b => forall i j, JS.arrayIndex a = Some i ->
                         JS.arrayIndex b = Some j -> i <= j) idx'
    /\ Forall (fun k => JS.arrayIndex k = None) others'
    /\ StronglySorted (fun a b => localeCompare a b <= 0) others'.
Proof.
  intros Hl. revert acc idx others.
  induction Hl as [|a l Hl IH Ha]; intros acc idx others Hkeys Hidx Hsi Hoth Hso Hrest.
  { exists idx, others. cbn. auto. }
  cbn [fold_left].
  assert (Hrest' : forall o x, In o others -> In x l -> localeCompare o x <= 0).
  { intros o x Ho Hx. apply Hrest; [exact Ho|now right]. }
  destruct (read a) as [v|]; [|now apply (IH acc idx others)].
  unfold JS.setProperty.
  destruct (String.eqb a "__proto__"); [now apply (IH acc idx others)|].
  destruct (JS.getProperty acc a) as [w|] eqn:Eg.
  { apply (IH _ idx others); auto. now rewrite keys_replace. }
  destruct (JS.arrayIndex a) as [i|] eqn:Ea.
  - destruct (keys_insertIndex i a v idx others acc Hidx Hoth Hkeys)
      as (idx1 & idx2 & -> & E & H1 & H2).
    apply (IH _ (idx1 ++ a :: idx2)%list others); auto.
    + rewrite E. now rewrite <- app_assoc.
    + apply Forall_app in Hidx as [Hi1 Hi2].
      apply Forall_app. split; [exact Hi1|]. constructor; [congruence|exact Hi2].
    + assert (Hs1 : StronglySorted (fun a b => forall i j, JS.arrayIndex a = Some i ->
                                      JS.arrayIndex b = Some j -> i <= j) idx1).
      { clear -Hsi. induction idx1 as [|k idx1 IHi]; [constructor|].
        cbn in Hsi. inversion Hsi as [|? ? Hs Hf]; subst.
        constructor; [now apply IHi|]. now apply Forall_app in Hf as [Hf _]. }
      assert (Hs2 : StronglySorted (fun a b => forall i j, JS.arrayIndex a = Some i ->
                                      JS.arrayIndex b = Some j -> i <= j) idx2).
      { clear -Hsi. induction idx1 as [|k idx1 IHi]; [exact Hsi|].
        cbn in Hsi. inversion Hsi; subst. now apply IHi. }
      assert (Hge : Forall (fun k => forall j, JS.arrayIndex k = Some j -> i <= j) idx2).
      { destruct idx2 as [|k idx2]; [constructor|].
        cbn in H2. inversion H2 as [|? ? Hk _]; subst.
        inversion Hs2 as [|? ? _ Hf]; subst.
        constructor; [exact Hk|].
        apply Forall_app in Hidx as [_ Hidx2]. inversion Hidx2 as [|? ? Hkn _]; subst.
        destruct (JS.arrayIndex k) as [jk|] eqn:Ek; [|congruence].
        eapply Forall_impl; [|exact Hf]. cbn. intros z Hz j Hj.
        specialize (Hk jk eq_refl). specialize (Hz jk j eq_refl Hj). lia. }
      apply SSorted_app; [exact Hs1| |].
      * constructor; [exact Hs2|].
        eapply Forall_impl; [|exact Hge]. cbn. intros z Hz i' j Hi' Hj.
        assert (i' = i) by congruence. subst. now apply Hz.
      * intros x y Hx Hy i' j Hi' Hj.
        rewrite Forall_forall in H1. specialize (H1 x Hx i' Hi').
        destruct Hy as [<-|Hy].
        -- assert (j = i) by congruence. lia.
        -- rewrite Forall_forall in Hge. specialize (Hge y Hy j Hj). lia.
  - apply (IH _ idx (others ++ [a])%list); auto.
    + unfold JS.keys in *. rewrite map_app, Hkeys. cbn. now rewrite app_assoc.
    + apply Forall_app. split; [exact Hoth|]. constructor; [exact Ea|constructor].
    + apply SSorted_app; [exact Hso|repeat constructor|].
      intros o x Ho [<-|[]]. apply Hrest; [exact Ho|now left].
    + intros o x Ho Hx. apply in_app_or in Ho as [Ho|[<-|[]]].
      * now apply Hrest'.
      * rewrite Forall_forall in Ha. now apply Ha.
Qed.

(** The keys of the result of an object are enumerated in this order:
    first the keys that are array indices, by ascending index, whatever the
    comparator says of them, and then the other keys in the order of the
    comparator.  The comparator is taken to be consistent. *)
Theorem sorted_keys_order (props : list (string * Json)) :
  exists props' idx others,
    sortValue (JObject props) = JObject props'
    /\ JS.keys props' = (idx ++ others)%list
    /\ Forall (fun k => JS.arrayIndex k <> None) idx
    /\ StronglySorted (fun a b => forall i j, JS.arrayIndex a = Some i ->
                         JS.arrayIndex b = Some j -> i <= j) idx
    /\ Forall (fun k => JS.arrayIndex k = None) others
    /\ StronglySorted (fun a b => localeCompare a b <= 0) others.
Proof.
  destruct (fold_keys_order
              (fun k => option_map sortValue (JS.getProperty props k))
              (JS.sort localeCompare (JS.keys props)) [] [] [])
    as (idx & others & E & H); try constructor.
  - apply sort_sorted.
  - intros o x [].
  - eexists. exists idx, others. split; [apply sort_object|]. split; [exact E|exact H].
Qed.

(** ** Sorting twice *)

Lemma sort_of_sorted (l : list string) :
  StronglySorted (fun a b => localeCompare a b <= 0) l -> JS.sort localeCompare l = l.
Proof.
  induction 1 as [|x l Hs IH Hx]; [reflexivity|].
  cbn. rewrite IH. destruct l as [|y l]; [reflexivity|].
  cbn. inversion Hx as [|? ? Hxy _]; subst.
  now destruct (Z.leb_spec (localeCompare x y) 0); [|lia].
Qed.

Lemma insertSorted_least (x : string) (l : list string) :
  (forall h, In h l -> localeCompare x h <= 0) ->
  JS.insertSorted localeCompare x l = x :: l.
Proof.
  destruct l as [|y l]; [reflexivity|]. intros H. cbn.
  specialize (H y (or_introl eq_refl)).
  now destruct (Z.leb_spec (localeCompare x y) 0); [|lia].
Qed.

(** The sort is stable: it commutes with the choice of some elements. *)
Lemma filter_insertSorted (keep : string -> bool) (x : string) (l : list string) :
  StronglySorted (fun a b => localeCompare a b <= 0) l ->
  filter keep (JS.insertSorted localeCompare x l)
  = if keep x then JS.insertSorted localeCompare x (filter keep l) else filter keep l.
Proof.
  induction 1 as [|y l Hs IH Hy].
  - cbn. now destruct (keep x).
  - cbn [JS.insertSorted].
    destruct (Z.leb_spec (localeCompare x y) 0) as [Hle|Hgt].
    + change (filter keep (x :: y :: l))
        with (if keep x then x :: filter keep (y :: l) else filter keep (y :: l)).
      destruct (keep x); [|reflexivity].
      symmetry. apply insertSorted_least.
      intros h Hh. apply filter_In in Hh as [[<-|Hin] _]; [exact Hle|].
      rewrite Forall_forall in Hy. apply transitive with y; auto.
    + cbn [filter]. rewrite IH. destruct (keep y) eqn:Ey.
      * destruct (keep x); [|reflexivity].
        cbn [JS.insertSorted].
        now destruct (Z.leb_spec (localeCompare x y) 0); [lia|].
      * reflexivity.
Qed.

Lemma filter_sort (keep : string -> bool) (l : list string) :
  filter keep (JS.sort localeCompare l) = JS.sort localeCompare (filter keep l).
Proof.
  induction l as [|x l IH]; [reflexivity|].
  cbn [JS.sort]. rewrite filter_insertSorted by apply sort_sorted.
  cbn [filter]. rewrite IH. now destruct (keep x).
Qed.

Lemma NoDup_insertSorted (x : string) (l : list string) :
  ~ In x l -> NoDup l -> NoDup (JS.insertSorted localeCompare x l).
Proof.
  induction l as [|y l IH]; cbn; intros Hx Hn; [repeat constructor; auto|].
  destruct (localeCompare x y <=? 0); [now constructor|].
  inversion Hn as [|? ? Hy Hn']; subst. constructor.
  - rewrite in_insertSorted. intros [->|H]; [apply Hx; now left|contradiction].
  - apply IH; [intros H; apply Hx; now right|exact Hn'].
Qed.

Lemma NoDup_sort (l : list string) : NoDup l -> NoDup (JS.sort localeCompare l).
Proof.
  induction 1 as [|x l Hx Hn IH]; cbn; [constructor|].
  apply NoDup_insertSorted; [now rewrite in_sort|exact IH].
Qed.

(** The keys of the result when every key that is assigned is new. *)
Lemma fold_keys_new (read : string -> option Json) (l : list string)
    (acc : list (string * Json)) (idx others : list string) :
  NoDup l ->
  (forall k, In k l -> read k <> None /\ k <> "__proto__" /\ ~ In k (JS.keys acc)) ->
  JS.keys acc = (idx ++ others)%list ->
  Forall (fun k => JS.arrayIndex k <> None) idx ->
  Forall (fun k => JS.arrayIndex k = None) others ->
  exists idx',
    JS.keys (fold_left (fun result k => match read k with
                                        | Some v => JS.setProperty result k v
                                        | None => result
                                        end) l acc)
    = (idx' ++ others
         ++ filter (fun k => match JS.arrayIndex k with None => true | Some _ => false end) l)%list
    /\ Forall (fun k => JS.arrayIndex k <> None) idx'
    /\ (forall k, In k idx' <-> In k idx \/ (In k l /\ JS.arrayIndex k <> None)).
Proof.
  intros Hn. revert acc idx others.
  induction Hn as [|a l Ha Hn IH]; intros acc idx others Hnew Hkeys Hidx Hoth.
  { exists idx. cbn. rewrite app_nil_r. repeat split; auto. intros [H|[[] _]]; exact H. }
  cbn [fold_left filter].
  destruct (Hnew a (or_introl eq_refl)) as (Hr & Hp & Hk).
  destruct (read a) as [v|] eqn:Er; [|congruence].
  assert (Eg : JS.getProperty acc a = None).
  { destruct (JS.getProperty acc a) eqn:E; [|reflexivity].
    exfalso. apply Hk. apply get_in_keys. congruence. }
  assert (Es : JS.setProperty acc a v
               = match JS.arrayIndex a with
                 | Some i => JS.insertIndex i a v acc
                 | None => (acc ++ [(a, v)])%list
                 end).
  { unfold JS.setProperty. apply String.eqb_neq in Hp. now rewrite Hp, Eg. }
  rewrite Es. clear Es.
  destruct (JS.arrayIndex a) as [i|] eqn:Ea.
  - destruct (keys_insertIndex i a v idx others acc Hidx Hoth Hkeys)
      as (idx1 & idx2 & -> & E & _ & _).
    destruct (IH (JS.insertIndex i a v acc) (idx1 ++ a :: idx2)%list others)
      as (idx' & E' & F' & I').
    + intros k Hk'. destruct (Hnew k (or_intror Hk')) as (H1 & H2 & H3).
      split; [exact H1|]. split; [exact H2|].
      rewrite in_keys_insert. intros [->|H]; [contradiction|contradiction].
    + rewrite E. now rewrite <- app_assoc.
    + apply Forall_app in Hidx as [Hi1 Hi2].
      apply Forall_app. split; [exact Hi1|]. constructor; [congruence|exact Hi2].
    + exact Hoth.
    + exists idx'. split; [exact E'|]. split; [exact F'|].
      intros k. rewrite I', !in_app_iff. cbn. split.
      * intros [[H|[<-|H]]|[H1 H2]]; auto.
        right. split; [now left|congruence].
      * intros [[H|H]|[[<-|H1] H2]]; auto.
  - destruct (IH (acc ++ [(a, v)])%list idx (others ++ [a])%list)
      as (idx' & E' & F' & I').
    + intros k Hk'. destruct (Hnew k (or_intror Hk')) as (H1 & H2 & H3).
      split; [exact H1|]. split; [exact H2|].
      unfold JS.keys. rewrite map_app, in_app_iff. cbn.
      intros [H|[<-|[]]]; contradiction.
    + unfold JS.keys in *. rewrite map_app, Hkeys. cbn. now rewrite app_assoc.
    + exact Hidx.
    + apply Forall_app. split; [exact Hoth|]. constructor; [exact Ea|constructor].
    + exists idx'. split; [|split; [exact F'|]].
      * rewrite E'. now rewrite <- !app_assoc.
      * intros k. rewrite I'. cbn. split.
        -- intros [H|[H1 H2]]; auto.
        -- intros [H|[[<-|H1] H2]]; auto. congruence.
Qed.

Lemma fold_read_ext (read1 read2 : string -> option Json) (l : list string)
    (acc : list (string * Json)) :
  (forall k, In k l -> read1 k = read2 k) ->
  fold_left (fun result k => match read1 k with
                             | Some v => JS.setProperty result k v
                             | None => result
                             end) l acc
  = fold_left (fun result k => match read2 k with
                               | Some v => JS.setProperty result k v
                               | None => result
                               end) l acc.
Proof.
  revert acc. induction l as [|a l IH]; intros acc H; [reflexivity|].
  cbn [fold_left]. rewrite (H a (or_introl eq_refl)).
  apply IH. intros k Hk. apply H. now right.
Qed.

(** Sorting what is sorted changes nothing: [sortObjectRecursively] gives
    back every value it has returned, for a comparator that is
    consistent. *)
Theorem sort_idempotent (value : Json) :
  sortValue (sortValue value) = sortValue value.
Proof.
  induction value as [ |b|n|s|items IH|props IH] using Json_induction;
    try reflexivity.
  - cbn [sortObjectRecursively]. f_equal. rewrite map_map.
    induction IH as [|v items Hv _ IHl]; [reflexivity|].
    cbn. now rewrite Hv, IHl.
  - destruct (sort_keeps_properties props) as (R & ER & Hget & Hproto & Hnodup).
    rewrite ER.
    destruct (fold_keys_order
                (fun k => option_map sortValue (JS.getProperty props k))
                (JS.sort localeCompare (JS.keys props)) [] [] [])
      as (idx & others & EK & Fidx & Sidx & Foth & Soth); try constructor.
    { apply sort_sorted. }
    { intros o x []. }
    assert (ER' : sortValue (JObject props)
                  = JObject (fold_left
                               (fun result k =>
                                  match option_map sortValue (JS.getProperty props k) with
                                  | Some v => JS.setProperty result k v
                                  | None => result
                                  end)
                               (JS.sort localeCompare (JS.keys props)) []))
      by apply sort_object.
    rewrite ER in ER'. injection ER' as ER'. rewrite <- ER' in EK. clear ER'.
    (* the values of the result are sorted *)
    assert (Hfix : forall k, option_map sortValue (JS.getProperty R k) = JS.getProperty R k).
    { intros k. destruct (String.eqb_spec k "__proto__") as [->|Hk].
      - now rewrite Hproto.
      - rewrite (Hget k Hk). destruct (JS.getProperty props k) as [v|] eqn:E; [|reflexivity].
        cbn. f_equal. rewrite Forall_forall in IH.
        assert (Hin : In (k, v) props).
        { clear -E. induction props as [|[k' v'] props IHp]; [discriminate|].
          cbn in E. destruct (String.eqb_spec k' k) as [->|_].
          - injection E as ->. now left.
          - right. now apply IHp. }
        exact (IH (k, v) Hin). }
    rewrite sort_object. f_equal.
    rewrite (fold_read_ext _ (JS.getProperty R)) by (intros k _; apply Hfix).
    assert (Hnp : ~ In "__proto__" (JS.keys R)).
    { intros H. apply get_in_keys in H. congruence. }
    assert (HnL : NoDup (JS.sort localeCompare (JS.keys R))) by now apply NoDup_sort.
    symmetry. apply props_unique; [exact Hnodup| |].
    + (* the keys *)
      assert (Hnew : forall k, In k (JS.sort localeCompare (JS.keys R)) ->
                       JS.getProperty R k <> None /\ k <> "__proto__"
                       /\ ~ In k (JS.keys (@nil (string * Json)))).
      { intros k Hk. apply in_sort in Hk. split; [now apply get_in_keys|].
        split; [intros ->; contradiction|intros []]. }
      destruct (fold_keys_new (JS.getProperty R) (JS.sort localeCompare (JS.keys R)) [] [] []
                  HnL Hnew eq_refl (Forall_nil _) (Forall_nil _))
        as (idx2 & E2 & F2 & I2).
      destruct (fold_keys_order (JS.getProperty R) (JS.sort localeCompare (JS.keys R))
                  [] [] [])
        as (idx3 & others3 & E3 & F3 & S3 & O3 & _); try constructor.
      { apply sort_sorted. }
      { intros o x []. }
      rewrite E2 in E3. cbn [app] in E3.
      assert (Hf : filter (fun k => match JS.arrayIndex k with
                                    | None => true
                                    | Some _ => false
                                    end) (JS.sort localeCompare (JS.keys R))
                   = others).
      { rewrite filter_sort, EK, filter_app.
        assert (H1 : filter (fun k => match JS.arrayIndex k with
                                      | None => true
                                      | Some _ => false
                                      end) idx = []).
        { clear -Fidx. induction Fidx as [|k0 idx Hk _ IHf]; [reflexivity|].
          cbn. destruct (JS.arrayIndex k0); [exact IHf|congruence]. }
        assert (H2 : filter (fun k => match JS.arrayIndex k with
                                      | None => true
                                      | Some _ => false
                                      end) others = others).
        { clear -Foth. induction Foth as [|k0 others Hk _ IHf]; [reflexivity|].
          cbn. rewrite Hk. now rewrite IHf. }
        rewrite H1, H2. cbn. now apply sort_of_sorted. }
      rewrite Hf in E3, E2.
      destruct (cut_unique idx2 idx3 others others3 F2 F3 Foth O3 E3) as [-> _].
      rewrite E2, EK. f_equal.
      rewrite EK in Hnodup.
      assert (Nidx : NoDup idx) by (apply NoDup_app_remove_r in Hnodup; exact Hnodup).
      assert (N3 : NoDup idx3).
      { assert (N : NoDup (JS.keys (fold_left
                                      (fun result k =>
                                         match JS.getProperty R k with
                                         | Some v => JS.setProperty result k v
                                         | None => result
                                         end)
                                      (JS.sort localeCompare (JS.keys R)) [])))
          by (apply fold_NoDup; constructor).
        rewrite E2 in N. now apply NoDup_app_remove_r in N. }
      symmetry. apply ascending_unique; auto.
      intros k. rewrite I2. cbn. rewrite in_sort, EK, in_app_iff.
      split.
      * intros [[]|[[H|H] Hk]]; [exact H|].
        rewrite Forall_forall in Foth. specialize (Foth k H). congruence.
      * intros Hk. right. split; [now left|].
        rewrite Forall_forall in Fidx. now apply Fidx.
    + (* the values *)
      intros k. destruct (in_dec string_dec k (JS.keys R)) as [Hk|Hk].
      * destruct (JS.getProperty R k) as [v|] eqn:E.
        -- symmetry. apply fold_get_assigned; [intros ->; contradiction| |exact E].
           now apply in_sort.
        -- apply get_in_keys in Hk. congruence.
      * rewrite fold_get_other by now rewrite in_sort.
        destruct (JS.getProperty R k) eqn:E; [|reflexivity].
        exfalso. apply Hk. apply get_in_keys. congruence.
Qed.

End Consistent.

End Sorting.

(** ** The handlers *)

Section Handlers.

Variable localeCompare : string -> string -> Z.
Variable JSON_parse : string -> option string + Json.
Variable JSON_stringify : Json -> option float -> option string + string.
Variable stackOverflow : Json -> option (option string).
Variable Number : string -> float.




End Handlers.

(** What is downloaded is the output, under a name that ends with [.json]:
    the name of the input when it ends so, and [formatted.json] for every
    other name. *)
Theorem download_is_json (st : State) :
  JS.endsWith (download_name (downloadOutput st)) ".json" = true
  /\ download_text (downloadOutput st) = output st
  /\ (download_name (downloadOutput st) = inputName st
      \/ download_name (downloadOutput st) = "formatted.json")
  /\ download_name (downloadOutput (clearAll st)) = "input.json".
Proof.
  unfold downloadOutput. cbn.
  destruct (JS.endsWith (inputName st) ".json") eqn:E; auto.
Qed.


Lemma sort_idempotent_witness :
  sortObjectRecursively (fun a b => JS.len a - JS.len b)
    (sortObjectRecursively (fun a b => JS.len a - JS.len b)
       (JObject [("bb", JNull); ("10", JArray [JObject [("z", JNull); ("a", JNull)]]);
                 ("9", JNull)]))
  = sortObjectRecursively (fun a b => JS.len a - JS.len b)
      (JObject [("bb", JNull); ("10", JArray [JObject [("z", JNull); ("a", JNull)]]);
                ("9", JNull)]).
Proof.
  apply (sort_idempotent (fun a b => JS.len a - JS.len b)).
  - intros a b. lia.
  - intros a b c. lia.
Defined.

Lemma sorted_keys_order_witness :
  exists props' idx others,
    sortObjectRecursively (fun a b => JS.len a - JS.len b)
      (JObject [("bb", JNull); ("10", JNull); ("9", JNull); ("a", JNull)])
    = JObject props'
    /\ JS.keys props' = (idx ++ others)%list
    /\ Forall (fun k => JS.arrayIndex k <> None) idx
    /\ StronglySorted (fun a b => forall i j, JS.arrayIndex a = Some i ->
                         JS.arrayIndex b = Some j -> i <= j) idx
    /\ Forall (fun k => JS.arrayIndex k = None) others
    /\ StronglySorted (fun a b => JS.len a - JS.len b <= 0) others.
Proof.
  apply (sorted_keys_order (fun a b => JS.len a - JS.len b)).
  - intros a b. lia.
  - intros a b c. lia.
Defined.

End JsonFacts.

(* ================================================================== *)
(** * The code differ *)
(* ================================================================== *)

Module DifferFacts.

Import CodeDiffer.

(** ** The last segment of a name *)

Lemma pop_cons {A : Type} (x : A) (l : list A) : l <> [] -> JS.pop (x :: l) = JS.pop l.
Proof. destruct l; [congruence|reflexivity]. Qed.

Lemma split_nonempty (sep : ascii) (s : string) : JS.split sep s <> [].
Proof.
  induction s as [|c s IH]; cbn; [discriminate|].
  destruct (Ascii.eqb c sep); [discriminate|].
  destruct (JS.split sep s); [contradiction|discriminate].
Qed.

Lemma split_lacks (sep : ascii) (s : string) :
  Stated.lacks sep s = true -> JS.split sep s = [s].
Proof.
  induction s as [|c s IH]; cbn; [reflexivity|]. intros H.
  apply andb_prop in H as [Hc Hs]. apply negb_true_iff in Hc.
  now rewrite Hc, (IH Hs).
Qed.

Lemma pop_split_app (sep : ascii) (p s : string) :
  JS.pop (JS.split sep (p ++ String sep s)) = JS.pop (JS.split sep s)
  /\ (List.length (JS.split sep (p ++ String sep s)) >= 2)%nat.
Proof.
  pose proof (split_nonempty sep s) as Hs.
  induction p as [|c p [IH1 IH2]]; cbn.
  - rewrite Ascii.eqb_refl. split; [now apply pop_cons|].
    destruct (JS.split sep s); [contradiction|cbn; lia].
  - destruct (Ascii.eqb c sep).
    + split; [|cbn; lia]. rewrite pop_cons; [exact IH1|].
      intros E. rewrite E in IH2. cbn in IH2. lia.
    + destruct (JS.split sep (p ++ String sep s)) as [|piece [|piece' pieces]];
        cbn in IH2; try lia.
      split; [|cbn; lia]. rewrite <- IH1. reflexivity.
Qed.

(** Only what follows the last dot of a name counts, and a name without a
    dot counts as a whole: [inferLanguage] answers for [base.ext] what it
    answers for the name [ext]. *)
Theorem last_segment_decides (base ext content : string) :
  Stated.lacks "." ext = true ->
  inferLanguage (base ++ "." ++ ext) content = inferLanguage ext content.
Proof.
  intros H. unfold inferLanguage.
  change (base ++ "." ++ ext) with (base ++ String "." ext).
  destruct (pop_split_app "." base ext) as [-> _].
  reflexivity.
Qed.

Lemma last_segment_decides_witness :
  inferLanguage "src/main.test.TS" "" = inferLanguage "TS" "".
Proof.
  apply (last_segment_decides "src/main.test" "TS" ""). reflexivity.
Defined.

(** ** The extension and the content *)

Lemma inferLanguage_range (name content : string) : inferLanguage name content <> auto.
Proof.
  unfold inferLanguage. cbv zeta.
  repeat match goal with
         | |- (if ?b then _ else _) <> _ => destruct b; [discriminate|]
         end.
  discriminate.
Qed.

(** The content is looked at only when the name says nothing: a name that
    gives a language with an empty content gives the same one with every
    content. *)
Theorem extension_before_content (name content : string) :
  inferLanguage name "" <> plaintext ->
  inferLanguage name content = inferLanguage name "".
Proof.
  unfold inferLanguage. cbv zeta.
  repeat match goal with
         | |- (if ?b then _ else _) <> _ -> _ => destruct b; [reflexivity|]
         end.
  cbn. congruence.
Qed.

Lemma extension_before_content_witness :
  inferLanguage "notes.MD" "#!/bin/sh" = inferLanguage "notes.MD" "".
Proof.
  apply (extension_before_content "notes.MD" "#!/bin/sh"). discriminate.
Defined.

(** The languages handed to the editor are never [auto]: they are the
    language that was chosen, or the inferred ones. *)
Theorem languages_never_auto (st : State) :
  fst (languages st) <> auto /\ snd (languages st) <> auto.
Proof.
  unfold languages. destruct (language st); cbn;
    split; try discriminate; apply inferLanguage_range.
Qed.

(** ** The patterns of the content *)

Lemma no_line_start (test : string -> bool) (s : string) :
  oneLine s = true -> atSomeLineStart test false s = false.
Proof.
  induction s as [|c s IH]; cbn; [reflexivity|]. intros H.
  apply andb_prop in H as [Hc Hs]. apply negb_true_iff in Hc. rewrite Hc. now apply IH.
Qed.

Lemma space_of_terminator (c : ascii) :
  JS.isSpace c = false -> JS.isLineTerminator c = false.
Proof.
  unfold JS.isSpace, JS.isLineTerminator. intros H.
  apply orb_false_iff in H as [H _]. apply orb_false_iff in H as [H _].
  destruct (Z.eqb_spec (JS.code c) 10) as [E|_]; [rewrite E in H; discriminate H|].
  destruct (Z.eqb_spec (JS.code c) 13) as [E|_]; [rewrite E in H; discriminate H|].
  reflexivity.
Qed.

(** The pattern of JSON asks for a brace and then, after white space, a
    brace or a bracket.  So, under a name that says nothing, a document on
    one line that starts with a brace and then a character that is neither
    white space, a brace nor a bracket, as the quote of the first key of an
    object is, is plain text; and so is one that starts with a bracket, as
    an array does. *)
Theorem json_seldom_detected (name rest : string) (c : ascii) :
  inferLanguage name "" = plaintext ->
  oneLine rest = true ->
  (JS.isSpace c = false -> c <> "{"%char -> c <> "["%char ->
   inferLanguage name (String "{" (String c rest)) = plaintext)
  /\ inferLanguage name (String "[" rest) = plaintext.
Proof.
  unfold inferLanguage. cbv zeta.
  repeat match goal with
         | |- (if ?b then _ else _) = _ -> _ => destruct b; [discriminate|]
         end.
  intros _ Hrest. split.
  - intros Hs Hb Hk.
    assert (Hj : jsonPattern (String "{" (String c rest)) = false).
    { unfold jsonPattern. cbn -[JS.isLineTerminator]. rewrite Hs.
      apply Ascii.eqb_neq in Hb, Hk. rewrite Hb, Hk. cbn -[JS.isLineTerminator].
      rewrite (space_of_terminator c Hs).
      change (JS.isLineTerminator "{") with false. cbn.
      now apply no_line_start. }
    rewrite Hj. reflexivity.
  - assert (Hj : jsonPattern (String "[" rest) = false).
    { unfold jsonPattern. cbn. now apply no_line_start. }
    rewrite Hj. reflexivity.
Qed.

Lemma json_seldom_detected_witness :
  inferLanguage "data" "[1, 2, 3]" = plaintext.
Proof.
  apply (json_seldom_detected "data" "1, 2, 3]" "a"); reflexivity.
Defined.

Lemma shellWord_after (dir rest : string) (afterWordChar : bool) :
  oneLine dir = true ->
  shellWord false rest = true ->
  shellWord afterWordChar (dir ++ String "/" rest) = true.
Proof.
  intros Hd Hr. revert afterWordChar.
  induction dir as [|c dir IH]; intros b.
  - cbn [append shellWord]. change (JS.isLineTerminator "/") with false.
    change (JS.isWordChar "/") with false. cbn iota. rewrite Hr. apply orb_true_r.
  - cbn [append shellWord]. cbn in Hd. apply andb_prop in Hd as [Hc Hd].
    apply negb_true_iff in Hc. rewrite Hc, (IH Hd). apply orb_true_r.
Qed.

(** A script whose first line is [#!], a path on that line and then [bash]
    or [sh] as the name of the file of that path, is a shell script, under
    a name that says nothing and when no line of it has the pattern of
    JSON. *)
Theorem shebang_is_shell (name dir shell rest : string) :
  inferLanguage name "" = plaintext ->
  oneLine dir = true ->
  shell = "bash" \/ shell = "sh" ->
  match rest with
  | EmptyString => True
  | String c _ => JS.isWordChar c = false
  end ->
  jsonPattern ("#!" ++ dir ++ "/" ++ shell ++ rest) = false ->
  inferLanguage name ("#!" ++ dir ++ "/" ++ shell ++ rest) = bash.
Proof.
  unfold inferLanguage. cbv zeta.
  repeat match goal with
         | |- (if ?b then _ else _) = _ -> _ => destruct b; [discriminate|]
         end.
  intros _ Hd Hs Hrest Hj. rewrite Hj.
  assert (Hw : shellWord false (shell ++ rest) = true).
  { destruct Hs as [-> | ->]; cbn [append shellWord negb andb].
    - replace (wordThenBoundary "bash" (String "b" (String "a" (String "s" (String "h" rest)))))
        with true; [reflexivity|].
      unfold wordThenBoundary. cbn. destruct rest as [|c r]; [reflexivity|]. now rewrite Hrest.
    - replace (wordThenBoundary "sh" (String "s" (String "h" rest))) with true;
        [now rewrite orb_true_r|].
      unfold wordThenBoundary. cbn. destruct rest as [|c r]; [reflexivity|]. now rewrite Hrest. }
  unfold shebangPattern.
  change (JS.startsWith ("#!" ++ dir ++ "/" ++ shell ++ rest) "#!") with true.
  change (JS.drop 2 ("#!" ++ dir ++ "/" ++ shell ++ rest))
    with (dir ++ String "/" (shell ++ rest)).
  now rewrite (shellWord_after dir (shell ++ rest) false Hd Hw).
Qed.

Lemma shebang_is_shell_witness :
  inferLanguage "run" "#!/usr/bin/bash -e" = bash.
Proof.
  apply (shebang_is_shell "run" "/usr/bin" "bash" " -e").
  - reflexivity.
  - reflexivity.
  - now left.
  - reflexivity.
  - reflexivity.
Defined.

(** ** The sides *)

(** Swapping the sides twice gives the state back, and swapping them once
    swaps what the editor shows: the contents and, with [auto], the
    languages. *)
Theorem swapSides_involutive (st : State) :
  swapSides (swapSides st) = st
  /\ left (swapSides st) = right st /\ right (swapSides st) = left st
  /\ (language st = auto ->
      languages (swapSides st) = (snd (languages st), fst (languages st))).
Proof.
  split; [now destruct st|]. split; [reflexivity|]. split; [reflexivity|].
  intros H. unfold languages. cbn. now rewrite H.
Qed.

End DifferFacts.
